(** * gatsby-source-directus: a shallow embedding of [gatsby-node.js]

    The plugin keeps one process-wide [Plugin] instance, talks to a remote
    Directus API and to the Gatsby host (node store, cache, reporter).  The
    embedding follows the source function by function:

    - JavaScript exceptions are a [Result] ([Ok] / [Throw]);
    - mutation of the plugin instance and of the host is explicit state
      passing in the monad [M];
    - every effect a collaborator can observe (console output, transport
      calls, timers, SDK calls, host callbacks) is appended to a trace;
    - what is not in the repository (the platform's [URL] class, the [ms]
      package, the SDK, the host, the delegate plugin) is a parameter of
      the program ([Env]), and a property that depends on what a
      collaborator does says so in a hypothesis;
    - [while] loops carry a fuel argument and return [None] when it runs
      out; each loop comes with a lemma giving a sufficient amount. *)

From Stdlib Require Import ZArith QArith String Ascii List Lia Bool.
From stdpp Require Import base option list gmap strings.

Local Open Scope string_scope.
Local Open Scope list_scope.
Local Open Scope stdpp_scope.
Local Open Scope Z_scope.

(** ** Exceptions and the state/exception monad *)

(** The values this program throws. *)
Inductive Exn : Type :=
| JsError (message : string)      (* [new Error(message)] *)
| JsTypeError (message : string)  (* raised by the runtime, e.g. on [null] *)
| Rejected (reason : string)      (* failure reported by a collaborator *)
| ThrownNull.                     (* [throw null] *)

(** [err.message]; [None] when [err] is [null], of which no property can be
    read. *)
Definition message_of (e : Exn) : option string :=
  match e with
  | JsError m | JsTypeError m | Rejected m => Some m
  | ThrownNull => None
  end.

Inductive Result (A : Type) : Type :=
| Ok (a : A)
| Throw (e : Exn).
Arguments Ok {A} a.
Arguments Throw {A} e.

Definition M (S A : Type) : Type := S -> Result A * S.

Definition ret {S A} (a : A) : M S A := fun s => (Ok a, s).
Definition throw {S A} (e : Exn) : M S A := fun s => (Throw e, s).
Definition bind {S A B} (m : M S A) (k : A -> M S B) : M S B :=
  fun s => match m s with
           | (Ok a, s') => k a s'
           | (Throw e, s') => (Throw e, s')
           end.
Definition get {S} : M S S := fun s => (Ok s, s).
Definition modify {S} (f : S -> S) : M S unit := fun s => (Ok tt, f s).
(** [try { m } catch (err) { h err }] *)
Definition try_catch {S A} (m : M S A) (h : Exn -> M S A) : M S A :=
  fun s => match m s with
           | (Ok a, s') => (Ok a, s')
           | (Throw e, s') => h e s'
           end.

Declare Scope js_scope.
Delimit Scope js_scope with js.
Notation "'let*' x := m 'in' k" := (bind m (fun x => k))
  (at level 10, x name, m at level 100, k at level 200) : js_scope.
Notation "m ;;; k" := (bind m (fun _ => k))
  (at level 100, k at level 200, right associativity) : js_scope.
Local Open Scope js_scope.

(** ** Retrying fetch client ([Plugin.getOptions().fetch]) *)

Module Fetch.

(** The argument of a timer: a JavaScript number that holds a whole number
    of milliseconds, or [Infinity]. *)
Inductive Delay : Type :=
| Millis (ms : Z)
| Infinity.

(** [Math.pow(2, count) * 1000], for a whole [count >= 0], in the double
    arithmetic of the language: up to [count = 1014] the product
    [125 * 2 ^ (count + 3)] is a double and the result is exact; from 1015
    on it is beyond the largest double and the result is [Infinity]. *)
Definition backoff (count : Z) : Delay :=
  if count <=? 1014 then Millis (2 ^ count * 1000) else Infinity.

Inductive Event : Type :=
| Request (uri : string)   (* one call of the transport *)
| Sleep (ms : Delay).      (* [sleep(ms)]: a timer is asked for [ms] milliseconds *)

(** What the fetch closure can observe and change outside its locals:
    how many transport calls the process made so far, and the trace. *)
Record Net : Type := { sent : nat; trace : list Event }.

Section WithTransport.
Context {Init Response : Type}.

(** [nodeFetch(uri, options)] is not bound in the file; it is the
    transport, taken as a parameter: the outcome of the [n]-th call
    (counted from 0) the process makes. [inl] is a rejection. *)
Variable nodeFetch : nat -> string -> Init -> Exn + Response.

(** The three [let] locals of the closure. *)
Record Locals : Type :=
  { count : Z; response : option Response; error : option Exn }.

(** [function request() { return nodeFetch(uri, options); }] *)
Definition request (uri : string) (options : Init) : M Net Response :=
  fun w =>
    (match nodeFetch (sent w) uri options with
     | inr r => Ok r
     | inl e => Throw e
     end,
     {| sent := S (sent w); trace := trace w ++ [Request uri] |}).

(** [function sleep(ms)] *)
Definition sleep (ms : Delay) : M Net unit :=
  modify (fun w => {| sent := sent w; trace := trace w ++ [Sleep ms] |}).

(** One pass through the body of the [while]; [l] already holds the
    incremented [count]. *)
Definition attempt (uri : string) (options : Init) (l : Locals)
  : Net -> Locals * Net :=
  fun w =>
    let '(r, w1) := request uri options w in
    let l2 :=
      match r with
      | Ok resp => {| count := count l; response := Some resp; error := error l |}
      | Throw err => {| count := count l; response := response l; error := Some err |}
      end in
    if 0 <? count l2
    then (l2, snd (sleep (backoff (count l2)) w1))
    else (l2, w1).

(** [while (response === null && count++ < this.retries) { ... }] *)
Fixpoint fetch_loop (fuel : nat) (retries : Z) (uri : string) (options : Init)
    (l : Locals) (w : Net) : option (Locals * Net) :=
  match fuel with
  | O => None
  | S fuel' =>
      match response l with
      | Some _ => Some (l, w)
      | None =>
          let l1 := {| count := count l + 1; response := response l; error := error l |} in
          if count l <? retries
          then let '(l2, w2) := attempt uri options l1 w in
               fetch_loop fuel' retries uri options l2 w2
          else Some (l1, w)
      end
  end.

(** [fetch: async (uri, options) => { ... }] with [this.retries = retries]. *)
Definition fetch (fuel : nat) (retries : Z) (uri : string) (options : Init)
    (w : Net) : option (Result Response * Net) :=
  match fetch_loop fuel retries uri options
          {| count := 0; response := None; error := None |} w with
  | None => None
  | Some (l, w') =>
      Some (match response l with
            | None => Throw (match error l with
                             | Some e => e
                             | None => ThrownNull
                             end)
            | Some r => Ok r
            end, w')
  end.

(** The trace of [n] attempts made when [count] was [c] before the first
    of them: each transport call is followed by its timer. *)
Fixpoint rounds (uri : string) (c : Z) (n : nat) : list Event :=
  match n with
  | O => []
  | S n' => Request uri :: Sleep (backoff (c + 1)) :: rounds uri (c + 1) n'
  end.

End WithTransport.

(** Three transports to run [fetch] on: one that answers at once, one that
    drops the first two calls, one that drops every call. *)
Definition answering : nat -> string -> unit -> Exn + string :=
  fun _ _ _ => inr "200 OK".
Definition flaky : nat -> string -> unit -> Exn + string :=
  fun n _ _ => if (n <? 2)%nat then inl (Rejected "ECONNRESET") else inr "200 OK".
Definition down : nat -> string -> unit -> Exn + string :=
  fun _ _ _ => inl (Rejected "ECONNRESET").

(** The [error] local after [n] failed attempts whose errors are [errs]. *)
Definition last_error (e0 : option Exn) (errs : nat -> Exn) (n : nat) : option Exn :=
  match n with
  | O => e0
  | S m => Some (errs m)
  end.

(** The outside world after [n] rounds of one call to [fetch]. *)
Definition after_rounds (uri : string) (w : Net) (n : nat) : Net :=
  {| sent := (sent w + n)%nat; trace := trace w ++ rounds uri 0 n |}.

End Fetch.


(** ** The platform's [URL] class, as far as [setOptions] uses it

    The class is not part of the repository.  The program sees it through
    [Platform]; what the URL Standard prescribes for it is written down
    only for plain URLs ([plain]), on which the Standard normalises
    nothing: [parse], [set_pathname] and [toString] are that reading, and
    [conforming] says that a platform follows it there. *)

Module Url.

(** The three operations of the class that [setOptions] uses.  A URL
    object is given by its serialisation, which is what [toString()]
    returns. *)
Record Platform : Type :=
  { (** [new URL(s)]; [None] is the [TypeError] of the constructor *)
    new_URL : string -> option string;
    (** [url.pathname] *)
    URL_pathname : string -> string;
    (** [url.pathname = p]: the URL afterwards *)
    URL_set_pathname : string -> string -> string }.

(** [s.endsWith('/')] *)
Fixpoint endsWith_slash (s : string) : bool :=
  match s with
  | EmptyString => false
  | String a EmptyString => Ascii.eqb a "/"
  | String _ s' => endsWith_slash s'
  end.

(** [s.slice(0, -1)] *)
Fixpoint slice_0_m1 (s : string) : string :=
  match s with
  | EmptyString => EmptyString
  | String _ EmptyString => EmptyString
  | String a s' => String a (slice_0_m1 s')
  end.

(** Split [s] before its first character satisfying [p]. *)
Fixpoint break (p : ascii -> bool) (s : string) : string * string :=
  match s with
  | EmptyString => (EmptyString, EmptyString)
  | String a s' =>
      if p a then (EmptyString, s)
      else let '(x, y) := break p s' in (String a x, y)
  end.

(** [s] without its prefix [p], when it starts with [p]. *)
Fixpoint strip_prefix (p s : string) : option string :=
  match p, s with
  | EmptyString, _ => Some s
  | String a p', String b s' => if Ascii.eqb a b then strip_prefix p' s' else None
  | String _ _, EmptyString => None
  end.

Fixpoint forallb_string (p : ascii -> bool) (s : string) : bool :=
  match s with
  | EmptyString => true
  | String a s' => p a && forallb_string p s'
  end.

Definition is_colon (a : ascii) : bool := Ascii.eqb a ":".
Definition ends_authority (a : ascii) : bool :=
  Ascii.eqb a "/" || Ascii.eqb a "?" || Ascii.eqb a "#".
Definition ends_path (a : ascii) : bool := Ascii.eqb a "?" || Ascii.eqb a "#".

Definition is_lower (a : ascii) : bool :=
  (97 <=? nat_of_ascii a)%nat && (nat_of_ascii a <=? 122)%nat.
Definition is_digit (a : ascii) : bool :=
  (48 <=? nat_of_ascii a)%nat && (nat_of_ascii a <=? 57)%nat.
Definition scheme_char (a : ascii) : bool :=
  is_lower a || is_digit a || Ascii.eqb a "+" || Ascii.eqb a "-" || Ascii.eqb a ".".

Definition valid_scheme (s : string) : bool :=
  match s with
  | EmptyString => false
  | String a s' => is_lower a && forallb_string scheme_char s'
  end.

(** *** The URL Standard on plain URLs *)

(** A URL record: [scheme "://" authority pathname rest], where [rest] is
    the query and fragment as written (empty, or starting with [?] or [#]). *)
Record t : Type :=
  { scheme : string; authority : string; pathname : string; rest : string }.

(** The schemes for which the platform never leaves the path empty. *)
Definition is_special (sch : string) : bool :=
  bool_decide (sch ∈ ["http"; "https"; "ws"; "wss"; "ftp"; "file"]).

(** What the platform stores when a path [p] is given to a URL of scheme
    [sch]: an empty path of a special scheme is [/], and a relative path is
    made absolute. *)
Definition stored_path (sch p : string) : string :=
  match p with
  | EmptyString => if is_special sch then "/" else EmptyString
  | String a _ => if Ascii.eqb a "/" then p else String "/" p
  end.

(** The components of a string of the form [scheme "://" authority path
    rest], read off as they are written, with the path stored as the
    Standard stores it.  On a plain URL ([plain]) this is what the Standard
    prescribes for [new URL(s)]; on other strings it is not: the Standard
    may reject them, or normalise their components. *)
Definition parse (s : string) : option t :=
  let '(sch, after) := break is_colon s in
  if valid_scheme sch then
    match strip_prefix "://" after with
    | Some body =>
        let '(auth, tail) := break ends_authority body in
        match auth with
        | EmptyString => None
        | _ =>
            let '(path, rest) := break ends_path tail in
            Some {| scheme := sch; authority := auth;
                    pathname := stored_path sch path; rest := rest |}
        end
    | None => None
    end
  else None.

(** What the Standard prescribes for [url.pathname = p] on a plain URL and
    a plain path [p] ([plain_path]). *)
Definition set_pathname (u : t) (p : string) : t :=
  {| scheme := scheme u; authority := authority u;
     pathname := stored_path (scheme u) p; rest := rest u |}.

(** The serialisation of a URL record. *)
Definition toString (u : t) : string :=
  scheme u +:+ "://" +:+ authority u +:+ pathname u +:+ rest u.

(** Vocabulary for the properties of the endpoint URLs. *)

(** [s] is empty or starts with a character satisfying [p]. *)
Definition starts_with_or_empty (p : ascii -> bool) (s : string) : bool :=
  match s with
  | EmptyString => true
  | String a _ => p a
  end.

Definition is_slash (a : ascii) : bool := Ascii.eqb a "/".

(** No character of [s] satisfies [p]. *)
Definition free_of (p : ascii -> bool) (s : string) : bool :=
  forallb_string (fun a => negb (p a)) s.

(** [p.endsWith('/') ? p.slice(0, -1) : p] *)
Definition without_slash (p : string) : string :=
  if endsWith_slash p then slice_0_m1 p else p.

(** The path of [u] without one trailing slash: [basePath] in [setOptions]. *)
Definition base_path (u : t) : string := without_slash (pathname u).

(** The three URLs [setOptions] derives from a plain root URL. *)
Definition derived (u : t) : string * string * string :=
  (scheme u +:+ "://" +:+ authority u +:+ stored_path (scheme u) (base_path u) +:+ rest u,
   scheme u +:+ "://" +:+ authority u +:+ base_path u +:+ "/graphql" +:+ rest u,
   scheme u +:+ "://" +:+ authority u +:+ base_path u +:+ "/graphql/system" +:+ rest u).

(** *** Plain URLs

    A plain URL is a string [scheme "://" host path] or [scheme "://" host
    ":" port path] with
    - the scheme [http] or [https];
    - the host made of labels separated by dots, each label made of lower-case
      letters, digits and hyphens, not starting with a hyphen and without
      two hyphens in a row, the last label starting with a letter;
    - the port, when there is one, a decimal number without a leading zero,
      at most 65535 and not the default port of the scheme;
    - the path empty, or starting with a slash and made of letters, digits,
      [-], [_], [~] and [/];
    - no query and no fragment.
    The URL Standard keeps every component of such a string as it is
    written, but for the empty path, which it stores as [/]. *)

Definition is_upper (a : ascii) : bool :=
  (65 <=? nat_of_ascii a)%nat && (nat_of_ascii a <=? 90)%nat.
Definition host_char (a : ascii) : bool :=
  is_lower a || is_digit a || Ascii.eqb a "-".
Definition path_char (a : ascii) : bool :=
  is_lower a || is_upper a || is_digit a
  || Ascii.eqb a "/" || Ascii.eqb a "-" || Ascii.eqb a "_" || Ascii.eqb a "~".

(** The labels of a host: its parts between the dots. *)
Fixpoint labels (h : string) : list string :=
  match h with
  | EmptyString => [EmptyString]
  | String a h' =>
      if Ascii.eqb a "." then EmptyString :: labels h'
      else match labels h' with
           | l :: ls => String a l :: ls
           | [] => [String a EmptyString]
           end
  end.

Fixpoint no_double_hyphen (s : string) : bool :=
  match s with
  | String a (String b _ as s') =>
      negb (Ascii.eqb a "-" && Ascii.eqb b "-") && no_double_hyphen s'
  | _ => true
  end.

Definition plain_label (l : string) : bool :=
  forallb_string host_char l && no_double_hyphen l
  && match l with
     | EmptyString => false
     | String a _ => negb (Ascii.eqb a "-")
     end.

Definition starts_with_letter (l : string) : bool :=
  match l with
  | EmptyString => false
  | String a _ => is_lower a
  end.

Definition plain_host (h : string) : bool :=
  forallb plain_label (labels h)
  && starts_with_letter (List.last (labels h) EmptyString).

(** The number a string of digits writes. *)
Fixpoint decimal (acc : N) (s : string) : N :=
  match s with
  | EmptyString => acc
  | String a s' => decimal (acc * 10 + (N_of_ascii a - 48)) s'
  end.

Definition default_port (sch : string) : N :=
  if String.eqb sch "http" then 80%N else 443%N.

Definition plain_port (sch p : string) : bool :=
  forallb_string is_digit p
  && match p with
     | EmptyString => false
     | String a _ => negb (Ascii.eqb a "0")
     end
  && (String.length p <=? 5)%nat
  && (decimal 0 p <=? 65535)%N
  && negb (decimal 0 p =? default_port sch)%N.

Definition plain_authority (sch a : string) : bool :=
  let '(h, after) := break is_colon a in
  plain_host h
  && match after with
     | EmptyString => true
     | String _ p => plain_port sch p
     end.

(** A path the program assigns: empty, or absolute. *)
Definition plain_path (p : string) : bool :=
  forallb_string path_char p && starts_with_or_empty is_slash p.

Definition is_http (sch : string) : bool :=
  String.eqb sch "http" || String.eqb sch "https".

Definition plain_url (u : t) : bool :=
  is_http (scheme u) && plain_authority (scheme u) (authority u)
  && plain_path (pathname u) && negb (String.eqb (pathname u) EmptyString)
  && String.eqb (rest u) EmptyString.

Definition plain (s : string) : bool :=
  match parse s with
  | Some u => plain_url u
  | None => false
  end.

(** *** Platforms *)

(** The platform follows the URL Standard on plain URLs. *)
Record conforming (P : Platform) : Prop :=
  { conforming_new : forall s u,
      plain s = true -> parse s = Some u -> new_URL P s = Some (toString u);
    conforming_pathname : forall u,
      plain_url u = true -> URL_pathname P (toString u) = pathname u;
    conforming_set_pathname : forall u p,
      plain_url u = true -> plain_path p = true ->
      URL_set_pathname P (toString u) p = toString (set_pathname u p) }.

(** A platform to run the program on: the reading above, on every string
    of the form it reads. *)
Definition standard : Platform :=
  {| new_URL := fun s => toString <$> parse s;
     URL_pathname := fun h =>
       match parse h with
       | Some u => pathname u
       | None => EmptyString
       end;
     URL_set_pathname := fun h p =>
       match parse h with
       | Some u => toString (set_pathname u p)
       | None => h
       end |}.

(** The three URLs [setOptions] computes from the URL object [h]: lines
    175 to 185. *)
Definition resolved (P : Platform) (h : string) : string * string * string :=
  let basePath := without_slash (URL_pathname P h) in
  let h1 := URL_set_pathname P h basePath in
  let h2 := URL_set_pathname P h1 (basePath +:+ "/graphql") in
  let h3 := URL_set_pathname P h2 (basePath +:+ "/graphql/system") in
  (h1, h2, h3).

End Url.


(** ** Download filenames ([sourceNodes], the three lines before the download) *)

Module Filename.

(** [s.split(sep)] for a one-character separator: never an empty array. *)
Fixpoint split (sep : ascii) (s : string) : list string :=
  match s with
  | EmptyString => [EmptyString]
  | String a s' =>
      if Ascii.eqb a sep then EmptyString :: split sep s'
      else match split sep s' with
           | part :: parts => String a part :: parts
           | [] => [String a EmptyString]
           end
  end.

(** [parts.join(sep)] *)
Fixpoint join (sep : string) (parts : list string) : string :=
  match parts with
  | [] => EmptyString
  | [part] => part
  | part :: parts' => part +:+ sep +:+ join sep parts'
  end.

(** [nameParts.pop()]: the removed last element and the shortened array. *)
Definition pop (parts : list string) : string * list string :=
  (List.last parts EmptyString, removelast parts).

(** Whether [s] contains [c]: [s.includes(c)]. *)
Fixpoint includes (c : ascii) (s : string) : bool :=
  match s with
  | EmptyString => false
  | String a s' => Ascii.eqb a c || includes c s'
  end.

(** [const nameParts = filename.split('.');
     const ext = nameParts.length > 1 ? `.${nameParts.pop()}` : '';
     const name = nameParts.join('.');]  Returns [(name, ext)]. *)
Definition name_and_ext (filename_download : string) : string * string :=
  let nameParts := split "." filename_download in
  let '(ext, nameParts) :=
    if (1 <? length nameParts)%nat
    then let '(last, rest) := pop nameParts in ("." +:+ last, rest)
    else (EmptyString, nameParts) in
  let name := join "." nameParts in
  (name, ext).

End Filename.


(** ** The plugin instance, the Directus SDK and the Gatsby host *)

Module Source.

Definition tag : string := "gatsby-source-directus".
(** A double quote and a line feed, for the messages that contain one. *)
Definition dq : string := String "034" EmptyString.
Definition nl : string := String "010" EmptyString.

(** *** Option values

    Where the program inspects the dynamic type of an option ([isEmpty],
    [typeof], [||], [Number.isNaN]) the option is a [Value]; elsewhere it has
    the type the options schema gives it. *)

Inductive Num : Type := NaN | Fin (q : Q).

Inductive Value : Type :=
| VUndefined
| VNull
| VBool (b : bool)
| VNum (n : Num)
| VStr (s : string).

Definition truthy (v : Value) : bool :=
  match v with
  | VUndefined | VNull => false
  | VBool b => b
  | VNum NaN => false
  | VNum (Fin q) => negb (Qeq_bool q 0)
  | VStr s => negb (String.eqb s EmptyString)
  end.

(** [function isEmpty(value)] *)
Definition isEmpty (value : Value) : bool :=
  match value with
  | VStr s => (String.length s =? 0)%nat
  | _ => true
  end.

(** [a || b] on strings that may be absent *)
Definition or_else (a : option string) (b : string) : string :=
  match a with
  | Some s => if String.eqb s EmptyString then b else s
  | None => b
  end.

Record Auth : Type := { token : Value; email : Value; password : Value }.
Record Dev : Type := { refresh : Value }.
Record TypeNames : Type :=
  { name : option string; field : option string;
    system_name : option string; system_field : option string }.

(** [options.headers], by its [typeof]. *)
Inductive HeaderSource : Type :=
| NoHeaders                                          (* neither of the two below *)
| HeadersObject (h : option (gmap string string))    (* ['object']; [None] is [null] *)
| HeadersFunction (f : unit -> Result (option (gmap string string))). (* ['function'] *)

(** The plugin options the program reads.  The remaining keys ([graphql]
    and unknown ones) are only copied into the bundles for the delegate. *)
Record Options : Type :=
  { opt_url : Value;
    opt_dev : option Dev;
    opt_auth : option Auth;
    opt_type : option TypeNames;
    opt_concurrency : Z;
    opt_retries : Z;
    opt_headers : HeaderSource }.

(** *** The SDK client and the plugin instance *)

(** [new Directus(url)]: the base URL and the token the client holds. *)
Record Directus : Type := { base : string; auth_token : option string }.

(** What [auth.static] and [auth.login] resolve to. *)
Inductive AuthResult : Type :=
| NoAuthResult                       (* [null], the constructor's value *)
| StaticAccepted                     (* [auth.static] resolved *)
| LoggedIn (access_token : string).  (* [auth.login] resolved *)

(** [class Plugin]; [fileCache] is never read or written after the
    constructor and is left out. *)
Record Plugin : Type :=
  { directus : option Directus;
    options : option Options;
    urlGraphqlSystem : string;
    urlGraphql : string;
    url : string;
    refreshInterval : Value;
    authPromise : AuthResult;
    concurrency : Z;
    retries : Z }.

(** [constructor()] *)
Definition new_Plugin : Plugin :=
  {| directus := None; options := None;
     urlGraphqlSystem := EmptyString; urlGraphql := EmptyString; url := EmptyString;
     refreshInterval := VNum (Fin 0); authPromise := NoAuthResult;
     concurrency := 10; retries := 5 |}.

(** Assignments to the fields of the instance: [this.f = v]. *)
Definition set_directus (v : option Directus) (p : Plugin) : Plugin :=
  {| directus := v; options := options p; urlGraphqlSystem := urlGraphqlSystem p; urlGraphql := urlGraphql p; url := url p; refreshInterval := refreshInterval p; authPromise := authPromise p; concurrency := concurrency p; retries := retries p |}.
Definition set_options (v : option Options) (p : Plugin) : Plugin :=
  {| directus := directus p; options := v; urlGraphqlSystem := urlGraphqlSystem p; urlGraphql := urlGraphql p; url := url p; refreshInterval := refreshInterval p; authPromise := authPromise p; concurrency := concurrency p; retries := retries p |}.
Definition set_urlGraphqlSystem (v : string) (p : Plugin) : Plugin :=
  {| directus := directus p; options := options p; urlGraphqlSystem := v; urlGraphql := urlGraphql p; url := url p; refreshInterval := refreshInterval p; authPromise := authPromise p; concurrency := concurrency p; retries := retries p |}.
Definition set_urlGraphql (v : string) (p : Plugin) : Plugin :=
  {| directus := directus p; options := options p; urlGraphqlSystem := urlGraphqlSystem p; urlGraphql := v; url := url p; refreshInterval := refreshInterval p; authPromise := authPromise p; concurrency := concurrency p; retries := retries p |}.
Definition set_url (v : string) (p : Plugin) : Plugin :=
  {| directus := directus p; options := options p; urlGraphqlSystem := urlGraphqlSystem p; urlGraphql := urlGraphql p; url := v; refreshInterval := refreshInterval p; authPromise := authPromise p; concurrency := concurrency p; retries := retries p |}.
Definition set_refreshInterval (v : Value) (p : Plugin) : Plugin :=
  {| directus := directus p; options := options p; urlGraphqlSystem := urlGraphqlSystem p; urlGraphql := urlGraphql p; url := url p; refreshInterval := v; authPromise := authPromise p; concurrency := concurrency p; retries := retries p |}.
Definition set_authPromise (v : AuthResult) (p : Plugin) : Plugin :=
  {| directus := directus p; options := options p; urlGraphqlSystem := urlGraphqlSystem p; urlGraphql := urlGraphql p; url := url p; refreshInterval := refreshInterval p; authPromise := v; concurrency := concurrency p; retries := retries p |}.
Definition set_concurrency (v : Z) (p : Plugin) : Plugin :=
  {| directus := directus p; options := options p; urlGraphqlSystem := urlGraphqlSystem p; urlGraphql := urlGraphql p; url := url p; refreshInterval := refreshInterval p; authPromise := authPromise p; concurrency := v; retries := retries p |}.
Definition set_retries (v : Z) (p : Plugin) : Plugin :=
  {| directus := directus p; options := options p; urlGraphqlSystem := urlGraphqlSystem p; urlGraphql := urlGraphql p; url := url p; refreshInterval := refreshInterval p; authPromise := authPromise p; concurrency := concurrency p; retries := v |}.

(** *** Remote file records, host nodes, effects *)

Record FileRecord : Type :=
  { file_id : string; file_type : string; filename_download : string }.

Record Node : Type :=
  { node_id : string; internal_type : string; node_typeName : option string }.

(** The arguments of [createRemoteFileNode] that come from the file ([store],
    [cache], [createNode], [createNodeId] and [reporter] are the host's own
    handles, passed through). *)
Record RemoteFile : Type :=
  { rf_url : string; parentNodeId : string;
    httpHeaders_Authorization : option string;
    rf_ext : string; rf_name : string }.

Inductive Event : Type :=
| Console (color message : string)       (* [Log.log] *)
| SdkStatic (tok : string)               (* [directus.auth.static] *)
| SdkLogin (mail pass : string)          (* [directus.auth.login]: the login exchange *)
| SdkReadFiles (limit page : Z)          (* [directus.files.readByQuery] *)
| HostTouch (n : Node)                   (* [touchNode] *)
| HostDownload (f : RemoteFile)          (* [createRemoteFileNode] *)
| HostCreateNode (n : Node)              (* [createNode] *)
| HostCacheSet (key nodeId : string).    (* [cache.set] *)

(** The process: the single plugin instance, the host's cache and node
    store, and the trace of effects. *)
Record World : Type :=
  { plugin : Plugin;
    cache : gmap string string;
    nodes : gmap string Node;
    trace : list Event }.

Definition with_plugin (f : Plugin -> Plugin) (w : World) : World :=
  {| plugin := f (plugin w); cache := cache w; nodes := nodes w; trace := trace w |}.
Definition with_cache (f : gmap string string -> gmap string string) (w : World) : World :=
  {| plugin := plugin w; cache := f (cache w); nodes := nodes w; trace := trace w |}.
Definition with_nodes (f : gmap string Node -> gmap string Node) (w : World) : World :=
  {| plugin := plugin w; cache := cache w; nodes := f (nodes w); trace := trace w |}.
Definition with_trace (f : list Event -> list Event) (w : World) : World :=
  {| plugin := plugin w; cache := cache w; nodes := nodes w; trace := f (trace w) |}.

Definition gets {A} (f : World -> A) : M World A := fun w => (Ok (f w), w).
Definition emit (e : Event) : M World unit := modify (with_trace (fun t => t ++ [e])).
Definition update (f : Plugin -> Plugin) : M World unit := modify (with_plugin f).
Definition when {S} (b : bool) (m : M S unit) : M S unit := if b then m else ret tt.
(** A call whose outcome does not depend on the process. *)
Definition call {S A} (r : Result A) : M S A := fun s => (r, s).

(** The option bundle handed to the delegate, without the copied keys and
    without its two closures, which are [headers] (bound to the plugin) and
    the retrying [fetch]. *)
Record Bundle : Type := { bundle_url : string; typeName : string; fieldName : string }.

(** Collaborators outside the repository, as the program sees them. *)
Record Env : Type :=
  { (** the platform's [URL] class *)
    platform : Url.Platform;
    (** the [ms] package on a string: milliseconds, or [undefined] when it
        does not understand the string; it throws on the empty string *)
    ms : string -> Result (option Z);
    (** the remote API's answer to [auth.static(token)] of a client on [base] *)
    remote_static : string -> string -> Result unit;
    (** the remote API's answer to [auth.login({email, password})]: the access token *)
    remote_login : string -> string -> string -> Result string;
    (** the remote API's answer to the file listing with [limit] and [page];
        [None] is a reply without [data] *)
    remote_files : Z -> Z -> Result (option (list FileRecord));
    (** the outcome of the host's download of a remote file *)
    remote_download : RemoteFile -> Result Node;
    (** [sourceNodes] of gatsby-source-graphql, given the [createNode] action *)
    graphql_sourceNodes : (Node -> M World unit) -> Bundle -> M World unit;
    (** [createSchemaCustomization] of gatsby-source-graphql *)
    graphql_createSchemaCustomization : Bundle -> M World unit }.


Section Operations.
Context (env : Env).

(** *** Logging and errors *)

(** [Log.log(level, message)] *)
Definition Log_log (level message : string) : M World unit :=
  let color :=
    if String.eqb level "error" then "red"
    else if String.eqb level "warning" then "yellow" else "white" in
  emit (Console color message).
(** [Log.error(message)] *)
Definition Log_error (message : string) : M World unit := Log_log "error" message.
(** [Log.warning(message)], which logs at level ['error'] as well *)
Definition Log_warning (message : string) : M World unit := Log_log "error" message.

(** [function error(message)] *)
Definition error {A} (message : string) : M World A :=
  Log_error message ;;; throw (JsError (tag +:+ ": " +:+ message)).

(** [function warning(message)] *)
Definition warning (message : string) : M World unit := Log_warning message.

(** *** SDK calls *)

(** [this.directus.auth.static(token)] *)
Definition auth_static (tok : string) : M World AuthResult :=
  let* p := gets plugin in
  match directus p with
  | None => throw (JsTypeError "Cannot read properties of null")
  | Some d =>
      emit (SdkStatic tok) ;;;
      call (remote_static env (base d) tok) ;;;
      update (set_directus (Some {| base := base d; auth_token := Some tok |})) ;;;
      ret StaticAccepted
  end.

(** [this.directus.auth.login({ email, password })]: the client forgets the
    token it holds before it asks for a new one. *)
Definition auth_login (mail pass : string) : M World AuthResult :=
  let* p := gets plugin in
  match directus p with
  | None => throw (JsTypeError "Cannot read properties of null")
  | Some d =>
      emit (SdkLogin mail pass) ;;;
      update (set_directus (Some {| base := base d; auth_token := None |})) ;;;
      let* access := call (remote_login env (base d) mail pass) in
      update (set_directus (Some {| base := base d; auth_token := Some access |})) ;;;
      ret (LoggedIn access)
  end.

(** *** [Plugin.setOptions] *)

(** [auth?.token], [auth?.email], [auth?.password] *)
Definition auth_field (f : Auth -> Value) (auth : option Auth) : Value :=
  match auth with
  | Some a => f a
  | None => VUndefined
  end.

(** The string in a value that [isEmpty] let through. *)
Definition str (v : Value) : string :=
  match v with
  | VStr s => s
  | _ => EmptyString
  end.

(** The first [try] of [setOptions]: the three endpoint URLs.  [baseUrl] is
    the URL object; [baseUrl.toString()] is its serialisation. *)
Definition resolve_endpoints (url_ : string) : M World unit :=
  try_catch
    (match Url.new_URL (platform env) url_ with
     | None => throw (JsTypeError "Invalid URL")
     | Some baseUrl =>
         let pathname := Url.URL_pathname (platform env) baseUrl in
         let basePath :=
           if Url.endsWith_slash pathname then Url.slice_0_m1 pathname else pathname in
         let baseUrl := Url.URL_set_pathname (platform env) baseUrl basePath in
         update (set_url baseUrl) ;;;
         let baseUrl :=
           Url.URL_set_pathname (platform env) baseUrl (basePath +:+ "/graphql") in
         update (set_urlGraphql baseUrl) ;;;
         let baseUrl :=
           Url.URL_set_pathname (platform env) baseUrl (basePath +:+ "/graphql/system") in
         update (set_urlGraphqlSystem baseUrl)
     end)
    (fun _ => error (dq +:+ "url" +:+ dq +:+ " should be a valid URL")).

(** The second [try] of [setOptions]: the client and its credential.  The
    handler reads [err.message], which throws when the rejection is
    [null]. *)
Definition authenticate (auth : option Auth) (hasToken hasCredentials : bool) : M World unit :=
  try_catch
    (update (fun p => set_directus (Some {| base := url p; auth_token := None |}) p) ;;;
     when hasToken
       (let* r := auth_static (str (auth_field token auth)) in
        update (set_authPromise r)) ;;;
     when hasCredentials
       (let* r := auth_login (str (auth_field email auth)) (str (auth_field password auth)) in
        update (set_authPromise r)))
    (fun err =>
       match message_of err with
       | Some message =>
           error ("authentication failed with: " +:+ message +:+ nl
                  +:+ "Are credentials valid?")
       | None => throw (JsTypeError "Cannot read properties of null (reading 'message')")
       end).

(** [typeof dev?.refresh === 'string' ? ms(dev.refresh) / 1000 : dev?.refresh || 15] *)
Definition refresh_seconds (dev : option Dev) : M World Value :=
  let r := match dev with Some d => refresh d | None => VUndefined end in
  match r with
  | VStr s =>
      let* millis := call (ms env s) in
      ret (match millis with
           | Some m => VNum (Fin (m # 1000))
           | None => VNum NaN
           end)
  | _ => ret (if truthy r then r else VNum (Fin 15))
  end.

(** [Number.isNaN(v)] *)
Definition Number_isNaN (v : Value) : bool :=
  match v with
  | VNum NaN => true
  | _ => false
  end.

(** [async setOptions(options)] *)
Definition setOptions (options_ : Options) : M World AuthResult :=
  let url_ := opt_url options_ in
  let dev := opt_dev options_ in
  let auth := opt_auth options_ in
  (if isEmpty url_ then error (dq +:+ "url" +:+ dq +:+ " must be defined") else ret tt) ;;;
  let* p := gets plugin in
  match directus p with
  | Some _ => ret (authPromise p)
  | None =>
      let hasAuth := match auth with Some _ => true | None => false end in
      let hasToken := negb (isEmpty (auth_field token auth)) in
      let hasEmail := negb (isEmpty (auth_field email auth)) in
      let hasPassword := negb (isEmpty (auth_field password auth)) in
      let hasCredentials := hasEmail && hasPassword in
      (if hasAuth
       then if negb hasToken && negb hasCredentials
            then error (dq +:+ "auth.token" +:+ dq +:+ " or (" +:+ dq +:+ "auth.email" +:+ dq
                        +:+ " and " +:+ dq +:+ "auth.password" +:+ dq +:+ ") must be defined")
            else ret tt
       else warning ("no " +:+ dq +:+ "auth" +:+ dq
                     +:+ " option were defined. Resources will be fetched with public role")) ;;;
      resolve_endpoints (str url_) ;;;
      authenticate auth hasToken hasCredentials ;;;
      let* seconds := refresh_seconds dev in
      update (set_refreshInterval seconds) ;;;
      (if Number_isNaN seconds
       then error (dq +:+ "dev.refresh" +:+ dq
                   +:+ " should be a number in seconds or a string with ms format, i.e. 5s, 5m, 5h, ...")
       else ret tt) ;;;
      update (set_options (Some options_)) ;;;
      update (set_concurrency (opt_concurrency options_)) ;;;
      update (set_retries (opt_retries options_)) ;;;
      gets (fun w => authPromise (plugin w))
  end.

(** *** [Plugin.headers], [Plugin.getOptions], [Plugin.getOptionsSystem] *)

(** [Object.assign(target, source)] on string maps *)
Definition Object_assign (target source : gmap string string) : gmap string string :=
  source ∪ target.

(** [o || {}] *)
Definition or_empty (o : option (gmap string string)) : gmap string string :=
  match o with
  | Some h => h
  | None => ∅
  end.

(** [async headers()] *)
Definition headers : M World (gmap string string) :=
  let* p := gets plugin in
  match directus p with
  | None => throw (JsError "Directus is not instantiated")
  | Some d =>
      let headers_ : gmap string string := ∅ in
      let* headers_ :=
        match match options p with Some o => opt_headers o | None => NoHeaders end with
        | HeadersObject h => ret (Object_assign headers_ (or_empty h))
        | HeadersFunction f => let* h := call (f tt) in
                               ret (Object_assign headers_ (or_empty h))
        | NoHeaders => ret headers_
        end in
      match auth_token d with
      | Some tok =>
          if String.eqb tok EmptyString then ret headers_
          else ret (Object_assign headers_ {[ "Authorization" := "Bearer " +:+ tok ]})
      | None => ret headers_
      end
  end.

(** [getOptions()]: [Object.entries(this.options)] throws on [null]. *)
Definition getOptions : M World Bundle :=
  let* p := gets plugin in
  match options p with
  | None => throw (JsTypeError "Cannot convert undefined or null to object")
  | Some o =>
      ret {| bundle_url := urlGraphql p;
             typeName := or_else (match opt_type o with Some t => name t | None => None end)
                                 "DirectusData";
             fieldName := or_else (match opt_type o with Some t => field t | None => None end)
                                  "directus" |}
  end.

(** [getOptionsSystem()] *)
Definition getOptionsSystem : M World Bundle :=
  let* _ := getOptions in
  let* p := gets plugin in
  let type_ := match options p with Some o => opt_type o | None => None end in
  ret {| bundle_url := urlGraphqlSystem p;
         typeName := or_else (match type_ with Some t => system_name t | None => None end)
                             "DirectusSystemData";
         fieldName := or_else (match type_ with Some t => system_field t | None => None end)
                              "directus_system" |}.

(** *** [Plugin.iterateFiles], as a resumable state machine *)

(** Where the generator is suspended. *)
Inductive Suspended : Type :=
| AtStart                              (* created, body not entered *)
| AtYield (files : list FileRecord)    (* at [yield files] *)
| Returned.                            (* the body has ended *)

Record Generator : Type := { at_ : Suspended; hasMore : bool; page : Z }.

(** [plugin.iterateFiles()] *)
Definition iterateFiles : Generator := {| at_ := AtStart; hasMore := true; page := 1 |}.

(** From the head of [while (hasMore)] to the next [yield] or to the end. *)
Definition to_next_yield (g : Generator) : M World (option (list FileRecord) * Generator) :=
  if hasMore g then
    let* p := gets plugin in
    match directus p with
    | None => throw (JsError "Directus is not instantiated")
    | Some _ =>
        emit (SdkReadFiles (concurrency p) (page g)) ;;;
        let* r := call (remote_files env (concurrency p) (page g)) in
        let files := match r with Some data => data | None => [] end in
        ret (Some files, {| at_ := AtYield files; hasMore := hasMore g; page := page g |})
    end
  else ret (None, {| at_ := Returned; hasMore := hasMore g; page := page g |}).

(** [generator.next()]: the yielded batch, or [None] when done. *)
Definition next (g : Generator) : M World (option (list FileRecord) * Generator) :=
  match at_ g with
  | Returned => ret (None, g)
  | AtStart =>
      let* p := gets plugin in
      match directus p with
      | None => throw (JsError "Directus is not instantiated")
      | Some _ => to_next_yield g
      end
  | AtYield files =>
      let* p := gets plugin in
      if Z.of_nat (length files) <? concurrency p
      then to_next_yield {| at_ := at_ g; hasMore := false; page := page g |}
      else to_next_yield {| at_ := at_ g; hasMore := hasMore g; page := page g + 1 |}
  end.

(** What one pass through the body of a loop asks for. *)
Inductive Step (A : Type) : Type :=
| Continue (a : A)    (* go on with the next batch *)
| Break (a : A).      (* [break] *)
#[global] Arguments Continue {A} a.
#[global] Arguments Break {A} a.

(** [for await (const files of g) { body }], with the variables the body
    assigns as an accumulator. *)
Fixpoint for_await {A} (fuel : nat) (body : list FileRecord -> A -> M World (Step A))
    (g : Generator) (acc : A) (w : World) : option (Result A * World) :=
  match fuel with
  | O => None
  | S fuel' =>
      match next g w with
      | (Throw e, w') => Some (Throw e, w')
      | (Ok (None, _), w') => Some (Ok acc, w')
      | (Ok (Some files, g'), w') =>
          match body files acc w' with
          | (Throw e, w'') => Some (Throw e, w'')
          | (Ok (Break a), w'') => Some (Ok a, w'')
          | (Ok (Continue a), w'') => for_await fuel' body g' a w''
          end
      end
  end.

(** [for await (const files of plugin.iterateFiles()) batches.push(files)]:
    everything the generator yields when it is run to its end. *)
Definition drain (fuel : nat) : World -> option (Result (list (list FileRecord)) * World) :=
  for_await fuel (fun files batches => ret (Continue (batches ++ [files]))) iterateFiles [].

(** *** The host's services *)

(** [cache.get(key)] *)
Definition cache_get (key : string) : M World (option string) :=
  gets (fun w => cache w !! key).
(** [cache.set(key, { nodeId })] *)
Definition cache_set (key nodeId : string) : M World unit :=
  emit (HostCacheSet key nodeId) ;;; modify (with_cache (insert key nodeId)).
(** [getNode(id)] *)
Definition getNode (id_ : string) : M World (option Node) :=
  gets (fun w => nodes w !! id_).
(** [touchNode(node)] *)
Definition touchNode (n : Node) : M World unit := emit (HostTouch n).
(** [createNode(node)] *)
Definition createNode (n : Node) : M World unit :=
  emit (HostCreateNode n) ;;; modify (with_nodes (insert (node_id n) n)).
(** [createRemoteFileNode({...})] of gatsby-source-filesystem: downloads the
    file and, when that succeeds, registers its node with [createNode]. *)
Definition createRemoteFileNode (f : RemoteFile) : M World Node :=
  emit (HostDownload f) ;;;
  let* fileNode := call (remote_download env f) in
  createNode fileNode ;;;
  ret fileNode.

(** *** [exports.sourceNodes] *)

(** The body of [files.map(async (file) => { ... })] *)
Definition sync_file (Authorization : option string) (file : FileRecord) : M World unit :=
  let* cached := cache_get (file_id file) in
  let* node := match cached with
               | Some nodeId => getNode nodeId
               | None => ret None
               end in
  match node with
  | Some n => touchNode n
  | None =>
      let '(name_, ext) := Filename.name_and_ext (filename_download file) in
      let* p := gets plugin in
      let fileUrl := url p +:+ "assets/" +:+ file_id file in
      let* fileNode :=
        createRemoteFileNode
          {| rf_url := fileUrl; parentNodeId := file_id file;
             httpHeaders_Authorization := Authorization;
             rf_ext := ext; rf_name := name_ |} in
      cache_set (file_id file) (node_id fileNode)
  end.

(** [await Promise.all(tasks)].  The program starts every task and lets
    them interleave at their [await]s, in the order in which the host
    settles its promises, and [Promise.all] rejects as soon as one task has
    rejected, while the others go on.  This definition is the run in which
    the host settles the promises of one task before those of the next, in
    array order; the first rejection is the one reported, and the state
    returned with it is the one reached when the other tasks have settled
    as well. *)
Fixpoint Promise_all {A} (tasks : list (M World A)) : M World (list A) :=
  match tasks with
  | [] => ret []
  | task :: tasks' =>
      fun w =>
        match task w with
        | (Ok a, w1) =>
            match Promise_all tasks' w1 with
            | (Ok rest, w2) => (Ok (a :: rest), w2)
            | (Throw e, w2) => (Throw e, w2)
            end
        | (Throw e, w1) => (Throw e, snd (Promise_all tasks' w1))
        end
  end.

(** The body of the loop over the batches. *)
Definition sync_batch (Authorization : option string) (files : list FileRecord) (_ : unit)
  : M World (Step unit) :=
  if (length files =? 0)%nat then ret (Break tt)
  else Promise_all (map (sync_file Authorization) files) ;;; ret (Continue tt).

(** [for await (const files of plugin.iterateFiles()) { ... }] *)
Definition sync_files (fuel : nat) (Authorization : option string)
  : World -> option (Result unit * World) :=
  for_await fuel (sync_batch Authorization) iterateFiles tt.

(** [gatsbyOptions.actions.createNode = (node) => { ... }] *)
Definition createNode_retyped (optionsSystem options_ : Bundle) (n : Node) : M World unit :=
  let n :=
    if String.eqb (internal_type n) "GraphQLSource" then
      let n1 :=
        if bool_decide (node_typeName n = Some (typeName optionsSystem))
        then {| node_id := node_id n; internal_type := "DirectusSystemGraphQLSource";
                node_typeName := node_typeName n |}
        else n in
      if bool_decide (node_typeName n1 = Some (typeName options_))
      then {| node_id := node_id n1; internal_type := "DirectusGraphQLSource";
              node_typeName := node_typeName n1 |}
      else n1
    else n in
  createNode n.

(** [exports.sourceNodes(gatsbyOptions, pluginOptions)], up to the loop
    over the files: the bearer header its downloads will carry. *)
Definition sourceNodes_prelude (pluginOptions : Options) : M World (option string) :=
  let* _ := getOptions in
  let* hs := headers in
  let Authorization := hs !! "Authorization" in
  setOptions pluginOptions ;;;
  let* optionsSystem := getOptionsSystem in
  let* options_ := getOptions in
  graphql_sourceNodes env (createNode_retyped optionsSystem options_) optionsSystem ;;;
  graphql_sourceNodes env (createNode_retyped optionsSystem options_) options_ ;;;
  ret Authorization.

(** [exports.sourceNodes(gatsbyOptions, pluginOptions)] *)
Definition sourceNodes (fuel : nat) (pluginOptions : Options) (w : World)
  : option (Result unit * World) :=
  match sourceNodes_prelude pluginOptions w with
  | (Throw e, w') => Some (Throw e, w')
  | (Ok Authorization, w') => sync_files fuel Authorization w'
  end.

(** [exports.createSchemaCustomization(gatsby, pluginOptions)] *)
Definition createSchemaCustomization (pluginOptions : Options) : M World unit :=
  setOptions pluginOptions ;;;
  let* optionsSystem := getOptionsSystem in
  graphql_createSchemaCustomization env optionsSystem ;;;
  let* options_ := getOptions in
  graphql_createSchemaCustomization env options_.

(** [fileResolver.imageFile.resolve(source)] of [exports.createResolvers] *)
Definition imageFile_resolve (source_id : string) : M World (option Node) :=
  let* cached := cache_get source_id in
  match cached with
  | Some nodeId => getNode nodeId
  | None => throw (JsError ("Cached image not found for id: " +:+ source_id))
  end.

End Operations.

(** *** Vocabulary for the properties *)

(** A process that has just loaded the module: [const plugin = new Plugin()]. *)
Definition initial : World :=
  {| plugin := new_Plugin; cache := ∅; nodes := ∅; trace := [] |}.

(** The three endpoint URLs the instance holds. *)
Definition endpoints (w : World) : string * string * string :=
  (url (plugin w), urlGraphql (plugin w), urlGraphqlSystem (plugin w)).

(** Whether a message starts with the identity tag. *)
Definition tagged (e : Exn) : bool :=
  match message_of e with
  | Some message => String.prefix tag message
  | None => false
  end.

(** The login exchanges, downloads, touches and cache writes in a trace. *)
Definition logins (t : list Event) : list Event :=
  List.filter (fun e => match e with SdkLogin _ _ => true | _ => false end) t.
Definition downloads (t : list Event) : list Event :=
  List.filter (fun e => match e with HostDownload _ => true | _ => false end) t.
Definition cache_writes (t : list Event) : list Event :=
  List.filter (fun e => match e with HostCacheSet _ _ => true | _ => false end) t.
Definition touched (t : list Event) : list Node :=
  omap (fun e => match e with HostTouch n => Some n | _ => None end) t.
Definition pages_read (t : list Event) : list Z :=
  omap (fun e => match e with SdkReadFiles _ page_ => Some page_ | _ => None end) t.

(** The extra headers the user supplies: a static map, or what the
    user's function returns. *)
Definition supplied_headers (w : World) : Result (gmap string string) :=
  match options (plugin w) with
  | None => Ok ∅
  | Some o =>
      match opt_headers o with
      | NoHeaders => Ok ∅
      | HeadersObject h => Ok (or_empty h)
      | HeadersFunction f =>
          match f tt with
          | Ok h => Ok (or_empty h)
          | Throw e => Throw e
          end
      end
  end.

(** The process after the SDK client has replaced its token by [tok]. *)
Definition rotate_token (tok : string) (w : World) : World :=
  with_plugin (fun p => set_directus
                          (match directus p with
                           | Some d => Some {| base := base d; auth_token := Some tok |}
                           | None => None
                           end) p) w.

(** A remote file listing backed by the records [store], sorted by [id]:
    page [page] of [limit] records. *)
Definition paged (store : list FileRecord) (limit page_ : Z)
  : Result (option (list FileRecord)) :=
  Ok (Some (take (Z.to_nat limit) (drop (Z.to_nat ((page_ - 1) * limit)) store))).

(** [store] cut into pages of [n] records, up to and including the first
    page that is not full. *)
Fixpoint batches_of (fuel n : nat) (store : list FileRecord) : list (list FileRecord) :=
  match fuel with
  | O => []
  | S fuel' =>
      if (length store <? n)%nat then [store]
      else take n store :: batches_of fuel' n (drop n store)
  end.

(** The process holds a session and pages by [n] records. *)
Definition ready (n : nat) (w : World) : Prop :=
  is_Some (directus (plugin w)) /\ concurrency (plugin w) = Z.of_nat n.

(** The generator is about to ask for page [k + 1], with pages of [n]. *)
Definition at_page (n : nat) (g : Generator) (k : nat) : Prop :=
  (g = iterateFiles /\ k = 0%nat)
  \/ exists prev, g = {| at_ := AtYield prev; hasMore := true; page := Z.of_nat k |}
                  /\ (n <= length prev)%nat.

(** What a [for await] loop does over the batches [batches], read from
    page [page_] on with [limit] records a page. *)
Fixpoint run_batches {A} (body : list FileRecord -> A -> M World (Step A))
    (limit page_ : Z) (batches : list (list FileRecord)) (acc : A) (w : World)
  : Result A * World :=
  match batches with
  | [] => (Ok acc, w)
  | files :: batches' =>
      match body files acc (with_trace (fun t => t ++ [SdkReadFiles limit page_]) w) with
      | (Throw e, w') => (Throw e, w')
      | (Ok (Break a), w') => (Ok a, w')
      | (Ok (Continue a), w') => run_batches body limit (page_ + 1) batches' a w'
      end
  end.

(** The file has a cache entry whose node the host still holds. *)
Definition cached_node (w : World) (file : FileRecord) : option Node :=
  match cache w !! file_id file with
  | Some nodeId => nodes w !! nodeId
  | None => None
  end.

(** What [sourceNodes] asks the host to download for [file]. *)
Definition download_request (w : World) (Authorization : option string) (file : FileRecord)
  : RemoteFile :=
  {| rf_url := url (plugin w) +:+ "assets/" +:+ file_id file;
     parentNodeId := file_id file;
     httpHeaders_Authorization := Authorization;
     rf_ext := (Filename.name_and_ext (filename_download file)).2;
     rf_name := (Filename.name_and_ext (filename_download file)).1 |}.

(** A remote API and a host that always answer, over the records [store]. *)
Definition friendly (store : list FileRecord) : Env :=
  {| platform := Url.standard;
     ms := fun _ => Ok (Some 5000);
     remote_static := fun _ _ => Ok tt;
     remote_login := fun _ _ _ => Ok "session-token";
     remote_files := paged store;
     remote_download := fun f =>
       Ok {| node_id := "file-" +:+ parentNodeId f; internal_type := "File";
             node_typeName := None |};
     graphql_sourceNodes := fun createNode_ b =>
       createNode_ {| node_id := "gatsby-source-graphql-" +:+ typeName b;
                      internal_type := "GraphQLSource";
                      node_typeName := Some (typeName b) |};
     graphql_createSchemaCustomization := fun _ => ret tt |}.

Definition photo (n : string) : FileRecord :=
  {| file_id := n; file_type := "image/jpeg"; filename_download := n +:+ ".jpg" |}.

(** Options with a static token, and options with an email and password. *)
Definition with_token : Options :=
  {| opt_url := VStr "https://cms.example/"; opt_dev := None;
     opt_auth := Some {| token := VStr "static-token"; email := VUndefined;
                         password := VUndefined |};
     opt_type := None; opt_concurrency := 2; opt_retries := 5;
     opt_headers := HeadersObject (Some {[ "X-Build" := "1" ]}) |}.
Definition with_password : Options :=
  {| opt_url := VStr "https://other.example/api"; opt_dev := None;
     opt_auth := Some {| token := VUndefined; email := VStr "a@b.c";
                         password := VStr "secret" |};
     opt_type := None; opt_concurrency := 10; opt_retries := 5;
     opt_headers := NoHeaders |}.

End Source.

(** ** Further vocabulary: the retrying fetch client on any transport *)

Module FetchMore.
Import Fetch.

Section WithTransport.
Context {Init Response : Type}.
Variable nodeFetch : nat -> string -> Init -> Exn + Response.

(** Among the [n] transport calls from call number [from] on, the first
    one that answers: its rank and the response. *)
Fixpoint first_answer (uri : string) (options : Init) (from n : nat)
  : option (nat * Response) :=
  match n with
  | O => None
  | S n' =>
      match nodeFetch from uri options with
      | inr r => Some (O, r)
      | inl _ =>
          match first_answer uri options (S from) n' with
          | Some (k, r) => Some (S k, r)
          | None => None
          end
      end
  end.

(** What call number [from + i] is rejected with, when it is. *)
Definition rejection (uri : string) (options : Init) (from i : nat) : Exn :=
  match nodeFetch (from + i)%nat uri options with
  | inl e => e
  | inr _ => ThrownNull
  end.

(** The result of [fetch] and the number of rounds it takes, read off the
    transport. *)
Definition outcome (retries : Z) (uri : string) (options : Init) (from : nat)
  : Result Response * nat :=
  match first_answer uri options from (Z.to_nat retries) with
  | Some (k, r) => (Ok r, S k)
  | None =>
      (Throw (match last_error None (rejection uri options from) (Z.to_nat retries) with
              | Some e => e
              | None => ThrownNull
              end),
       Z.to_nat retries)
  end.

End WithTransport.

(** The sum of two delays. *)
Definition add_delay (a b : Delay) : Delay :=
  match a, b with
  | Millis x, Millis y => Millis (x + y)
  | _, _ => Infinity
  end.

(** The delays a trace asks its timers for, added up. *)
Fixpoint requested (t : list Event) : Delay :=
  match t with
  | [] => Millis 0
  | Sleep d :: t' => add_delay d (requested t')
  | Request _ :: t' => requested t'
  end.

(** The sum of the delays of [m] rounds, the first of them at [count = 1]. *)
Definition backoff_total (m : nat) : Delay :=
  if Z.of_nat m <=? 1014 then Millis ((2 ^ (Z.of_nat m + 1) - 2) * 1000) else Infinity.

End FetchMore.

(** ** Further vocabulary: the plugin instance and the host *)

Module SourceMore.
Import Source.

(** [hasToken] and [hasCredentials] of [setOptions]. *)
Definition has_token (o : Options) : bool :=
  negb (isEmpty (auth_field token (opt_auth o))).
Definition has_credentials (o : Options) : bool :=
  negb (isEmpty (auth_field email (opt_auth o)))
  && negb (isEmpty (auth_field password (opt_auth o))).

(** An [auth] block is given and holds neither a token nor an email and
    password pair. *)
Definition unusable_auth (o : Options) : bool :=
  match opt_auth o with
  | Some _ => negb (has_token o) && negb (has_credentials o)
  | None => false
  end.

(** The calls of the SDK's [auth] in a trace, and its console lines. *)
Definition auth_calls (t : list Event) : list Event :=
  List.filter (fun e => match e with
                        | SdkStatic _ | SdkLogin _ _ => true
                        | _ => false
                        end) t.
Definition console_lines (t : list Event) : list Event :=
  List.filter (fun e => match e with Console _ _ => true | _ => false end) t.

(** The [auth] calls [setOptions] makes for the options [o]. *)
Definition auth_calls_for (o : Options) : list Event :=
  (if has_token o then [SdkStatic (str (auth_field token (opt_auth o)))] else [])
  ++ (if has_credentials o
      then [SdkLogin (str (auth_field email (opt_auth o)))
                     (str (auth_field password (opt_auth o)))]
      else []).


(** A remote API that rejects every credential. *)
Definition rejecting : Env :=
  {| platform := Url.standard;
     ms := fun _ => Ok (Some 5000);
     remote_static := fun _ _ => Throw (Rejected "Invalid user credentials.");
     remote_login := fun _ _ _ => Throw (Rejected "Invalid user credentials.");
     remote_files := paged [];
     remote_download := fun f => Throw (Rejected "ENOTFOUND");
     graphql_sourceNodes := fun _ _ => ret tt;
     graphql_createSchemaCustomization := fun _ => ret tt |}.

(** Options without an [auth] block, and options without a [url]. *)
Definition public : Options :=
  {| opt_url := VStr "https://cms.example/"; opt_dev := None; opt_auth := None;
     opt_type := None; opt_concurrency := 10; opt_retries := 5;
     opt_headers := HeadersObject (Some {[ "X-Build" := "1" ]}) |}.
Definition without_url : Options :=
  {| opt_url := VUndefined; opt_dev := None; opt_auth := None;
     opt_type := None; opt_concurrency := 10; opt_retries := 5;
     opt_headers := NoHeaders |}.

End SourceMore.


(** ** Further vocabulary: what a sync leaves of the process *)

Module SyncMore.
Import Source.

(** [w'] is [w] with, at most, cache entries and nodes added or replaced
    and events appended: the plugin instance is the same, and no cache key
    and no node id is lost. *)
Definition grows (w w' : World) : Prop :=
  plugin w' = plugin w
  /\ dom (cache w) ⊆ dom (cache w')
  /\ dom (nodes w) ⊆ dom (nodes w')
  /\ trace w `prefix_of` trace w'.

End SyncMore.

(** * Properties *)

#[local] Arguments Ascii.eqb : simpl never.
#[local] Arguments String.eqb : simpl never.
#[local] Arguments String.append !_ _ / : simpl nomatch.

Module FetchSpec.
Import Fetch.

Section WithTransport.
Context {Init Response : Type}.
Variable nodeFetch : nat -> string -> Init -> Exn + Response.
Variables (retries : Z) (uri : string) (options : Init).

Local Abbreviation loop := (fetch_loop nodeFetch).

(** A loop whose next [n] transport calls fail, and which is still within
    its budget for all of them, goes through [n] rounds. *)
Lemma loop_failed_rounds (n : nat) :
  forall (errs : nat -> Exn) (f : nat) (c : Z) (e0 : option Exn) (w : Net),
    0 <= c ->
    c + Z.of_nat n <= retries ->
    (forall i, (i < n)%nat -> nodeFetch (sent w + i)%nat uri options = inl (errs i)) ->
    loop (n + f) retries uri options {| count := c; response := None; error := e0 |} w
    = loop f retries uri options
        {| count := c + Z.of_nat n; response := None; error := last_error e0 errs n |}
        {| sent := (sent w + n)%nat; trace := trace w ++ rounds uri c n |}.
Proof.
  induction n as [|n IH]; intros errs f c e0 w Hc Hbudget Hfail.
  - simpl. rewrite Z.add_0_r, Nat.add_0_r, app_nil_r. by destruct w.
  - cbn [Nat.add loop response count error].
    assert ((c <? retries) = true) as -> by (apply Z.ltb_lt; lia).
    unfold attempt, request. cbn [sent trace count response error].
    pose proof (Hfail 0%nat ltac:(lia)) as H0. rewrite Nat.add_0_r in H0. rewrite H0.
    cbn [count].
    assert ((0 <? c + 1) = true) as -> by (apply Z.ltb_lt; lia).
    cbn [snd sleep modify sent trace].
    rewrite (IH (fun i => errs (S i))); [| lia | lia |].
    + cbn [sent trace rounds]. f_equal.
      * f_equal; [lia|]. destruct n; reflexivity.
      * f_equal; [lia|]. rewrite <- !app_assoc. reflexivity.
    + intros i Hi. cbn [sent]. rewrite <- (Hfail (S i)) by lia. f_equal. lia.
Qed.

Lemma rounds_snoc (c : Z) (n : nat) :
  rounds uri c (S n)
  = rounds uri c n ++ [Request uri; Sleep (backoff (c + Z.of_nat n + 1))].
Proof.
  revert c. induction n as [|n IH]; intros c.
  - cbn. by rewrite Z.add_0_r.
  - change (rounds uri c (S (S n)))
      with (Request uri :: Sleep (backoff (c + 1)) :: rounds uri (c + 1) (S n)).
    rewrite IH. cbn [rounds app].
    by replace (c + 1 + Z.of_nat n + 1) with (c + Z.of_nat (S n) + 1) by lia.
Qed.

(** [k] failures, then a response: [fetch] returns it after [k + 1] rounds. *)
Lemma fetch_success (k : nat) (errs : nat -> Exn) (r : Response) (w : Net) (fuel : nat) :
  Z.of_nat k < retries ->
  (forall i, (i < k)%nat -> nodeFetch (sent w + i)%nat uri options = inl (errs i)) ->
  nodeFetch (sent w + k)%nat uri options = inr r ->
  (k + 2 <= fuel)%nat ->
  fetch nodeFetch fuel retries uri options w = Some (Ok r, after_rounds uri w (S k)).
Proof.
  intros Hk Hfail Hok Hfuel. unfold fetch.
  replace fuel with (k + S (S (fuel - k - 2)))%nat by lia.
  rewrite (loop_failed_rounds k errs); [| lia | lia | done].
  cbn [loop response count error].
  assert ((0 + Z.of_nat k <? retries) = true) as -> by (apply Z.ltb_lt; lia).
  unfold attempt, request. cbn [sent trace]. rewrite Hok. cbn [count].
  assert ((0 <? 0 + Z.of_nat k + 1) = true) as -> by (apply Z.ltb_lt; lia).
  cbn [snd sleep modify sent trace response].
  unfold after_rounds. rewrite rounds_snoc.
  do 2 f_equal. f_equal; [lia|].
  rewrite <- !app_assoc. reflexivity.
Qed.

(** Every transport call within the budget fails: [fetch] gives up after
    [retries] rounds and throws what the [error] local holds. *)
Lemma fetch_exhausted (errs : nat -> Exn) (w : Net) (fuel : nat) :
  0 <= retries ->
  (forall i, Z.of_nat i < retries ->
             nodeFetch (sent w + i)%nat uri options = inl (errs i)) ->
  (Z.to_nat retries + 1 <= fuel)%nat ->
  fetch nodeFetch fuel retries uri options w
  = Some (Throw (match last_error None errs (Z.to_nat retries) with
                 | Some e => e
                 | None => ThrownNull
                 end),
          after_rounds uri w (Z.to_nat retries)).
Proof.
  intros Hr Hfail Hfuel. unfold fetch.
  replace fuel with (Z.to_nat retries + S (fuel - Z.to_nat retries - 1))%nat by lia.
  rewrite (loop_failed_rounds (Z.to_nat retries) errs); [| lia | lia |].
  - cbn [loop response count error].
    assert ((0 + Z.of_nat (Z.to_nat retries) <? retries) = false) as ->
        by (apply Z.ltb_ge; lia).
    reflexivity.
  - intros i Hi. apply Hfail. lia.
Qed.

End WithTransport.

(** C1. Retry budget of [fetch]: when the transport fails on the first
    [k < retries] attempts and answers on attempt [k + 1], [fetch] returns
    that response, having called the transport [k + 1] times; when the
    transport fails on every attempt, [fetch] calls it exactly [retries]
    times and then throws the last error it caught ([errs (retries - 1)];
    with [retries = 0] nothing was caught and the initial [null] is thrown). *)
Theorem fetch_retry_budget {Init Response : Type}
    (nodeFetch : nat -> string -> Init -> Exn + Response)
    (retries : Z) (uri : string) (options : Init) (w : Net) (errs : nat -> Exn) :
  0 <= retries ->
  (forall (k : nat) (r : Response),
      Z.of_nat k < retries ->
      (forall i, (i < k)%nat -> nodeFetch (sent w + i)%nat uri options = inl (errs i)) ->
      nodeFetch (sent w + k)%nat uri options = inr r ->
      exists w',
        (forall fuel, (k + 2 <= fuel)%nat ->
                      fetch nodeFetch fuel retries uri options w = Some (Ok r, w'))
        /\ sent w' = (sent w + (k + 1))%nat)
  /\
  ((forall i, Z.of_nat i < retries ->
              nodeFetch (sent w + i)%nat uri options = inl (errs i)) ->
   exists w',
     (forall fuel, (Z.to_nat retries + 1 <= fuel)%nat ->
                   fetch nodeFetch fuel retries uri options w
                   = Some (Throw (if retries =? 0 then ThrownNull
                                  else errs (Z.to_nat (retries - 1))), w'))
     /\ Z.of_nat (sent w') = Z.of_nat (sent w) + retries).
Proof.
  intros Hr. split.
  - intros k r Hk Hfail Hok. exists (after_rounds uri w (S k)). split.
    + intros fuel Hfuel. by apply (fetch_success _ _ _ _ k errs).
    + cbn. lia.
  - intros Hfail. exists (after_rounds uri w (Z.to_nat retries)). split.
    + intros fuel Hfuel. rewrite (fetch_exhausted _ _ _ _ errs) by done.
      do 3 f_equal. destruct (Z.eqb_spec retries 0) as [->|Hne]; [done|].
      replace (Z.to_nat retries) with (S (Z.to_nat (retries - 1))) by lia.
      reflexivity.
    + cbn. lia.
Qed.

Lemma fetch_retry_budget_witness :
  (exists w', fetch flaky 4 5 "https://cms.example/graphql" tt {| sent := 0; trace := [] |}
              = Some (Ok "200 OK", w') /\ sent w' = 3%nat)
  /\ (exists w', fetch down 6 5 "https://cms.example/graphql" tt {| sent := 0; trace := [] |}
                  = Some (Throw (Rejected "ECONNRESET"), w') /\ Z.of_nat (sent w') = 5).
Proof.
  split.
  - destruct (fetch_retry_budget flaky 5 "https://cms.example/graphql" tt
                {| sent := 0; trace := [] |} (fun _ => Rejected "ECONNRESET")
                ltac:(lia)) as [Hsucc _].
    destruct (Hsucc 2%nat "200 OK") as (w' & Hrun & Hsent).
    + lia.
    + intros [|[|i]] Hi; [reflexivity | reflexivity | lia].
    + reflexivity.
    + exists w'. split; [apply Hrun; lia | exact Hsent].
  - destruct (fetch_retry_budget down 5 "https://cms.example/graphql" tt
                {| sent := 0; trace := [] |} (fun _ => Rejected "ECONNRESET")
                ltac:(lia)) as [_ Hfail].
    destruct Hfail as (w' & Hrun & Hsent); [reflexivity|].
    exists w'. split; [apply (Hrun 6%nat); simpl; lia | exact Hsent].
Defined.

(** C5 (the program departs from it). The trace of a call to [fetch] that
    obtains a response on attempt [k + 1]: the [k] failed attempts, each
    followed by its timer of [2 ^ attempt * 1000] ms, then the attempt that
    succeeds, and after it one more timer, of [2 ^ (k + 1) * 1000] ms, which
    runs before the response is returned.  No timer precedes the first
    attempt.  The delays are those of the language's double arithmetic
    ([backoff]): the whole numbers [2 ^ attempt * 1000] up to attempt 1014,
    [Infinity] from attempt 1015 on. *)
Theorem fetch_sleeps_after_response {Init Response : Type}
    (nodeFetch : nat -> string -> Init -> Exn + Response)
    (retries : Z) (uri : string) (options : Init) (w : Net) (errs : nat -> Exn)
    (k : nat) (r : Response) (fuel : nat) :
  Z.of_nat k < retries ->
  (forall i, (i < k)%nat -> nodeFetch (sent w + i)%nat uri options = inl (errs i)) ->
  nodeFetch (sent w + k)%nat uri options = inr r ->
  (k + 2 <= fuel)%nat ->
  fetch nodeFetch fuel retries uri options w
  = Some (Ok r,
          {| sent := (sent w + S k)%nat;
             trace := trace w ++ rounds uri 0 k
                      ++ [Request uri; Sleep (backoff (Z.of_nat k + 1))] |})
  /\ (Z.of_nat k + 1 <= 1014 ->
      backoff (Z.of_nat k + 1) = Millis (2 ^ (Z.of_nat k + 1) * 1000)).
Proof.
  intros Hk Hfail Hok Hfuel. split.
  - rewrite (fetch_success _ _ _ _ k errs r) by done.
    unfold after_rounds. by rewrite rounds_snoc.
  - intros Hsmall. unfold backoff.
    by assert ((Z.of_nat k + 1 <=? 1014) = true) as -> by (apply Z.leb_le; lia).
Qed.

Lemma fetch_sleeps_after_response_witness :
  fetch answering 2 5 "https://cms.example/graphql" tt {| sent := 0; trace := [] |}
  = Some (Ok "200 OK",
          {| sent := 1;
             trace := [Request "https://cms.example/graphql"; Sleep (Millis 2000)] |}).
Proof.
  apply (fetch_sleeps_after_response answering 5 "https://cms.example/graphql" tt
           {| sent := 0; trace := [] |} (fun _ => ThrownNull) 0 "200 OK" 2).
  - lia.
  - intros i Hi. lia.
  - reflexivity.
  - lia.
Defined.

End FetchSpec.

Module UrlSpec.
Import Url.

Example parse_host_only :
  parse "https://example.com"
  = Some {| scheme := "https"; authority := "example.com"; pathname := "/"; rest := EmptyString |}.
Proof. reflexivity. Qed.

Example parse_with_path :
  parse "https://example.com:8055/cms/"
  = Some {| scheme := "https"; authority := "example.com:8055"; pathname := "/cms/";
            rest := EmptyString |}.
Proof. reflexivity. Qed.

Example parse_relative : parse "example.com/cms" = None.
Proof. reflexivity. Qed.

Example derived_host_only :
  derived <$> parse "https://example.com/"
  = Some ("https://example.com/", "https://example.com/graphql",
          "https://example.com/graphql/system").
Proof. reflexivity. Qed.

Example derived_with_path :
  derived <$> parse "https://example.com/cms/"
  = Some ("https://example.com/cms", "https://example.com/cms/graphql",
          "https://example.com/cms/graphql/system").
Proof. reflexivity. Qed.

(** *** Strings *)

Lemma append_assoc (a b c : string) : (a +:+ b) +:+ c = a +:+ b +:+ c.
Proof. induction a as [|x a IH]; cbn; [done | by rewrite IH]. Qed.

Lemma append_empty_r (a : string) : a +:+ EmptyString = a.
Proof. induction a as [|x a IH]; cbn; [done | by rewrite IH]. Qed.

Lemma free_of_append (p : ascii -> bool) (a b : string) :
  free_of p (a +:+ b) = free_of p a && free_of p b.
Proof.
  unfold free_of. induction a as [|x a IH]; cbn; [done|].
  by rewrite IH, andb_assoc.
Qed.

Lemma endsWith_slash_append (a b : string) :
  b <> EmptyString -> endsWith_slash (a +:+ b) = endsWith_slash b.
Proof.
  intros Hb. induction a as [|x a IH]; cbn; [done|].
  rewrite IH. destruct (a +:+ b) eqn:E; [|done].
  destruct a, b; done.
Qed.



(** *** [break] *)

Lemma break_append (p : ascii -> bool) (a z : string) :
  free_of p a = true ->
  break p (a +:+ z) = (a +:+ fst (break p z), snd (break p z)).
Proof.
  unfold free_of. induction a as [|x a IH]; cbn.
  - intros _. by destruct (break p z).
  - intros [Hx Ha]%andb_true_iff. apply negb_true_iff in Hx.
    by rewrite Hx, (IH Ha).
Qed.

Lemma break_here (p : ascii -> bool) (b : string) :
  starts_with_or_empty p b = true -> break p b = (EmptyString, b).
Proof. destruct b as [|c b]; cbn; [done|]. by intros ->. Qed.

Lemma break_at (p : ascii -> bool) (a b : string) :
  free_of p a = true -> starts_with_or_empty p b = true ->
  break p (a +:+ b) = (a, b).
Proof.
  intros Ha Hb. by rewrite break_append, (break_here p b Hb), append_empty_r.
Qed.

Lemma break_inv (p : ascii -> bool) (s x y : string) :
  break p s = (x, y) ->
  s = x +:+ y /\ free_of p x = true /\ starts_with_or_empty p y = true.
Proof.
  unfold free_of. revert x y. induction s as [|c s IH]; cbn; intros x y.
  - by intros [= <- <-].
  - destruct (p c) eqn:Hc.
    + intros [= <- <-]. cbn. by rewrite Hc.
    + destruct (break p s) as [x' y'] eqn:E. intros [= <- <-].
      destruct (IH x' y' eq_refl) as (-> & Hx & Hy). cbn. by rewrite Hc, Hx.
Qed.


Lemma strip_prefix_append (p s : string) : strip_prefix p (p +:+ s) = Some s.
Proof. induction p as [|a p IH]; cbn; [by destruct s | by rewrite Ascii.eqb_refl]. Qed.

Lemma strip_prefix_inv (p s b : string) : strip_prefix p s = Some b -> s = p +:+ b.
Proof.
  revert s. induction p as [|a p IH]; intros [|c s]; cbn; try done.
  - by intros [= <-].
  - by intros [= <-].
  - destruct (Ascii.eqb_spec a c) as [->|]; [|done]. by intros ->%IH.
Qed.

(** *** [parse] *)

Lemma scheme_char_not_colon (a : ascii) : scheme_char a = true -> is_colon a = false.
Proof.
  unfold is_colon. destruct (Ascii.eqb_spec a ":") as [->|]; [|done].
  by vm_compute.
Qed.

Lemma valid_scheme_free (sch : string) :
  valid_scheme sch = true -> free_of is_colon sch = true.
Proof.
  destruct sch as [|a sch]; [done|]. unfold free_of. cbn.
  intros [Ha Hs]%andb_true_iff.
  rewrite scheme_char_not_colon by (unfold scheme_char; by rewrite Ha). cbn.
  induction sch as [|b sch IH]; cbn in *; [done|].
  apply andb_true_iff in Hs as [Hb Hs].
  by rewrite (scheme_char_not_colon b Hb), (IH Hs).
Qed.

(** The strings [parse] accepts, by their parts. *)
Record Parts (sch auth path rst : string) : Prop :=
  { parts_scheme : valid_scheme sch = true;
    parts_authority : auth <> EmptyString;
    parts_authority_free : free_of ends_authority auth = true;
    parts_path_free : free_of ends_path path = true;
    parts_path_absolute : starts_with_or_empty is_slash path = true;
    parts_rest : starts_with_or_empty ends_path rst = true }.

Lemma parse_build (sch auth path rst : string) :
  Parts sch auth path rst ->
  parse (sch +:+ "://" +:+ auth +:+ path +:+ rst)
  = Some {| scheme := sch; authority := auth;
            pathname := stored_path sch path; rest := rst |}.
Proof.
  intros [Hsch Hauth Hfree Hpath Habs Hrest]. unfold parse.
  rewrite (break_at is_colon sch) by (by apply valid_scheme_free || done).
  rewrite Hsch, strip_prefix_append.
  rewrite (break_at ends_authority auth); [| done |].
  - destruct auth as [|a auth]; [done|].
    by rewrite (break_at ends_path path).
  - destruct path as [|c path]; cbn in *.
    + destruct rst as [|c rst]; cbn in *; [done|].
      unfold ends_authority, ends_path in *.
      by destruct (Ascii.eqb c "/"), (Ascii.eqb c "?"), (Ascii.eqb c "#").
    + unfold ends_authority, is_slash in *. by rewrite Habs.
Qed.

Lemma parse_inv (s : string) (u : t) :
  parse s = Some u ->
  exists path,
    s = scheme u +:+ "://" +:+ authority u +:+ path +:+ rest u
    /\ pathname u = stored_path (scheme u) path
    /\ Parts (scheme u) (authority u) path (rest u).
Proof.
  unfold parse.
  destruct (break is_colon s) as [sch after] eqn:Hcolon.
  destruct (valid_scheme sch) eqn:Hsch; [|done].
  destruct (strip_prefix "://" after) as [body|] eqn:Hbody; [|done].
  apply strip_prefix_inv in Hbody as ->.
  destruct (break ends_authority body) as [auth tail] eqn:Hauth.
  destruct auth as [|a auth]; [done|].
  destruct (break ends_path tail) as [path rst] eqn:Hpath.
  intros [= <-]. cbn [scheme authority pathname rest].
  apply break_inv in Hcolon as (-> & _ & _).
  apply break_inv in Hauth as (-> & Hafree & Htail).
  apply break_inv in Hpath as (-> & Hpfree & Hrest).
  exists path. split; [|split; [done|]].
  - reflexivity.
  - split; try done.
    destruct path as [|c path]; [done|]. cbn in *.
    unfold free_of in Hpfree. cbn in Hpfree.
    apply andb_true_iff in Hpfree as [Hc _].
    unfold ends_authority, ends_path, is_slash in *.
    destruct (Ascii.eqb c "/"); [done|]. cbn in *. by rewrite Htail in Hc.
Qed.

(** *** Paths *)

Lemma stored_path_absolute (sch p : string) :
  p <> EmptyString -> starts_with_or_empty is_slash p = true -> stored_path sch p = p.
Proof. destruct p as [|c p]; [done|]. cbn. unfold is_slash. by intros _ ->. Qed.

Lemma stored_path_is_absolute (sch p : string) :
  starts_with_or_empty is_slash (stored_path sch p) = true.
Proof.
  destruct p as [|c p]; cbn.
  - by destruct (is_special sch).
  - unfold is_slash. by destruct (Ascii.eqb c "/") eqn:E; cbn; rewrite ?E.
Qed.


Lemma stored_path_free (sch p : string) :
  free_of ends_path p = true -> free_of ends_path (stored_path sch p) = true.
Proof.
  destruct p as [|c p]; cbn.
  - by destruct (is_special sch).
  - by destruct (Ascii.eqb c "/").
Qed.

Lemma stored_path_extend (sch bp tail : string) :
  starts_with_or_empty is_slash bp = true ->
  stored_path sch (bp +:+ String "/" tail) = bp +:+ String "/" tail.
Proof.
  intros Habs. apply stored_path_absolute; destruct bp; done.
Qed.

Lemma slice_0_m1_absolute (p : string) :
  starts_with_or_empty is_slash p = true ->
  starts_with_or_empty is_slash (slice_0_m1 p) = true.
Proof. destruct p as [|c [|d p]]; done. Qed.

Lemma slice_0_m1_free (q : ascii -> bool) (p : string) :
  free_of q p = true -> free_of q (slice_0_m1 p) = true.
Proof.
  unfold free_of. induction p as [|c p IH]; [done|]. cbn.
  intros [Hc Hp]%andb_true_iff. destruct p as [|d p]; [done|].
  cbn in *. rewrite Hc. by apply IH.
Qed.

Lemma without_slash_absolute (p : string) :
  starts_with_or_empty is_slash p = true ->
  starts_with_or_empty is_slash (without_slash p) = true.
Proof.
  unfold without_slash. destruct (endsWith_slash p); [|done].
  apply slice_0_m1_absolute.
Qed.

Lemma without_slash_free (q : ascii -> bool) (p : string) :
  free_of q p = true -> free_of q (without_slash p) = true.
Proof.
  unfold without_slash. destruct (endsWith_slash p); [|done].
  apply slice_0_m1_free.
Qed.



Lemma parse_base_path (s : string) (u : t) :
  parse s = Some u ->
  starts_with_or_empty is_slash (base_path u) = true
  /\ free_of ends_path (base_path u) = true.
Proof.
  intros (path & _ & Hpath & [_ _ _ Hfree Habs _])%parse_inv.
  unfold base_path. rewrite Hpath. split.
  - apply without_slash_absolute, stored_path_is_absolute.
  - by apply without_slash_free, stored_path_free.
Qed.

(** *** The derived URLs *)

(** What the three assignments to [baseUrl.pathname] serialise to. *)
Lemma set_pathname_derived (s : string) (u : t) :
  parse s = Some u ->
  let bp := base_path u in
  let u1 := set_pathname u bp in
  let u2 := set_pathname u1 (bp +:+ "/graphql") in
  let u3 := set_pathname u2 (bp +:+ "/graphql/system") in
  (toString u1, toString u2, toString u3) = derived u.
Proof.
  intros [Habs _]%parse_base_path. cbn. unfold toString, derived. cbn.
  change "/graphql" with (String "/" "graphql").
  change "/graphql/system" with (String "/" "graphql/system").
  rewrite !stored_path_extend by done.
  by rewrite !append_assoc.
Qed.

(** With a base path and without query or fragment, the endpoints are the
    root followed by [/graphql] and [/graphql/system]. *)
Lemma derived_under_root (s : string) (u : t) :
  parse s = Some u ->
  base_path u <> EmptyString -> rest u = EmptyString ->
  exists root,
    derived u = (root, root +:+ "/graphql", root +:+ "/graphql/system")
    /\ endsWith_slash root = endsWith_slash (base_path u).
Proof.
  intros [Habs _]%parse_base_path Hbp Hrest.
  exists (scheme u +:+ "://" +:+ authority u +:+ base_path u). split.
  - unfold derived. rewrite Hrest, stored_path_absolute by done.
    by rewrite !append_empty_r, !append_assoc.
  - rewrite <- !append_assoc. by apply endsWith_slash_append.
Qed.

(** Without a base path, a special scheme keeps the slash of the root. *)
Lemma derived_host_only_root (s : string) (u : t) :
  parse s = Some u ->
  base_path u = EmptyString -> is_special (scheme u) = true -> rest u = EmptyString ->
  derived u = (scheme u +:+ "://" +:+ authority u +:+ "/",
               scheme u +:+ "://" +:+ authority u +:+ "/graphql",
               scheme u +:+ "://" +:+ authority u +:+ "/graphql/system").
Proof.
  intros _ Hbp Hspecial Hrest. unfold derived. rewrite Hbp, Hrest. cbn.
  by rewrite Hspecial, !append_empty_r.
Qed.


(** *** Plain URLs *)

Lemma forallb_string_append (p : ascii -> bool) (a b : string) :
  forallb_string p (a +:+ b) = forallb_string p a && forallb_string p b.
Proof. induction a as [|x a IH]; cbn; [done|]. by rewrite IH, andb_assoc. Qed.

Lemma forallb_string_impl (p q : ascii -> bool) (s : string) :
  (forall a, p a = true -> q a = true) ->
  forallb_string p s = true -> forallb_string q s = true.
Proof.
  intros Hpq. induction s as [|a s IH]; cbn; [done|].
  intros [Ha Hs]%andb_true_iff. by rewrite (Hpq a Ha), IH.
Qed.

Lemma forallb_string_slice (p : ascii -> bool) (s : string) :
  forallb_string p s = true -> forallb_string p (slice_0_m1 s) = true.
Proof.
  induction s as [|c s IH]; [done|]. cbn.
  intros [Hc Hs]%andb_true_iff. destruct s as [|d s]; [done|].
  cbn in *. rewrite Hc. by apply IH.
Qed.

Lemma path_char_not_ends (a : ascii) : path_char a = true -> ends_path a = false.
Proof. destruct a as [[] [] [] [] [] [] [] []]; by vm_compute. Qed.

Lemma host_char_not_ends (a : ascii) :
  host_char a || Ascii.eqb a "." = true -> ends_authority a = false.
Proof. destruct a as [[] [] [] [] [] [] [] []]; by vm_compute. Qed.

Lemma digit_not_ends (a : ascii) : is_digit a = true -> ends_authority a = false.
Proof. destruct a as [[] [] [] [] [] [] [] []]; by vm_compute. Qed.

Lemma colon_not_ends (a : ascii) : is_colon a = true -> ends_authority a = false.
Proof. destruct a as [[] [] [] [] [] [] [] []]; by vm_compute. Qed.

Lemma labels_chars (q : ascii -> bool) (h : string) :
  forallb (forallb_string q) (labels h) = true ->
  forallb_string (fun a => q a || Ascii.eqb a ".") h = true.
Proof.
  induction h as [|a h IH]; [done|]. cbn [labels forallb_string].
  destruct (Ascii.eqb a ".") eqn:Ha.
  - cbn. intros H. rewrite orb_true_r. by apply IH.
  - destruct (labels h) as [|l ls]; cbn in *.
    + rewrite !andb_true_r. intros ->. by rewrite IH.
    + intros [[Hq Hl]%andb_true_iff Hls]%andb_true_iff.
      rewrite Hq. cbn. apply IH. by rewrite Hl.
Qed.

Lemma plain_host_chars (h : string) :
  plain_host h = true ->
  h <> EmptyString /\ free_of ends_authority h = true.
Proof.
  unfold plain_host. intros [Hlabels _]%andb_true_iff. split.
  - by intros ->.
  - assert (forallb (forallb_string host_char) (labels h) = true) as Hweak.
    { apply forallb_forall. intros l Hl.
      pose proof (proj1 (forallb_forall _ _) Hlabels l Hl) as Hplain.
      unfold plain_label in Hplain.
      by apply andb_true_iff in Hplain as [[? _]%andb_true_iff _]. }
    apply (forallb_string_impl _ _ _ (fun a Ha => proj2 (negb_true_iff _)
                                                   (host_char_not_ends a Ha))).
    by apply labels_chars.
Qed.

Lemma plain_authority_chars (sch a : string) :
  plain_authority sch a = true ->
  a <> EmptyString /\ free_of ends_authority a = true.
Proof.
  unfold plain_authority. destruct (break is_colon a) as [h after] eqn:Hbreak.
  apply break_inv in Hbreak as (-> & _ & Hafter).
  intros [[Hne Hfree]%plain_host_chars Hport]%andb_true_iff. split.
  - by destruct h.
  - rewrite free_of_append, Hfree. destruct after as [|c p]; [done|].
    cbn in Hafter. unfold free_of. cbn.
    rewrite (colon_not_ends c Hafter). cbn.
    unfold plain_port in Hport.
    repeat (apply andb_true_iff in Hport as [Hport _]).
    apply (forallb_string_impl _ _ _ (fun x Hx => proj2 (negb_true_iff _)
                                                   (digit_not_ends x Hx))).
    exact Hport.
Qed.

Lemma plain_path_free (p : string) :
  plain_path p = true -> free_of ends_path p = true.
Proof.
  intros [Hchars _]%andb_true_iff.
  by apply (forallb_string_impl _ _ _ (fun x Hx => proj2 (negb_true_iff _)
                                                  (path_char_not_ends x Hx))).
Qed.

Lemma is_http_special (sch : string) :
  is_http sch = true -> valid_scheme sch = true /\ is_special sch = true.
Proof.
  unfold is_http. intros [->%String.eqb_eq | ->%String.eqb_eq]%orb_true_iff; done.
Qed.

(** The parts of a plain URL record. *)
Lemma plain_url_parts (u : t) :
  plain_url u = true ->
  Parts (scheme u) (authority u) (pathname u) (rest u)
  /\ stored_path (scheme u) (pathname u) = pathname u
  /\ plain_path (pathname u) = true
  /\ is_special (scheme u) = true
  /\ rest u = EmptyString.
Proof.
  unfold plain_url.
  intros [[[[Hsch Hauth]%andb_true_iff Hpath]%andb_true_iff Hne]%andb_true_iff
            Hrest]%andb_true_iff.
  apply String.eqb_eq in Hrest. apply negb_true_iff, String.eqb_neq in Hne.
  destruct (is_http_special _ Hsch) as [Hvalid Hspecial].
  destruct (plain_authority_chars _ _ Hauth) as [Hauth_ne Hauth_free].
  pose proof (plain_path_free _ Hpath) as Hfree.
  assert (starts_with_or_empty is_slash (pathname u) = true) as Habs
      by (by apply andb_true_iff in Hpath as [_ ?]).
  split; [|split; [|done]].
  - split; try done. by rewrite Hrest.
  - by apply stored_path_absolute.
Qed.

(** A plain URL record is the reading of its serialisation. *)
Lemma parse_toString (u : t) : plain_url u = true -> parse (toString u) = Some u.
Proof.
  intros (HP & Hstored & _)%plain_url_parts. unfold toString.
  rewrite (parse_build _ _ _ _ HP), Hstored. by destruct u.
Qed.


Lemma plain_inv (s : string) :
  plain s = true -> exists u, parse s = Some u /\ plain_url u = true.
Proof. unfold plain. destruct (parse s) as [u|]; [|done]. intros Hu. by exists u. Qed.

(** The paths the program assigns are plain. *)
Lemma plain_path_without_slash (p : string) :
  plain_path p = true -> plain_path (without_slash p) = true.
Proof.
  unfold plain_path, without_slash. intros [Hchars Habs]%andb_true_iff.
  destruct (endsWith_slash p); [|by rewrite Hchars, Habs].
  by rewrite forallb_string_slice, slice_0_m1_absolute.
Qed.

Lemma plain_path_extend (p tail : string) :
  plain_path p = true -> forallb_string path_char tail = true ->
  plain_path (p +:+ String "/" tail) = true.
Proof.
  unfold plain_path. intros [Hchars Habs]%andb_true_iff Htail.
  rewrite forallb_string_append, Hchars. cbn [forallb_string]. rewrite Htail.
  by destruct p.
Qed.

Lemma plain_url_set_pathname (u : t) (p : string) :
  plain_url u = true -> plain_path p = true -> plain_url (set_pathname u p) = true.
Proof.
  intros Hu Hp. pose proof (plain_url_parts u Hu) as (_ & _ & _ & Hspecial & _).
  unfold plain_url in *. cbn [set_pathname scheme authority pathname rest].
  apply andb_true_iff in Hu as [Hu Hrest]. apply andb_true_iff in Hu as [Hu _].
  apply andb_true_iff in Hu as [Hu _]. rewrite Hu, Hrest.
  destruct p as [|c p].
  - cbn [stored_path]. by rewrite Hspecial.
  - rewrite stored_path_absolute; [| done | by apply andb_true_iff in Hp as [_ ?]].
    by rewrite Hp.
Qed.

Lemma plain_base_path (u : t) : plain_url u = true -> plain_path (base_path u) = true.
Proof.
  intros (_ & _ & Hpath & _)%plain_url_parts. by apply plain_path_without_slash.
Qed.

(** The reading is a platform that follows the Standard. *)
Lemma standard_conforming : conforming standard.
Proof.
  split; cbn.
  - intros s u _ ->. done.
  - intros u Hu. by rewrite (parse_toString u Hu).
  - intros u p Hu _. by rewrite (parse_toString u Hu).
Qed.

(** On a platform that follows the Standard, the three URLs of a plain root
    URL are [derived]. *)
Lemma resolved_derived (P : Platform) (s : string) (u : t) :
  conforming P -> plain s = true -> parse s = Some u ->
  new_URL P s = Some (toString u) /\ resolved P (toString u) = derived u.
Proof.
  intros [Hnew Hget Hset] Hplain Hparse.
  assert (plain_url u = true) as Hu by (unfold plain in Hplain; by rewrite Hparse in Hplain).
  split; [by apply Hnew|].
  pose proof (plain_base_path u Hu) as Hbp.
  unfold resolved. rewrite (Hget u Hu). fold (base_path u).
  rewrite (Hset u _ Hu Hbp).
  pose proof (plain_url_set_pathname u _ Hu Hbp) as Hu1.
  assert (plain_path (base_path u +:+ "/graphql") = true) as Hp2
      by (by apply (plain_path_extend _ "graphql")).
  rewrite (Hset _ _ Hu1 Hp2).
  pose proof (plain_url_set_pathname _ _ Hu1 Hp2) as Hu2.
  assert (plain_path (base_path u +:+ "/graphql/system") = true) as Hp3
      by (by apply (plain_path_extend _ "graphql/system")).
  rewrite (Hset _ _ Hu2 Hp3).
  exact (set_pathname_derived s u Hparse).
Qed.

(** The three URLs of a plain root URL, by its base path. *)
Lemma plain_derived (s : string) (u : t) :
  plain s = true -> parse s = Some u ->
  (base_path u <> EmptyString ->
   exists root,
     derived u = (root, root +:+ "/graphql", root +:+ "/graphql/system")
     /\ endsWith_slash root = endsWith_slash (base_path u))
  /\ (base_path u = EmptyString ->
      derived u = (scheme u +:+ "://" +:+ authority u +:+ "/",
                   scheme u +:+ "://" +:+ authority u +:+ "/graphql",
                   scheme u +:+ "://" +:+ authority u +:+ "/graphql/system")).
Proof.
  intros Hplain Hparse.
  assert (plain_url u = true) as Hu by (unfold plain in Hplain; by rewrite Hparse in Hplain).
  destruct (plain_url_parts u Hu) as (_ & _ & _ & Hspecial & Hrest). split.
  - intros Hbp. by apply (derived_under_root s).
  - intros Hbp. by apply (derived_host_only_root s).
Qed.



End UrlSpec.

Module FilenameSpec.
Import Filename.

Example split_two_dots : split "." "archive.tar.gz" = ["archive"; "tar"; "gz"].
Proof. reflexivity. Qed.

Example name_and_ext_trailing_dot : name_and_ext "photo." = ("photo", ".").
Proof. reflexivity. Qed.

Example name_and_ext_leading_dot : name_and_ext ".gitignore" = (EmptyString, ".gitignore").
Proof. reflexivity. Qed.

Lemma split_nonempty (sep : ascii) (s : string) : split sep s <> [].
Proof.
  destruct s as [|a s]; cbn; [done|].
  destruct (Ascii.eqb a sep); [done|]. by destruct (split sep s).
Qed.

Lemma split_without (sep : ascii) (s : string) :
  includes sep s = false -> split sep s = [s].
Proof.
  induction s as [|a s IH]; cbn; [done|].
  intros [Ha Hs]%orb_false_iff. rewrite Ha, (IH Hs). reflexivity.
Qed.

Lemma split_at_sep (sep : ascii) (a b : string) :
  split sep (a +:+ String sep b) = split sep a ++ split sep b.
Proof.
  induction a as [|c a IH]; cbn.
  - by rewrite Ascii.eqb_refl.
  - rewrite IH. destruct (Ascii.eqb c sep); [done|].
    pose proof (split_nonempty sep a). by destruct (split sep a).
Qed.

Lemma join_split (sep : ascii) (s : string) :
  join (String sep EmptyString) (split sep s) = s.
Proof.
  induction s as [|c s IH]; cbn; [done|].
  pose proof (split_nonempty sep s) as Hne.
  destruct (Ascii.eqb_spec c sep) as [->|_].
  - destruct (split sep s) as [|p ps]; [done|]. cbn in *. by rewrite IH.
  - destruct (split sep s) as [|p ps]; [done|].
    destruct ps as [|q ps]; cbn in *; by rewrite <- IH.
Qed.

(** Every string with a separator ends in a last segment without one. *)
Lemma last_segment (sep : ascii) (s : string) :
  includes sep s = true ->
  exists a b, s = a +:+ String sep b /\ includes sep b = false.
Proof.
  induction s as [|c s IH]; cbn; [done|].
  destruct (includes sep s) eqn:Hs.
  - intros _. destruct (IH eq_refl) as (a & b & -> & Hb). by exists (String c a), b.
  - rewrite orb_false_r. intros ->%Ascii.eqb_eq. by exists EmptyString, s.
Qed.

(** C8. The extension is the last dot-segment with its dot when the
    filename has a dot, and empty otherwise; the name is what is left of the
    filename.  With the three filenames of the specification. *)
Theorem name_and_ext_spec :
  (forall a b : string,
      includes "." b = false -> name_and_ext (a +:+ "." +:+ b) = (a, "." +:+ b))
  /\ (forall s : string, includes "." s = false -> name_and_ext s = (s, EmptyString))
  /\ (forall s : string, includes "." s = true ->
                          exists a b, s = a +:+ "." +:+ b /\ includes "." b = false)
  /\ name_and_ext "photo.jpg" = ("photo", ".jpg")
  /\ name_and_ext "README" = ("README", EmptyString)
  /\ name_and_ext "archive.tar.gz" = ("archive.tar", ".gz").
Proof.
  split; [|split; [|split; [|by repeat split]]].
  - intros a b Hb. unfold name_and_ext.
    change ("." +:+ b) with (String "." b).
    rewrite split_at_sep, (split_without _ b Hb), length_app.
    pose proof (split_nonempty "." a) as Hne.
    assert ((1 <? length (split "." a) + length [b])%nat = true) as ->.
    { apply Nat.ltb_lt. destruct (split "." a); [done | cbn; lia]. }
    unfold pop. rewrite last_last, removelast_last.
    by rewrite (join_split "." a).
  - intros s Hs. unfold name_and_ext. by rewrite (split_without _ s Hs).
  - intros s Hs. apply (last_segment "." s Hs).
Qed.

Lemma name_and_ext_spec_witness :
  name_and_ext ("archive.tar" +:+ "." +:+ "gz") = ("archive.tar", "." +:+ "gz")
  /\ name_and_ext "README" = ("README", EmptyString).
Proof.
  destruct name_and_ext_spec as (Hdot & Hnone & _).
  split; [apply Hdot | apply Hnone]; reflexivity.
Defined.

End FilenameSpec.

Module SourceSpec.
Import Source.

(** Unfold the monad, so that a run of a program is a [match] on what each
    collaborator answers. *)
Ltac step_m :=
  unfold error, warning, Log_error, Log_warning, Log_log,
    cache_get, cache_set, getNode, touchNode, createNode,
    emit, update, when, call, gets, try_catch, bind, ret, throw, get, modify in *.

(** *** Endpoint resolution *)

Lemma resolve_endpoints_ok (env : Env) (s h : string) (w : World) :
  Url.new_URL (platform env) s = Some h ->
  resolve_endpoints env s w
  = (Ok tt,
     with_plugin (fun p => set_urlGraphqlSystem (Url.resolved (platform env) h).2
                             (set_urlGraphql (Url.resolved (platform env) h).1.2
                                (set_url (Url.resolved (platform env) h).1.1 p))) w).
Proof.
  intros Hnew. unfold resolve_endpoints. step_m. rewrite Hnew. reflexivity.
Qed.

Lemma resolve_endpoints_fail (env : Env) (s : string) (w : World) :
  Url.new_URL (platform env) s = None ->
  resolve_endpoints env s w
  = (Throw (JsError (tag +:+ ": " +:+ dq +:+ "url" +:+ dq +:+ " should be a valid URL")),
     with_trace (fun t => t ++ [Console "red" (dq +:+ "url" +:+ dq +:+ " should be a valid URL")]) w).
Proof.
  intros Hnew. unfold resolve_endpoints. step_m. rewrite Hnew. reflexivity.
Qed.






(** *** Session establishment *)

Section WithEnv.
Context (env : Env).

Lemma setOptions_established (o : Options) (w : World) :
  is_Some (directus (plugin w)) -> isEmpty (opt_url o) = false ->
  setOptions env o w = (Ok (authPromise (plugin w)), w).
Proof.
  intros [d Hd] Hurl. unfold setOptions. step_m. rewrite Hurl. cbn. by rewrite Hd.
Qed.

Lemma setOptions_without_url (o : Options) (w : World) :
  isEmpty (opt_url o) = true ->
  setOptions env o w
  = (Throw (JsError (tag +:+ ": " +:+ dq +:+ "url" +:+ dq +:+ " must be defined")),
     with_trace (fun t => t ++ [Console "red" (dq +:+ "url" +:+ dq +:+ " must be defined")]) w).
Proof. intros Hurl. unfold setOptions. step_m. by rewrite Hurl. Qed.

(** Run [setOptions] by cases on what the collaborators answer, with the
    endpoint resolution kept as one step. *)
Ltac run_setOptions H :=
  unfold setOptions, authenticate, auth_static, auth_login, refresh_seconds in H;
  step_m; cbn in H;
  repeat (case_match; simplify_eq; cbn in *; try done);
  repeat match goal with
    | Hres : resolve_endpoints ?e ?s ?w0 = _ |- _ =>
        let Hnew := fresh "Hnew" in
        destruct (Url.new_URL (platform e) s) as [?h|] eqn:Hnew;
        [ rewrite (resolve_endpoints_ok e s _ w0 Hnew) in Hres
        | rewrite (resolve_endpoints_fail e s w0 Hnew) in Hres ];
        simplify_eq; cbn in *
    end.

Lemma setOptions_ok_inv (o : Options) (w w' : World) (a : AuthResult) :
  setOptions env o w = (Ok a, w') ->
  is_Some (directus (plugin w')) /\ authPromise (plugin w') = a
  /\ isEmpty (opt_url o) = false.
Proof.
  intros H. run_setOptions H; eauto.
Qed.

(** What [setOptions] throws: an error of [error]; or what the [ms]
    package threw on the refresh string; or the [TypeError] of reading the
    message of a [null] with which the SDK rejected. *)
Lemma setOptions_throw_tagged (o : Options) (w w' : World) (e : Exn) :
  setOptions env o w = (Throw e, w') ->
  (exists message, e = JsError (tag +:+ ": " +:+ message))
  \/ (exists d s, opt_dev o = Some d /\ refresh d = VStr s /\ ms env s = Throw e)
  \/ (e = JsTypeError "Cannot read properties of null (reading 'message')"
      /\ exists d,
          directus (plugin w') = Some d
          /\ (remote_static env (base d) (str (auth_field token (opt_auth o)))
              = Throw ThrownNull
              \/ remote_login env (base d) (str (auth_field email (opt_auth o)))
                   (str (auth_field password (opt_auth o))) = Throw ThrownNull)).
Proof.
  intros H. run_setOptions H;
    try match goal with
        | Hm : message_of ?e0 = None |- _ => destruct e0; try done
        end;
    first [ solve [left; eexists; reflexivity]
          | solve [right; left; eauto]
          | solve [right; right; split; [reflexivity|];
                   eexists; split; [reflexivity|]; eauto] ].
Qed.

(** Without an email and password pair, [setOptions] never logs in. *)
Lemma setOptions_no_login (o : Options) (w w' : World) (r : Result AuthResult) :
  negb (isEmpty (auth_field email (opt_auth o)))
  && negb (isEmpty (auth_field password (opt_auth o))) = false ->
  setOptions env o w = (r, w') -> logins (trace w') = logins (trace w).
Proof.
  intros Hcred H. unfold logins.
  run_setOptions H; rewrite ?List.filter_app, ?app_nil_r; try done.
Qed.

End WithEnv.

(** C6, as the program has it.  Once [setOptions] has established a
    session, calling it again with any options that carry a [url], the same
    ones or new ones, changes nothing and returns the session that is held:
    new options are ignored, not rejected. *)
Theorem setOptions_write_once (env : Env) (first again : Options) (w w' : World)
    (session : AuthResult) :
  setOptions env first w = (Ok session, w') ->
  isEmpty (opt_url again) = false ->
  setOptions env first w' = (Ok session, w')
  /\ setOptions env again w' = (Ok session, w').
Proof.
  intros Hfirst Hurl.
  destruct (setOptions_ok_inv env first w w' session Hfirst) as (Hd & <- & Hurl1).
  split; by apply setOptions_established.
Qed.

Lemma setOptions_write_once_witness :
  exists w',
    setOptions (friendly []) with_token initial = (Ok StaticAccepted, w')
    /\ setOptions (friendly []) with_token w' = (Ok StaticAccepted, w')
    /\ setOptions (friendly []) with_password w' = (Ok StaticAccepted, w').
Proof.
  exists (setOptions (friendly []) with_token initial).2.
  split; [by vm_compute|].
  apply (setOptions_write_once (friendly []) with_token with_password initial);
    by vm_compute.
Defined.

(** C6, as the claim puts it, fails: with a session held for the
    static-token options, a call with other options (another URL, an email
    and password) is not an error; it returns the held session and leaves
    the process as it is, without logging in. *)
Lemma new_options_are_ignored :
  let w' := (setOptions (friendly []) with_token initial).2 in
  opt_url with_password <> opt_url with_token
  /\ opt_auth with_password <> opt_auth with_token
  /\ setOptions (friendly []) with_password w' = (Ok StaticAccepted, w')
  /\ url (plugin w') = "https://cms.example/".
Proof. by vm_compute. Qed.

(** *** Error messages *)

Lemma error_tagged {A : Type} (message : string) (w : World) :
  @error A message w
  = (Throw (JsError ("gatsby-source-directus: " +:+ message)),
     with_trace (fun t => t ++ [Console "red" message]) w).
Proof. reflexivity. Qed.

Lemma next_not_ready (env : Env) (w : World) :
  directus (plugin w) = None ->
  next env iterateFiles w = (Throw (JsError "Directus is not instantiated"), w).
Proof. intros Hd. unfold next. step_m. cbn. by rewrite Hd. Qed.

Lemma imageFile_resolve_miss (source_id : string) (w : World) :
  cache w !! source_id = None ->
  imageFile_resolve source_id w
  = (Throw (JsError ("Cached image not found for id: " +:+ source_id)), w).
Proof. intros Hc. unfold imageFile_resolve. step_m. by rewrite Hc. Qed.

(** C9, as the program has it.  Every error raised through [error]
    carries the tag [gatsby-source-directus: ] before its message, and the
    configuration and authentication errors of [setOptions] are raised
    through it.  [setOptions] lets two other exceptions pass, as they are:
    what the [ms] package throws on the refresh string, and the [TypeError]
    of reading the message of a [null] with which the SDK rejected.  The
    enumerator's not-ready error and the resolver's cache-miss error are
    plain errors: their messages are [Directus is not instantiated] and
    [Cached image not found for id: ] followed by the id, without the tag. *)
Theorem errors_of_setOptions_are_tagged (env : Env) (o : Options) (w : World)
    (source_id : string) :
  (forall (A : Type) (message : string) (w0 : World),
      exists e, @error A message w0
                = (Throw e, with_trace (fun t => t ++ [Console "red" message]) w0)
                /\ message_of e = Some ("gatsby-source-directus: " +:+ message)
                /\ tagged e = true)
  /\ (forall e w', setOptions env o w = (Throw e, w') ->
        (tagged e = true /\ exists message, e = JsError (tag +:+ ": " +:+ message))
        \/ (exists d s, opt_dev o = Some d /\ refresh d = VStr s /\ ms env s = Throw e)
        \/ (e = JsTypeError "Cannot read properties of null (reading 'message')"
            /\ tagged e = false
            /\ exists d,
                directus (plugin w') = Some d
                /\ (remote_static env (base d) (str (auth_field token (opt_auth o)))
                    = Throw ThrownNull
                    \/ remote_login env (base d) (str (auth_field email (opt_auth o)))
                         (str (auth_field password (opt_auth o))) = Throw ThrownNull)))
  /\ (directus (plugin w) = None ->
      exists e, next env iterateFiles w = (Throw e, w)
                /\ message_of e = Some "Directus is not instantiated"
                /\ tagged e = false)
  /\ (cache w !! source_id = None ->
      exists e, imageFile_resolve source_id w = (Throw e, w)
                /\ message_of e = Some ("Cached image not found for id: " +:+ source_id)
                /\ tagged e = false).
Proof.
  split; [|split; [|split]].
  - intros A message w0. eexists. split; [apply error_tagged|]. by vm_compute.
  - intros e w' H.
    destruct (setOptions_throw_tagged env o w w' e H) as [[m ->] | [Hms | [-> Hnull]]].
    + left. split; [by vm_compute | by exists m].
    + right. by left.
    + right. right. by repeat split.
  - intros Hd. eexists. split; [by apply next_not_ready | done].
  - intros Hc. eexists. split; [by apply imageFile_resolve_miss | done].
Qed.

Lemma errors_of_setOptions_are_tagged_witness :
  tagged (JsError ("gatsby-source-directus: " +:+ dq +:+ "url" +:+ dq +:+ " must be defined"))
  = true
  /\ (exists e, next (friendly []) iterateFiles initial = (Throw e, initial)
                /\ tagged e = false)
  /\ (exists e, imageFile_resolve "42" initial = (Throw e, initial)
                /\ tagged e = false).
Proof.
  destruct (errors_of_setOptions_are_tagged (friendly [])
              {| opt_url := VUndefined; opt_dev := None; opt_auth := None;
                 opt_type := None; opt_concurrency := 10; opt_retries := 5;
                 opt_headers := NoHeaders |}
              initial "42") as (_ & Hset & Hnext & Hmiss).
  split; [|split].
  - destruct (Hset (JsError ("gatsby-source-directus: " +:+ dq +:+ "url" +:+ dq
                             +:+ " must be defined"))
                (with_trace (fun t => t ++ [Console "red" (dq +:+ "url" +:+ dq
                                                           +:+ " must be defined")])
                   initial) eq_refl)
      as [[Htag _] | [(d & s & Hdev & _) | [Hnull _]]];
      [exact Htag | discriminate Hdev | discriminate Hnull].
  - destruct (Hnext eq_refl) as (e & Hrun & _ & Htag). by exists e.
  - destruct (Hmiss eq_refl) as (e & Hrun & _ & Htag). by exists e.
Defined.

(** C9, as the claim puts it, fails: on a process without a session the
    enumerator throws [Directus is not instantiated], and on a miss the
    resolver throws [Cached image not found for id: 42]; neither message
    starts with the tag. *)
Lemma untagged_errors :
  next (friendly []) iterateFiles initial
  = (Throw (JsError "Directus is not instantiated"), initial)
  /\ tagged (JsError "Directus is not instantiated") = false
  /\ imageFile_resolve "42" initial
     = (Throw (JsError "Cached image not found for id: 42"), initial)
  /\ tagged (JsError "Cached image not found for id: 42") = false.
Proof. by vm_compute. Qed.

(** *** [sourceNodes] before any [setOptions] *)

(** C10. [sourceNodes] asks for the option bundle before it applies the
    options it is given: on an instance whose [options] are still [null]
    it fails with the [TypeError] of [Object.entries(null)], and the
    process is left as it was, without a session. *)
Theorem sourceNodes_before_setOptions (env : Env) (fuel : nat) (pluginOptions : Options)
    (w : World) :
  options (plugin w) = None ->
  sourceNodes env fuel pluginOptions w
  = Some (Throw (JsTypeError "Cannot convert undefined or null to object"), w).
Proof.
  intros Ho. unfold sourceNodes, sourceNodes_prelude, getOptions. step_m.
  by rewrite Ho.
Qed.

Lemma sourceNodes_before_setOptions_witness :
  sourceNodes (friendly [photo "a"]) 3 with_token initial
  = Some (Throw (JsTypeError "Cannot convert undefined or null to object"), initial)
  /\ directus (plugin initial) = None.
Proof.
  split; [|reflexivity].
  apply (sourceNodes_before_setOptions (friendly [photo "a"]) 3 with_token initial).
  reflexivity.
Defined.

(** *** [headers] *)

Lemma headers_unchanged (w w' : World) (r : Result (gmap string string)) :
  headers w = (r, w') -> w' = w.
Proof.
  unfold headers. step_m. intros H.
  repeat (case_match; simplify_eq; try done).
Qed.

Lemma headers_run (w : World) (d : Directus) (tok : string) (extra : gmap string string) :
  directus (plugin w) = Some d -> auth_token d = Some tok -> tok <> EmptyString ->
  supplied_headers w = Ok extra ->
  headers w = (Ok (<[ "Authorization" := "Bearer " +:+ tok ]> extra), w).
Proof.
  intros Hd Htok Hne Hextra. unfold headers, supplied_headers in *. step_m.
  rewrite Hd, Htok. apply String.eqb_neq in Hne. unfold Object_assign.
  destruct (options (plugin w)) as [o|]; [destruct (opt_headers o) as [|h|f]|].
  - injection Hextra as <-. by rewrite Hne, insert_union_singleton_l.
  - injection Hextra as <-.
    by rewrite Hne, (right_id_L ∅ (∪)), insert_union_singleton_l.
  - destruct (f tt) as [h|e]; [|done]. injection Hextra as <-.
    by rewrite Hne, (right_id_L ∅ (∪)), insert_union_singleton_l.
  - injection Hextra as <-. by rewrite Hne, insert_union_singleton_l.
Qed.

(** C7. With a session that holds a token, [headers()] returns the
    user-supplied headers (the static map, or what the user's function
    returns) with [Authorization: Bearer <token>] set on top, for the token
    the client holds at the time of the call: after the client has replaced
    its token, the next call carries the new one.  The call changes nothing
    in the process, so it performs no login exchange; and [setOptions] with
    options that have no email and password pair performs none either. *)
Theorem headers_carry_bearer (env : Env) (w : World) (d : Directus) (tok : string)
    (extra : gmap string string) :
  directus (plugin w) = Some d -> auth_token d = Some tok -> tok <> EmptyString ->
  supplied_headers w = Ok extra ->
  headers w = (Ok (<[ "Authorization" := "Bearer " +:+ tok ]> extra), w)
  /\ (<[ "Authorization" := "Bearer " +:+ tok ]> extra) !! "Authorization"
     = Some ("Bearer " +:+ tok)
  /\ (forall k, k <> "Authorization" ->
                (<[ "Authorization" := "Bearer " +:+ tok ]> extra) !! k = extra !! k)
  /\ (forall tok', tok' <> EmptyString ->
        headers (rotate_token tok' w)
        = (Ok (<[ "Authorization" := "Bearer " +:+ tok' ]> extra), rotate_token tok' w))
  /\ (forall o r w0 w1,
        negb (isEmpty (auth_field email (opt_auth o)))
        && negb (isEmpty (auth_field password (opt_auth o))) = false ->
        setOptions env o w0 = (r, w1) -> logins (trace w1) = logins (trace w0)).
Proof.
  intros Hd Htok Hne Hextra. split; [by apply (headers_run w d)|].
  split; [by rewrite lookup_insert_eq|].
  split; [intros k Hk; by rewrite lookup_insert_ne|].
  split.
  - intros tok' Hne'.
    apply (headers_run _ {| base := base d; auth_token := Some tok' |}); try done.
    unfold rotate_token. cbn. by rewrite Hd.
  - intros o r w0 w1. apply setOptions_no_login.
Qed.

Lemma headers_carry_bearer_witness :
  let w := (setOptions (friendly []) with_token initial).2 in
  headers w
  = (Ok (<[ "Authorization" := "Bearer static-token" ]> {[ "X-Build" := "1" ]}), w)
  /\ logins (trace w) = [].
Proof.
  cbv zeta.
  destruct (headers_carry_bearer (friendly [])
              (setOptions (friendly []) with_token initial).2
              {| base := "https://cms.example/"; auth_token := Some "static-token" |}
              "static-token" {[ "X-Build" := "1" ]}) as (Hrun & _ & _ & _ & Hlogin).
  - by vm_compute.
  - reflexivity.
  - discriminate.
  - by vm_compute.
  - split; [exact Hrun|].
    apply (Hlogin with_token (Ok StaticAccepted) initial); by vm_compute.
Defined.

(** *** The paginated enumerator *)

Section Paging.
Context (env : Env) (store : list FileRecord) (n : nat).
Hypothesis Hn : (1 <= n)%nat.
Hypothesis Hfiles : forall limit page_, remote_files env limit page_ = paged store limit page_.

Lemma next_at_page (g : Generator) (k : nat) (w : World) :
  ready n w -> at_page n g k ->
  next env g w
  = (Ok (Some (take n (drop (k * n) store)),
         {| at_ := AtYield (take n (drop (k * n) store)); hasMore := true;
            page := Z.of_nat (S k) |}),
     with_trace (fun t => t ++ [SdkReadFiles (Z.of_nat n) (Z.of_nat (S k))]) w).
Proof.
  intros [[d Hd] Hc] [[-> ->] | (prev & -> & Hprev)]; unfold next, to_next_yield; step_m; cbn.
  - rewrite Hd. cbn. rewrite Hd, Hc, Hfiles. unfold paged. cbn.
    by rewrite Nat2Z.id.
  - rewrite Hc. assert ((Z.of_nat (length prev) <? Z.of_nat n) = false) as ->
        by (apply Z.ltb_ge; lia).
    cbn. rewrite Hd, Hc, Hfiles. unfold paged. cbn.
    replace (Z.to_nat ((Z.of_nat k + 1 - 1) * Z.of_nat n)) with (k * n)%nat by lia.
    rewrite Nat2Z.id. by replace (Z.of_nat k + 1) with (Z.of_nat (S k)) by lia.
Qed.

Lemma next_after_short (prev : list FileRecord) (p : Z) (w : World) :
  ready n w -> (length prev < n)%nat ->
  next env {| at_ := AtYield prev; hasMore := true; page := p |} w
  = (Ok (None, {| at_ := Returned; hasMore := false; page := p |}), w).
Proof.
  intros [_ Hc] Hprev. unfold next, to_next_yield. step_m. cbn. rewrite Hc.
  by assert ((Z.of_nat (length prev) <? Z.of_nat n) = true) as ->
      by (apply Z.ltb_lt; lia).
Qed.

(** A loop whose body leaves the plugin instance alone goes through the
    batches of the store, page after page. *)
Lemma for_await_from {A} (body : list FileRecord -> A -> M World (Step A)) :
  (forall files acc w, plugin (body files acc w).2 = plugin w) ->
  forall (fl : nat) (l : list FileRecord) (k : nat) (g : Generator) (acc : A)
         (w : World) (fuel : nat),
    l = drop (k * n) store -> (length l < fl)%nat ->
    ready n w -> at_page n g k ->
    (length (batches_of fl n l) < fuel)%nat ->
    for_await env fuel body g acc w
    = Some (run_batches body (Z.of_nat n) (Z.of_nat (S k)) (batches_of fl n l) acc w).
Proof.
  intros Hbody. induction fl as [|fl IH]; intros l k g acc w fuel Hl Hlen Hready Hat Hfuel;
    [lia|].
  destruct fuel as [|fuel]; [lia|].
  cbn [for_await batches_of] in *. rewrite (next_at_page g k w Hready Hat), <- Hl.
  destruct (Nat.ltb_spec (length l) n) as [Hshort|Hfull].
  - rewrite (take_ge l n) by lia. cbn [run_batches].
    pose proof (Hbody l acc
      (with_trace (fun t => t ++ [SdkReadFiles (Z.of_nat n) (Z.of_nat (S k))]) w)) as Hp.
    destruct (body l acc _) as [[[a|a]|e] w2]; try done.
    cbn in Hfuel. destruct fuel as [|fuel]; [lia|]. cbn [for_await].
    rewrite next_after_short; [done | | done].
    unfold ready. cbn in Hp. by rewrite Hp.
  - cbn [run_batches].
    pose proof (Hbody (take n l) acc
      (with_trace (fun t => t ++ [SdkReadFiles (Z.of_nat n) (Z.of_nat (S k))]) w)) as Hp.
    destruct (body (take n l) acc _) as [[[a|a]|e] w2]; try done.
    replace (Z.of_nat (S k) + 1) with (Z.of_nat (S (S k))) by lia.
    apply IH.
    + rewrite Hl, drop_drop. f_equal. lia.
    + rewrite length_drop. lia.
    + unfold ready. cbn in Hp. by rewrite Hp.
    + right. eexists. split; [done|]. rewrite length_take. lia.
    + cbn in Hfuel. lia.
Qed.

Lemma for_await_paged {A} (body : list FileRecord -> A -> M World (Step A))
    (acc : A) (w : World) (fuel : nat) :
  (forall files acc w, plugin (body files acc w).2 = plugin w) ->
  ready n w ->
  (length (batches_of (S (length store)) n store) < fuel)%nat ->
  for_await env fuel body iterateFiles acc w
  = Some (run_batches body (Z.of_nat n) 1 (batches_of (S (length store)) n store) acc w).
Proof.
  intros Hbody Hready Hfuel.
  apply (for_await_from body Hbody (S (length store)) store 0); try done; try lia.
  by left.
Qed.

(** The batches of a store. *)

Lemma full_page_div (m : nat) : (n <= m -> m / n = (m - n) / n + 1)%nat.
Proof.
  intros Hm. replace m with ((m - n) + 1 * n)%nat at 1 by lia.
  rewrite Nat.div_add by lia. lia.
Qed.

Lemma full_page_mod (m : nat) : (n <= m -> m mod n = (m - n) mod n)%nat.
Proof.
  intros Hm. replace m with ((m - n) + 1 * n)%nat at 1 by lia.
  by rewrite Nat.Div0.mod_add.
Qed.

Lemma batches_of_concat (fl : nat) (l : list FileRecord) :
  (length l < fl)%nat -> concat (batches_of fl n l) = l.
Proof.
  revert l. induction fl as [|fl IH]; intros l Hlen; [lia|]. cbn [batches_of].
  destruct (Nat.ltb_spec (length l) n); cbn [concat].
  - by rewrite app_nil_r.
  - rewrite IH by (rewrite length_drop; lia). apply take_drop.
Qed.

Lemma batches_of_length (fl : nat) (l : list FileRecord) :
  (length l < fl)%nat -> length (batches_of fl n l) = (length l / n + 1)%nat.
Proof.
  revert l. induction fl as [|fl IH]; intros l Hlen; [lia|]. cbn [batches_of].
  destruct (Nat.ltb_spec (length l) n); cbn [length].
  - by rewrite Nat.div_small.
  - rewrite IH, length_drop by (rewrite length_drop; lia).
    rewrite (full_page_div (length l)) by done. lia.
Qed.

Lemma batches_of_lookup (fl : nat) (l : list FileRecord) (i : nat) (b : list FileRecord) :
  (length l < fl)%nat -> batches_of fl n l !! i = Some b ->
  length b = if decide (i < length l / n)%nat then n else (length l mod n)%nat.
Proof.
  revert l i. induction fl as [|fl IH]; intros l i Hlen; [lia|]. cbn [batches_of].
  destruct (Nat.ltb_spec (length l) n) as [Hshort|Hfull].
  - rewrite Nat.div_small, Nat.mod_small by done.
    destruct i as [|i]; [|done]. by intros [= <-].
  - intros Hb.
    rewrite (full_page_div (length l)), (full_page_mod (length l)) by done.
    destruct i as [|i]; cbn in Hb.
    + injection Hb as <-. rewrite length_take. case_decide; lia.
    + apply IH in Hb; [|rewrite length_drop; lia].
      rewrite Hb, length_drop. repeat case_decide; lia.
Qed.

(** The batches that hold a record number [ceil(M / n)]. *)
Lemma batches_of_nonempty (fl : nat) (l : list FileRecord) :
  (length l < fl)%nat ->
  length (List.filter (fun b => negb (length b =? 0)%nat) (batches_of fl n l))
  = ((length l + n - 1) / n)%nat.
Proof.
  revert l. induction fl as [|fl IH]; intros l Hlen; [lia|]. cbn [batches_of].
  destruct (Nat.ltb_spec (length l) n) as [Hshort|Hfull].
  - destruct l as [|file l]; cbn [List.filter length Nat.eqb negb] in *.
    + rewrite Nat.div_small; lia.
    + rewrite (full_page_div (S (length l) + n - 1)) by lia.
      rewrite Nat.div_small; lia.
  - cbn [List.filter]. rewrite length_take.
    replace (negb (n `min` length l =? 0)%nat) with true
      by (symmetry; apply negb_true_iff, Nat.eqb_neq; lia).
    cbn [length]. rewrite IH, length_drop by (rewrite length_drop; lia).
    rewrite (full_page_div (length l + n - 1)) by lia.
    replace (length l - n + n - 1)%nat with (length l + n - 1 - n)%nat by lia. lia.
Qed.

Lemma run_batches_push (batches : list (list FileRecord)) :
  forall (p : Z) (acc : list (list FileRecord)) (w : World),
    run_batches (fun files acc => ret (Continue (acc ++ [files]))) (Z.of_nat n) p batches acc w
    = (Ok (acc ++ batches),
       with_trace (fun t => t ++ ((fun i => SdkReadFiles (Z.of_nat n) (p + Z.of_nat i))
                                  <$> seq 0 (length batches))) w).
Proof.
  induction batches as [|b batches IH]; intros p acc w; cbn.
  - rewrite app_nil_r. destruct w. unfold with_trace. cbn. by rewrite app_nil_r.
  - unfold ret at 1. rewrite IH. f_equal; [by rewrite <- app_assoc|].
    unfold with_trace. cbn. f_equal. rewrite <- app_assoc. cbn. do 2 f_equal.
    + f_equal. lia.
    + rewrite <- (fmap_S_seq 0), <- list_fmap_compose. apply list_fmap_ext.
      intros _ i _. cbn. f_equal. lia.
Qed.

Lemma pages_read_reads (limit p : Z) (m : nat) :
  pages_read ((fun i => SdkReadFiles limit (p + Z.of_nat i)) <$> seq 0 m)
  = (fun i => p + Z.of_nat i) <$> seq 0 m.
Proof.
  unfold pages_read. generalize 0%nat. induction m as [|m IH]; intros j; cbn; [done|].
  by rewrite IH.
Qed.

End Paging.

(** C2, as the program has it.  With page size [n >= 1] over a store of
    [M] records, the enumerator run to its end yields [M / n + 1] batches
    (quotient rounded down): [M / n] batches of [n] records, then one last
    batch of the [M mod n] records that are left, which is empty when [n]
    divides [M]; the batches that are not empty number [ceil(M / n)].  The
    batches together are the store, so they hold [M] records.  It reads the pages [1, 2, ..., M / n + 1] in this order: the
    next page after a full batch, nothing after the short one. *)
Theorem iterateFiles_batches (env : Env) (store : list FileRecord) (n : nat) (w : World) :
  (1 <= n)%nat ->
  (forall limit page_, remote_files env limit page_ = paged store limit page_) ->
  ready n w ->
  exists batches w',
    (forall fuel, (length store / n + 2 <= fuel)%nat ->
                  drain env fuel w = Some (Ok batches, w'))
    /\ length batches = (length store / n + 1)%nat
    /\ (forall i b, batches !! i = Some b ->
                    length b = if decide (i < length store / n)%nat then n
                               else (length store mod n)%nat)
    /\ length (List.filter (fun b => negb (length b =? 0)%nat) batches)
       = ((length store + n - 1) / n)%nat
    /\ concat batches = store
    /\ pages_read (trace w')
       = pages_read (trace w) ++ ((fun i => 1 + Z.of_nat i) <$> seq 0 (length store / n + 1))
    /\ (plugin w', cache w', nodes w') = (plugin w, cache w, nodes w).
Proof.
  intros Hn Hfiles Hready.
  pose proof (batches_of_length n Hn (S (length store)) store ltac:(lia)) as Hlen.
  eexists _, _. split; [|split; [|split; [|split; [|split; [|split]]]]].
  - intros fuel Hfuel. unfold drain.
    rewrite (for_await_paged env store n Hn Hfiles) by (done || lia).
    rewrite run_batches_push by done. reflexivity.
  - done.
  - intros i b. apply batches_of_lookup; [done | lia].
  - apply batches_of_nonempty; [done | lia].
  - apply batches_of_concat; [done | lia].
  - unfold with_trace. cbn [trace]. unfold pages_read. rewrite omap_app, Hlen.
    f_equal. apply (pages_read_reads (Z.of_nat n) 1).
  - done.
Qed.

Lemma iterateFiles_batches_witness :
  let w := (setOptions (friendly []) with_token initial).2 in
  exists w',
    drain (friendly [photo "a"; photo "b"; photo "c"]) 3 w
    = Some (Ok [[photo "a"; photo "b"]; [photo "c"]], w').
Proof.
  cbv zeta.
  destruct (iterateFiles_batches (friendly [photo "a"; photo "b"; photo "c"])
              [photo "a"; photo "b"; photo "c"] 2
              (setOptions (friendly []) with_token initial).2)
    as (batches & w' & Hrun & _).
  - lia.
  - reflexivity.
  - split; [by eexists | reflexivity].
  - exists w'. rewrite (Hrun 3%nat) by (cbn; lia). do 2 f_equal.
    specialize (Hrun 3%nat ltac:(cbn; lia)). vm_compute in Hrun.
    by injection Hrun as <- _.
Defined.

(** C2, as the claim puts it, fails when the page size divides the number
    of records: two records by pages of two give two batches, the second
    one empty, and not the one batch of [ceil(2 / 2)]. *)
Lemma one_batch_more_than_claimed :
  let w := (setOptions (friendly []) with_token initial).2 in
  concurrency (plugin w) = 2
  /\ exists w', drain (friendly [photo "a"; photo "b"]) 4 w
                = Some (Ok [[photo "a"; photo "b"]; []], w')
                /\ length [[photo "a"; photo "b"]; ([] : list FileRecord)]
                   <> ((2 + 2 - 1) / 2)%nat.
Proof.
  cbv zeta. split; [reflexivity|]. eexists. split; [by vm_compute|].
  by vm_compute.
Qed.

(** *** The asset sync *)

Section Sync.
Context (env : Env) (Authorization : option string).

Lemma sync_file_hit (file : FileRecord) (w : World) (nd : Node) :
  cached_node w file = Some nd ->
  sync_file env Authorization file w
  = (Ok tt, with_trace (fun t => t ++ [HostTouch nd]) w).
Proof.
  unfold cached_node, sync_file. step_m. intros Hc.
  destruct (cache w !! file_id file) as [nodeId|]; [|done]. by rewrite Hc.
Qed.

Lemma sync_file_run_miss (file : FileRecord) (w : World) :
  cached_node w file = None ->
  sync_file env Authorization file w
  = match remote_download env (download_request w Authorization file) with
    | Ok fileNode =>
        (Ok tt,
         {| plugin := plugin w;
            cache := <[ file_id file := node_id fileNode ]> (cache w);
            nodes := <[ node_id fileNode := fileNode ]> (nodes w);
            trace := trace w ++ [HostDownload (download_request w Authorization file);
                                 HostCreateNode fileNode;
                                 HostCacheSet (file_id file) (node_id fileNode)] |})
    | Throw e =>
        (Throw e,
         with_trace (fun t => t ++ [HostDownload (download_request w Authorization file)]) w)
    end.
Proof.
  unfold cached_node, sync_file, createRemoteFileNode, download_request. step_m.
  intros Hc.
  destruct (Filename.name_and_ext (filename_download file)) as [name_ ext]. cbn.
  destruct (cache w !! file_id file) as [nodeId|]; rewrite ?Hc;
    (destruct (remote_download env _) as [fileNode|e]; [|done]);
    unfold with_trace, with_cache, with_nodes; cbn;
    by rewrite <- !app_assoc.
Qed.

Lemma sync_file_miss (file : FileRecord) (w : World) (fileNode : Node) :
  cached_node w file = None ->
  remote_download env (download_request w Authorization file) = Ok fileNode ->
  sync_file env Authorization file w
  = (Ok tt,
     {| plugin := plugin w;
        cache := <[ file_id file := node_id fileNode ]> (cache w);
        nodes := <[ node_id fileNode := fileNode ]> (nodes w);
        trace := trace w ++ [HostDownload (download_request w Authorization file);
                             HostCreateNode fileNode;
                             HostCacheSet (file_id file) (node_id fileNode)] |}).
Proof. intros Hc Hd. by rewrite sync_file_run_miss, Hd. Qed.

Lemma sync_file_plugin (file : FileRecord) (w : World) :
  plugin (sync_file env Authorization file w).2 = plugin w.
Proof.
  destruct (cached_node w file) as [nd|] eqn:Hc.
  - by rewrite (sync_file_hit file w nd).
  - rewrite sync_file_run_miss by done. by destruct (remote_download env _).
Qed.

(** A file with a live cache entry still has one after any other file has
    been processed. *)
Lemma sync_file_keeps (file other : FileRecord) (w : World) :
  is_Some (cached_node w file) ->
  is_Some (cached_node (sync_file env Authorization other w).2 file).
Proof.
  intros Hfile. destruct (cached_node w other) as [nd|] eqn:Hc.
  - by rewrite (sync_file_hit other w nd).
  - rewrite sync_file_run_miss by done.
    destruct (remote_download env _) as [fileNode|e]; [|done].
    unfold cached_node in *. cbn.
    destruct (decide (file_id other = file_id file)) as [->|Hne].
    + by rewrite !lookup_insert_eq.
    + rewrite lookup_insert_ne by done.
      destruct (cache w !! file_id file) as [nodeId|]; [|by destruct Hfile].
      destruct (decide (node_id fileNode = nodeId)) as [->|Hnode].
      * by rewrite lookup_insert_eq.
      * by rewrite lookup_insert_ne.
Qed.

(** A file that has been processed without failure has a live cache entry. *)
Lemma sync_file_ok (file : FileRecord) (w w' : World) :
  sync_file env Authorization file w = (Ok tt, w') -> is_Some (cached_node w' file).
Proof.
  destruct (cached_node w file) as [nd|] eqn:Hc.
  - rewrite (sync_file_hit file w nd) by done. intros [= <-].
    unfold cached_node in *. cbn. by rewrite Hc.
  - rewrite sync_file_run_miss by done.
    destruct (remote_download env _) as [fileNode|e]; [|done]. intros [= <-].
    unfold cached_node. cbn. by rewrite !lookup_insert_eq.
Qed.

Lemma Promise_all_plugin (files : list FileRecord) (w : World) :
  plugin (Promise_all (map (sync_file env Authorization) files) w).2 = plugin w.
Proof.
  revert w. induction files as [|file files IH]; intros w; [done|].
  cbn [map Promise_all].
  pose proof (sync_file_plugin file w) as Hp.
  destruct (sync_file env Authorization file w) as [[[]|e] w1]; cbn [snd] in Hp.
  - specialize (IH w1).
    destruct (Promise_all (map (sync_file env Authorization) files) w1) as [[r|e] w2];
      cbn [snd] in *; congruence.
  - cbn [snd]. by rewrite IH.
Qed.

Lemma Promise_all_keeps (file : FileRecord) (files : list FileRecord) (w : World) :
  is_Some (cached_node w file) ->
  is_Some (cached_node (Promise_all (map (sync_file env Authorization) files) w).2 file).
Proof.
  revert w. induction files as [|other files IH]; intros w Hfile; [done|].
  cbn [map Promise_all].
  pose proof (sync_file_keeps file other w Hfile) as Hk.
  destruct (sync_file env Authorization other w) as [[[]|e] w1]; cbn [snd] in Hk.
  - specialize (IH w1 Hk).
    by destruct (Promise_all (map (sync_file env Authorization) files) w1) as [[r|e] w2].
  - by apply IH.
Qed.

Lemma Promise_all_ok (files : list FileRecord) (w w' : World) (r : list unit) :
  Promise_all (map (sync_file env Authorization) files) w = (Ok r, w') ->
  Forall (fun file => is_Some (cached_node w' file)) files.
Proof.
  revert w r. induction files as [|file files IH]; intros w r; [done|].
  cbn [map Promise_all].
  destruct (sync_file env Authorization file w) as [[[]|e] w1] eqn:Hfile; [|done].
  pose proof (Promise_all_keeps file files w1 (sync_file_ok file w w1 Hfile)) as Hk.
  destruct (Promise_all (map (sync_file env Authorization) files) w1)
    as [[r'|e] w2] eqn:Hrest; [|done].
  intros [= <- <-]. constructor; [done | by eapply IH].
Qed.

(** A batch of files that all have a live cache entry: one touch each. *)
Lemma Promise_all_hits (files : list FileRecord) (w : World) :
  Forall (fun file => is_Some (cached_node w file)) files ->
  Promise_all (map (sync_file env Authorization) files) w
  = (Ok (map (fun _ => tt) files),
     with_trace (fun t => t ++ (HostTouch <$> omap (cached_node w) files)) w).
Proof.
  revert w. induction files as [|file files IH]; intros w Hall.
  - cbn. unfold ret, with_trace. destruct w. cbn. by rewrite app_nil_r.
  - apply Forall_cons in Hall as [[nd Hnd] Hall]. cbn [map Promise_all omap list_omap].
    rewrite (sync_file_hit file w nd Hnd), Hnd.
    rewrite (IH (with_trace (fun t => t ++ [HostTouch nd]) w)) by done.
    unfold with_trace. cbn. by rewrite <- app_assoc.
Qed.

Lemma sync_batch_plugin (files : list FileRecord) (acc : unit) (w : World) :
  plugin (sync_batch env Authorization files acc w).2 = plugin w.
Proof.
  unfold sync_batch. destruct (length files =? 0)%nat; [done|]. step_m.
  pose proof (Promise_all_plugin files w) as Hp.
  by destruct (Promise_all _ w) as [[r|e] w1].
Qed.

Lemma sync_batch_hits (files : list FileRecord) (w : World) :
  files <> [] ->
  Forall (fun file => is_Some (cached_node w file)) files ->
  sync_batch env Authorization files tt w
  = (Ok (Continue tt),
     with_trace (fun t => t ++ (HostTouch <$> omap (cached_node w) files)) w).
Proof.
  intros Hne Hall. unfold sync_batch. destruct files as [|file files]; [done|].
  cbn [length Nat.eqb]. step_m. by rewrite (Promise_all_hits _ w Hall).
Qed.

(** What a pass over one batch leaves behind when it does not fail. *)
Lemma sync_batch_ok (files : list FileRecord) (w w' : World) (s : Step unit) :
  sync_batch env Authorization files tt w = (Ok s, w') ->
  (forall file, is_Some (cached_node w file) -> is_Some (cached_node w' file))
  /\ Forall (fun file => is_Some (cached_node w' file)) files
  /\ (files <> [] -> s = Continue tt).
Proof.
  unfold sync_batch. destruct files as [|file files].
  - intros [= <- <-]. done.
  - cbn [length Nat.eqb]. step_m.
    pose proof (Promise_all_ok (file :: files) w) as Hok.
    pose proof (fun other => Promise_all_keeps other (file :: files) w) as Hkeep.
    destruct (Promise_all (map (sync_file env Authorization) (file :: files)) w)
      as [[r|e] w2]; [|done].
    intros [= <- <-]. split; [exact Hkeep|]. split; [by eapply Hok | done].
Qed.

End Sync.

(** The events of a run that only touches. *)

Lemma touched_touches (nds : list Node) : touched (HostTouch <$> nds) = nds.
Proof. unfold touched. induction nds as [|nd nds IH]; cbn; [done | by f_equal]. Qed.

Lemma downloads_touches (nds : list Node) : downloads (HostTouch <$> nds) = [].
Proof. induction nds as [|nd nds IH]; cbn; done. Qed.

Lemma cache_writes_touches (nds : list Node) : cache_writes (HostTouch <$> nds) = [].
Proof. induction nds as [|nd nds IH]; cbn; done. Qed.

Lemma touched_app (a b : list Event) : touched (a ++ b) = touched a ++ touched b.
Proof. apply omap_app. Qed.

Lemma downloads_app (a b : list Event) : downloads (a ++ b) = downloads a ++ downloads b.
Proof. apply List.filter_app. Qed.

Lemma cache_writes_app (a b : list Event) :
  cache_writes (a ++ b) = cache_writes a ++ cache_writes b.
Proof. apply List.filter_app. Qed.

Lemma omap_all_some {A B} (f : A -> option B) (l : list A) :
  Forall (fun x => is_Some (f x)) l -> Forall2 (fun x y => f x = Some y) l (omap f l).
Proof.
  induction 1 as [|x l [y Hy] _ IH]; cbn; [constructor|].
  rewrite Hy. by constructor.
Qed.

Lemma with_trace_app (a b : list Event) (w : World) :
  with_trace (fun t => t ++ b) (with_trace (fun t => t ++ a) w)
  = with_trace (fun t => t ++ (a ++ b)) w.
Proof. unfold with_trace. cbn. by rewrite <- app_assoc. Qed.

Section Rerun.
Context (env : Env) (store : list FileRecord) (n : nat).
Hypothesis Hn : (1 <= n)%nat.
Context (Authorization : option string).

(** Over files that all have a live cache entry, the loop only reads pages
    and touches: one touch for each file, in order. *)
Lemma run_sync_cached (fl : nat) :
  forall (l : list FileRecord) (p : Z) (w : World),
    (length l < fl)%nat ->
    Forall (fun file => is_Some (cached_node w file)) l ->
    exists t,
      run_batches (sync_batch env Authorization) (Z.of_nat n) p (batches_of fl n l) tt w
      = (Ok tt, with_trace (fun t0 => t0 ++ t) w)
      /\ downloads t = [] /\ cache_writes t = []
      /\ touched t = omap (cached_node w) l.
Proof.
  induction fl as [|fl IH]; intros l p w Hlen Hall; [lia|].
  cbn [batches_of]. destruct (Nat.ltb_spec (length l) n) as [Hshort|Hfull].
  - cbn [run_batches]. destruct l as [|file l].
    + exists [SdkReadFiles (Z.of_nat n) p]. done.
    + rewrite (sync_batch_hits env Authorization (file :: l)
                 (with_trace (fun t => t ++ [SdkReadFiles (Z.of_nat n) p]) w))
        by done.
      rewrite with_trace_app.
      change (omap (cached_node (with_trace _ w)) (file :: l))
        with (omap (cached_node w) (file :: l)).
      eexists. split; [reflexivity|].
      split; [apply downloads_touches|].
      split; [apply cache_writes_touches | apply touched_touches].
  - cbn [run_batches].
    rewrite (sync_batch_hits env Authorization (take n l)
               (with_trace (fun t => t ++ [SdkReadFiles (Z.of_nat n) p]) w)).
    2: { intros Hnil. apply (f_equal length) in Hnil.
         rewrite length_take in Hnil. cbn in Hnil. lia. }
    2: { by apply Forall_take. }
    rewrite with_trace_app.
    change (omap (cached_node (with_trace _ w)) (take n l))
      with (omap (cached_node w) (take n l)).
    destruct (IH (drop n l) (p + 1)
                (with_trace (fun t => t ++ [SdkReadFiles (Z.of_nat n) p]
                                        ++ (HostTouch <$> omap (cached_node w) (take n l))) w))
      as (t & Hrun & Hd & Hc & Ht).
    + rewrite length_drop. lia.
    + by apply Forall_drop.
    + rewrite Hrun, with_trace_app. eexists. split; [reflexivity|].
      change (omap (cached_node (with_trace _ w)) (drop n l))
        with (omap (cached_node w) (drop n l)) in Ht.
      rewrite !downloads_app, !cache_writes_app, !touched_app, Hd, Hc, Ht.
      rewrite downloads_touches, cache_writes_touches, touched_touches.
      split; [done|]. split; [done|].
      change (touched [SdkReadFiles (Z.of_nat n) p]) with (@nil Node).
      rewrite app_nil_l, <- omap_app. by rewrite take_drop.
Qed.

(** A loop that ends without failure leaves every file of the store with
    a live cache entry. *)
Lemma run_sync_ok (fl : nat) :
  forall (l : list FileRecord) (p : Z) (w w' : World),
    (length l < fl)%nat ->
    run_batches (sync_batch env Authorization) (Z.of_nat n) p (batches_of fl n l) tt w
    = (Ok tt, w') ->
    (forall file, is_Some (cached_node w file) -> is_Some (cached_node w' file))
    /\ Forall (fun file => is_Some (cached_node w' file)) l
    /\ plugin w' = plugin w.
Proof.
  induction fl as [|fl IH]; intros l p w w' Hlen; [lia|].
  cbn [batches_of]. destruct (Nat.ltb_spec (length l) n) as [Hshort|Hfull].
  - cbn [run_batches].
    pose proof (sync_batch_ok env Authorization l
                  (with_trace (fun t => t ++ [SdkReadFiles (Z.of_nat n) p]) w)) as Hok.
    pose proof (sync_batch_plugin env Authorization l tt
                  (with_trace (fun t => t ++ [SdkReadFiles (Z.of_nat n) p]) w)) as Hp.
    destruct (sync_batch env Authorization l tt _) as [[s|e] w2]; [|by destruct e].
    destruct (Hok w2 s eq_refl) as (Hmono & Hall & _).
    destruct s as [[]|[]]; intros [= <-]; done.
  - cbn [run_batches].
    pose proof (sync_batch_ok env Authorization (take n l)
                  (with_trace (fun t => t ++ [SdkReadFiles (Z.of_nat n) p]) w)) as Hok.
    pose proof (sync_batch_plugin env Authorization (take n l) tt
                  (with_trace (fun t => t ++ [SdkReadFiles (Z.of_nat n) p]) w)) as Hp.
    destruct (sync_batch env Authorization (take n l) tt _) as [[s|e] w2]; [|by destruct e].
    destruct (Hok w2 s eq_refl) as (Hmono & Hall & Hcont).
    rewrite Hcont.
    2: { intros Hnil. apply (f_equal length) in Hnil.
         rewrite length_take in Hnil. cbn in Hnil. lia. }
    intros Hrest. apply IH in Hrest as (Hmono' & Hdrop & Hp'); [|rewrite length_drop; lia].
    split; [|split].
    + intros file Hfile. by apply Hmono', Hmono.
    + rewrite <- (take_drop n l). apply Forall_app. split; [|done].
      eapply Forall_impl; [exact Hall|]. exact Hmono'.
    + cbn in Hp. by rewrite Hp'.
Qed.

End Rerun.

(** C3. For every file record the sync processes: with a cache entry whose
    node the host still holds, the node is touched, once, and that is all
    (no download, no cache write); without one, the file is downloaded from
    [<url>assets/<id>], its node is registered, and the cache maps the
    file's id to the node's id.  So after a sync that went through, a
    second sync over the same remote files downloads nothing, writes no
    cache entry, and touches the cached node of every file once, in the
    order of the store. *)
Theorem sync_reuses_cache (env : Env) (store : list FileRecord) (n : nat)
    (Authorization Authorization' : option string) (w w1 : World) (fuel : nat) :
  (1 <= n)%nat ->
  (forall limit page_, remote_files env limit page_ = paged store limit page_) ->
  ready n w ->
  (length store / n + 2 <= fuel)%nat ->
  (forall file w0 nd,
      cached_node w0 file = Some nd ->
      sync_file env Authorization file w0
      = (Ok tt, with_trace (fun t => t ++ [HostTouch nd]) w0))
  /\ (forall file w0 fileNode,
        cached_node w0 file = None ->
        remote_download env (download_request w0 Authorization file) = Ok fileNode ->
        sync_file env Authorization file w0
        = (Ok tt,
           {| plugin := plugin w0;
              cache := <[ file_id file := node_id fileNode ]> (cache w0);
              nodes := <[ node_id fileNode := fileNode ]> (nodes w0);
              trace := trace w0
                       ++ [HostDownload (download_request w0 Authorization file);
                           HostCreateNode fileNode;
                           HostCacheSet (file_id file) (node_id fileNode)] |}))
  /\ (sync_files env fuel Authorization w = Some (Ok tt, w1) ->
      exists t,
        sync_files env fuel Authorization' w1
        = Some (Ok tt, with_trace (fun t0 => t0 ++ t) w1)
        /\ downloads t = [] /\ cache_writes t = []
        /\ Forall2 (fun file nd => cached_node w1 file = Some nd) store (touched t)).
Proof.
  intros Hn Hfiles Hready Hfuel.
  split; [intros; by apply sync_file_hit|].
  split; [intros; by apply sync_file_miss|].
  pose proof (batches_of_length n Hn (S (length store)) store ltac:(lia)) as Hlen.
  unfold sync_files.
  rewrite (for_await_paged env store n Hn Hfiles);
    [| apply sync_batch_plugin | done | lia].
  intros Hfirst%(inj Some).
  apply (run_sync_ok env n Hn) in Hfirst as (_ & Hall & Hp); [|lia].
  rewrite (for_await_paged env store n Hn Hfiles);
    [| apply sync_batch_plugin | unfold ready; by rewrite Hp | lia].
  destruct (run_sync_cached env n Hn Authorization' (S (length store)) store 1 w1)
    as (t & -> & Hd & Hc & Ht); [lia | done |].
  exists t. split; [done|]. split; [done|]. split; [done|].
  rewrite Ht. by apply omap_all_some.
Qed.

Lemma sync_reuses_cache_witness :
  let env := friendly [photo "a"; photo "b"; photo "c"] in
  let w := (setOptions env with_token initial).2 in
  exists w1 t,
    sync_files env 3 (Some "Bearer static-token") w = Some (Ok tt, w1)
    /\ length (downloads (trace w1)) = 3%nat
    /\ sync_files env 3 (Some "Bearer static-token") w1
       = Some (Ok tt, with_trace (fun t0 => t0 ++ t) w1)
    /\ downloads t = []
    /\ length (touched t) = 3%nat.
Proof.
  intros env w.
  assert (exists w1, sync_files env 3 (Some "Bearer static-token") w = Some (Ok tt, w1)
                     /\ length (downloads (trace w1)) = 3%nat) as (w1 & Hfirst & Hdl).
  { vm_compute. eexists. split; reflexivity. }
  destruct (sync_reuses_cache env [photo "a"; photo "b"; photo "c"] 2
              (Some "Bearer static-token") (Some "Bearer static-token") w w1 3)
    as (_ & _ & Hrerun).
  - lia.
  - reflexivity.
  - split; [by eexists | reflexivity].
  - cbn. lia.
  - destruct (Hrerun Hfirst) as (t & Hrun & Hd & _ & Ht).
    exists w1, t. split; [exact Hfirst|]. split; [exact Hdl|].
    split; [exact Hrun|]. split; [exact Hd|].
    by rewrite <- (Forall2_length _ _ _ Ht).
Defined.

(** The scenario of the specification: three remote files, synced twice. *)
Example sync_twice :
  let env := friendly [photo "a"; photo "b"; photo "c"] in
  let w := (setOptions env with_token initial).2 in
  match sync_files env 3 (Some "Bearer static-token") w with
  | Some (Ok _, w1) =>
      length (downloads (trace w1)) = 3%nat
      /\ dom (cache w1) = {[ "a"; "b"; "c" ]}
      /\ match sync_files env 3 (Some "Bearer static-token") w1 with
         | Some (Ok _, w2) =>
             length (downloads (trace w2)) = 3%nat
             /\ length (touched (trace w2)) = 3%nat
             /\ cache w2 = cache w1
         | _ => False
         end
  | _ => False
  end.
Proof. by vm_compute. Qed.

End SourceSpec.

(** * Further properties *)

Module FetchMoreSpec.
Import Fetch FetchMore.

Section WithTransport.
Context {Init Response : Type}.
Variable nodeFetch : nat -> string -> Init -> Exn + Response.
Variables (uri : string) (options : Init).

Lemma first_answer_some (n : nat) :
  forall (from k : nat) (r : Response),
    first_answer nodeFetch uri options from n = Some (k, r) ->
    (k < n)%nat
    /\ (forall i, (i < k)%nat ->
                  nodeFetch (from + i)%nat uri options
                  = inl (rejection nodeFetch uri options from i))
    /\ nodeFetch (from + k)%nat uri options = inr r.
Proof.
  induction n as [|n IH]; intros from k r; cbn; [done|].
  destruct (nodeFetch from uri options) as [e|r'] eqn:Hfrom.
  - destruct (first_answer nodeFetch uri options (S from) n) as [[k' r'']|] eqn:Hrest;
      [|done].
    intros [= <- <-]. destruct (IH _ _ _ Hrest) as (Hk & Hfail & Hok).
    split; [lia|]. split.
    + intros [|i] Hi.
      * unfold rejection. by rewrite Nat.add_0_r, Hfrom.
      * unfold rejection. replace (from + S i)%nat with (S from + i)%nat by lia.
        apply Hfail. lia.
    + by replace (from + S k')%nat with (S from + k')%nat by lia.
  - intros [= <- <-]. split; [lia|]. split; [intros i Hi; lia|].
    by rewrite Nat.add_0_r.
Qed.

Lemma first_answer_none (n : nat) :
  forall from : nat,
    first_answer nodeFetch uri options from n = None ->
    forall i, (i < n)%nat ->
              nodeFetch (from + i)%nat uri options
              = inl (rejection nodeFetch uri options from i).
Proof.
  induction n as [|n IH]; intros from; cbn; [intros _ i Hi; lia|].
  destruct (nodeFetch from uri options) as [e|r'] eqn:Hfrom; [|done].
  destruct (first_answer nodeFetch uri options (S from) n) as [[k' r'']|] eqn:Hrest;
    [done|].
  intros _ [|i] Hi.
  - unfold rejection. by rewrite Nat.add_0_r, Hfrom.
  - unfold rejection. replace (from + S i)%nat with (S from + i)%nat by lia.
    apply (IH _ Hrest). lia.
Qed.

(** [fetch] on any transport, with enough fuel. *)
Lemma fetch_run (retries : Z) (w : Net) (fuel : nat) :
  (Z.to_nat retries + 1 <= fuel)%nat ->
  fetch nodeFetch fuel retries uri options w
  = Some ((outcome nodeFetch retries uri options (sent w)).1,
          after_rounds uri w (outcome nodeFetch retries uri options (sent w)).2).
Proof.
  intros Hfuel. unfold outcome.
  destruct (Z.le_gt_cases 0 retries) as [Hr|Hr].
  - destruct (first_answer nodeFetch uri options (sent w) (Z.to_nat retries))
      as [[k r]|] eqn:Hfirst.
    + destruct (first_answer_some _ _ _ _ Hfirst) as (Hk & Hfail & Hok).
      apply (FetchSpec.fetch_success nodeFetch retries uri options k
               (rejection nodeFetch uri options (sent w))); [lia | done | done | lia].
    + apply (FetchSpec.fetch_exhausted nodeFetch retries uri options
               (rejection nodeFetch uri options (sent w))); [done | | done].
      intros i Hi. apply (first_answer_none _ _ Hfirst). lia.
  - replace (Z.to_nat retries) with 0%nat by lia. cbn [first_answer last_error fst snd].
    destruct fuel as [|fuel]; [lia|]. unfold fetch. cbn [fetch_loop response count].
    assert ((0 <? retries) = false) as -> by (apply Z.ltb_ge; lia).
    unfold after_rounds. cbn. rewrite Nat.add_0_r, app_nil_r. by destruct w.
Qed.

Lemma outcome_rounds (retries : Z) (from : nat) :
  ((outcome nodeFetch retries uri options from).2 <= Z.to_nat retries)%nat.
Proof.
  unfold outcome.
  destruct (first_answer nodeFetch uri options from (Z.to_nat retries))
    as [[k r]|] eqn:Hfirst; cbn; [|done].
  destruct (first_answer_some _ _ _ _ Hfirst) as (Hk & _). lia.
Qed.

End WithTransport.

Lemma add_delay_assoc (a b c : Delay) :
  add_delay (add_delay a b) c = add_delay a (add_delay b c).
Proof. destruct a, b, c; cbn; try done. f_equal. lia. Qed.

Lemma requested_app (a b : list Event) :
  requested (a ++ b) = add_delay (requested a) (requested b).
Proof.
  induction a as [|[u|d] a IH]; cbn [app requested].
  - by destruct (requested b).
  - done.
  - by rewrite IH, add_delay_assoc.
Qed.

Lemma requested_rounds (uri : string) (n : nat) :
  forall c : Z, 0 <= c <= 1014 ->
    requested (rounds uri c n)
    = if c + Z.of_nat n <=? 1014
      then Millis ((2 ^ (c + Z.of_nat n + 1) - 2 ^ (c + 1)) * 1000)
      else Infinity.
Proof.
  induction n as [|n IH]; intros c Hc.
  - cbn [rounds requested Z.of_nat]. rewrite Z.add_0_r.
    assert ((c <=? 1014) = true) as -> by (apply Z.leb_le; lia).
    f_equal. lia.
  - cbn [rounds requested]. unfold backoff.
    destruct (Z.leb_spec (c + 1) 1014) as [Hin|Hout].
    + rewrite IH by lia.
      replace (c + 1 + Z.of_nat n) with (c + Z.of_nat (S n)) by lia.
      destruct (c + Z.of_nat (S n) <=? 1014); [|done]. cbn [add_delay]. f_equal.
      replace (c + 1 + 1) with (Z.succ (c + 1)) by lia.
      rewrite (Z.pow_succ_r 2 (c + 1)) by lia. lia.
    + assert ((c + Z.of_nat (S n) <=? 1014) = false) as -> by (apply Z.leb_gt; lia).
      done.
Qed.

(** X1. On every transport, [fetch] ends (with fuel [retries + 1]): it
    returns the first response the transport gives within the first
    [retries] calls and stops calling; when none of them answers it throws
    the rejection of the last one; it never makes more than [retries]
    calls, and every call is followed by its timer. *)
Theorem fetch_on_any_transport {Init Response : Type}
    (nodeFetch : nat -> string -> Init -> Exn + Response)
    (retries : Z) (uri : string) (options : Init) (w : Net) (fuel : nat) :
  (Z.to_nat retries + 1 <= fuel)%nat ->
  exists (result : Result Response) (m : nat),
    fetch nodeFetch fuel retries uri options w
    = Some (result, {| sent := (sent w + m)%nat; trace := trace w ++ rounds uri 0 m |})
    /\ (m <= Z.to_nat retries)%nat
    /\ match first_answer nodeFetch uri options (sent w) (Z.to_nat retries) with
       | Some (k, r) =>
           result = Ok r /\ m = S k
           /\ nodeFetch (sent w + k)%nat uri options = inr r
           /\ forall i, (i < k)%nat ->
                        exists e, nodeFetch (sent w + i)%nat uri options = inl e
       | None =>
           m = Z.to_nat retries
           /\ (forall i, (i < m)%nat ->
                         exists e, nodeFetch (sent w + i)%nat uri options = inl e)
           /\ exists e, result = Throw e
                        /\ (m = 0%nat -> e = ThrownNull)
                        /\ (forall j, m = S j ->
                                      nodeFetch (sent w + j)%nat uri options = inl e)
       end.
Proof.
  intros Hfuel.
  exists (outcome nodeFetch retries uri options (sent w)).1,
         (outcome nodeFetch retries uri options (sent w)).2.
  split; [by apply fetch_run|]. split; [apply outcome_rounds|].
  unfold outcome.
  destruct (first_answer nodeFetch uri options (sent w) (Z.to_nat retries))
    as [[k r]|] eqn:Hfirst; cbn [fst snd].
  - destruct (first_answer_some _ _ _ _ _ _ _ Hfirst) as (Hk & Hfail & Hok).
    split; [done|]. split; [done|]. split; [done|].
    intros i Hi. eexists. by apply Hfail.
  - pose proof (first_answer_none _ _ _ _ _ Hfirst) as Hfail.
    split; [done|]. split; [intros i Hi; eexists; by apply Hfail|].
    eexists. split; [reflexivity|]. split.
    + by intros ->.
    + intros j Hj. rewrite Hj. cbn [last_error]. apply Hfail. lia.
Qed.

Lemma fetch_on_any_transport_witness :
  exists m,
    fetch flaky 6 5 "https://cms.example/graphql" tt {| sent := 1; trace := [] |}
    = Some (Ok "200 OK",
            {| sent := (1 + m)%nat;
               trace := [] ++ rounds "https://cms.example/graphql" 0 m |})
    /\ (m <= 5)%nat.
Proof.
  destruct (fetch_on_any_transport flaky 5 "https://cms.example/graphql" tt
              {| sent := 1; trace := [] |} 6) as (result & m & Hrun & Hm & Hfirst).
  - cbn. lia.
  - exists m. vm_compute in Hfirst. destruct Hfirst as (-> & _). by split.
Defined.

(** X2. The delays [fetch] asks its timers for depend only on the number
    [m] of transport calls it makes, which is at most [retries]: they add
    up to [(2 ^ (m + 1) - 2) * 1000] ms as long as [m <= 1014], and to
    [Infinity] beyond, where the double arithmetic of the last delay
    overflows.  A call that is answered has asked for at least one timer.
    (These are the arguments of [sleep]; what the platform's timer makes of
    a delay is not part of the program.) *)
Theorem fetch_backoff_total {Init Response : Type}
    (nodeFetch : nat -> string -> Init -> Exn + Response)
    (retries : Z) (uri : string) (options : Init) (w : Net) (fuel : nat) :
  (Z.to_nat retries + 1 <= fuel)%nat ->
  exists (result : Result Response) (w' : Net) (m : nat),
    fetch nodeFetch fuel retries uri options w = Some (result, w')
    /\ sent w' = (sent w + m)%nat
    /\ (m <= Z.to_nat retries)%nat
    /\ requested (trace w') = add_delay (requested (trace w)) (backoff_total m)
    /\ (forall r, result = Ok r -> (1 <= m)%nat).
Proof.
  intros Hfuel. eexists _, _, _. split; [by apply fetch_run|].
  pose proof (outcome_rounds nodeFetch uri options retries (sent w)) as Hm.
  set (m := (outcome nodeFetch retries uri options (sent w)).2) in *.
  unfold after_rounds. cbn [sent trace].
  split; [done|]. split; [done|]. split.
  - rewrite requested_app, requested_rounds by lia. unfold backoff_total.
    replace (0 + Z.of_nat m) with (Z.of_nat m) by lia.
    by change (2 ^ (0 + 1)) with 2.
  - intros r Hr. subst m. unfold outcome in *.
    destruct (first_answer nodeFetch uri options (sent w) (Z.to_nat retries))
      as [[k r']|]; cbn in *; [lia | done].
Qed.

Lemma fetch_backoff_total_witness :
  exists w',
    fetch down 6 5 "https://cms.example/graphql" tt {| sent := 0; trace := [] |}
    = Some (Throw (Rejected "ECONNRESET"), w')
    /\ sent w' = 5%nat
    /\ requested (trace w') = Millis 62000.
Proof.
  destruct (fetch_backoff_total down 5 "https://cms.example/graphql" tt
              {| sent := 0; trace := [] |} 6) as (result & w' & m & Hrun & Hm & _ & Hsum & _).
  - cbn. lia.
  - exists w'. vm_compute in Hrun. injection Hrun as <- <-.
    cbn in Hm. subst m. by split.
Defined.

(** X3. With a budget [retries <= 0] the transport is never called: [fetch]
    throws [null] at once, without any timer. *)
Theorem fetch_without_budget {Init Response : Type}
    (nodeFetch : nat -> string -> Init -> Exn + Response)
    (retries : Z) (uri : string) (options : Init) (w : Net) (fuel : nat) :
  retries <= 0 -> (1 <= fuel)%nat ->
  fetch nodeFetch fuel retries uri options w = Some (Throw ThrownNull, w).
Proof.
  intros Hr Hfuel. rewrite fetch_run by lia. unfold outcome.
  replace (Z.to_nat retries) with 0%nat by lia. cbn.
  unfold after_rounds. cbn. rewrite Nat.add_0_r, app_nil_r. by destruct w.
Qed.

Lemma fetch_without_budget_witness :
  fetch answering 1 0 "https://cms.example/graphql" tt {| sent := 0; trace := [] |}
  = Some (Throw ThrownNull, {| sent := 0; trace := [] |}).
Proof.
  apply (fetch_without_budget answering 0 "https://cms.example/graphql" tt
           {| sent := 0; trace := [] |} 1); lia.
Defined.

End FetchMoreSpec.

Module FilenameMoreSpec.
Import Filename.

Lemma name_and_ext_dotted (a b : string) :
  includes "." b = false -> name_and_ext (a +:+ String "." b) = (a, String "." b).
Proof.
  intros Hb. unfold name_and_ext.
  rewrite FilenameSpec.split_at_sep, (FilenameSpec.split_without _ b Hb), length_app.
  pose proof (FilenameSpec.split_nonempty "." a) as Hne.
  assert ((1 <? length (split "." a) + length [b])%nat = true) as ->.
  { apply Nat.ltb_lt. destruct (split "." a); [done | cbn; lia]. }
  unfold pop. rewrite last_last, removelast_last.
  by rewrite (FilenameSpec.join_split "." a).
Qed.

Lemma name_and_ext_plain (s : string) :
  includes "." s = false -> name_and_ext s = (s, EmptyString).
Proof.
  intros Hs. unfold name_and_ext. by rewrite (FilenameSpec.split_without _ s Hs).
Qed.

Lemma includes_append (c : ascii) (a b : string) :
  includes c (a +:+ b) = includes c a || includes c b.
Proof.
  induction a as [|x a IH]; cbn; [done|]. by rewrite IH, orb_assoc.
Qed.

(** X4. Nothing of a download filename is lost: the name followed by the
    extension is the filename again.  The extension is empty exactly when
    the filename has no dot, and otherwise it is a dot followed by a
    segment without dots. *)
Theorem name_and_ext_round_trip (filename : string) :
  (name_and_ext filename).1 +:+ (name_and_ext filename).2 = filename
  /\ String.eqb (name_and_ext filename).2 EmptyString = negb (includes "." filename)
  /\ ((name_and_ext filename).2 = EmptyString
      \/ exists seg, (name_and_ext filename).2 = String "." seg
                     /\ includes "." seg = false).
Proof.
  destruct (includes "." filename) eqn:Hdot.
  - destruct (FilenameSpec.last_segment "." filename Hdot) as (a & b & -> & Hb).
    rewrite (name_and_ext_dotted a b Hb). cbn [fst snd].
    split; [done|]. split; [done|]. right. by exists b.
  - rewrite (name_and_ext_plain filename Hdot). cbn [fst snd].
    split; [by rewrite UrlSpec.append_empty_r|]. split; [done|]. by left.
Qed.

End FilenameMoreSpec.

Module EstablishSpec.
Import Source SourceMore.

Ltac step_m :=
  unfold error, warning, Log_error, Log_warning, Log_log,
    cache_get, cache_set, getNode, touchNode, createNode,
    emit, update, when, call, gets, try_catch, bind, ret, throw, get, modify in *.

(** [setOptions] run with the endpoint resolution kept as one step. *)
Ltac run_setOptions H :=
  unfold setOptions, authenticate, auth_static, auth_login, refresh_seconds in H;
  step_m; cbn in H;
  repeat (case_match; simplify_eq; cbn in *; try done);
  repeat match goal with
    | Hres : resolve_endpoints ?e ?s ?w0 = _ |- _ =>
        let Hnew := fresh "Hnew" in
        destruct (Url.new_URL (platform e) s) as [?h|] eqn:Hnew;
        [ rewrite (SourceSpec.resolve_endpoints_ok e s _ w0 Hnew) in Hres
        | rewrite (SourceSpec.resolve_endpoints_fail e s w0 Hnew) in Hres ];
        simplify_eq; cbn in *
    end.

Section Establish.
Context (env : Env).

(** A failure that leaves no client behind changed nothing but the console. *)
Lemma setOptions_throw_early (o : Options) (w w' : World) (e : Exn) :
  directus (plugin w) = None ->
  setOptions env o w = (Throw e, w') ->
  directus (plugin w') = None ->
  tagged e = true /\ plugin w' = plugin w /\ cache w' = cache w /\ nodes w' = nodes w
  /\ auth_calls (trace w') = auth_calls (trace w).
Proof.
  intros Hd H Hd'. unfold auth_calls.
  run_setOptions H; rewrite ?List.filter_app, ?app_nil_r; try done.
Qed.

(** Options without a url, with an unusable [auth] block or with a url
    that the platform rejects fail before a client exists. *)
Lemma setOptions_bad_options (o : Options) (w w' : World) (r : Result AuthResult) :
  directus (plugin w) = None ->
  isEmpty (opt_url o) = true \/ unusable_auth o = true
  \/ Url.new_URL (platform env) (str (opt_url o)) = None ->
  setOptions env o w = (r, w') ->
  (exists e, r = Throw e) /\ directus (plugin w') = None.
Proof.
  intros Hd Hbad H. unfold unusable_auth, has_token, has_credentials in Hbad.
  run_setOptions H; eauto;
    destruct Hbad as [Hbad|[Hbad|Hbad]]; simplify_eq; cbn in *; try done;
    try (rewrite ?andb_true_r, ?andb_false_r in *; congruence).
Qed.

(** A failure that leaves a client behind left the options as they were. *)
Lemma setOptions_throw_late (o : Options) (w w' : World) (e : Exn) :
  directus (plugin w) = None ->
  setOptions env o w = (Throw e, w') ->
  is_Some (directus (plugin w')) ->
  options (plugin w') = options (plugin w)
  /\ concurrency (plugin w') = concurrency (plugin w)
  /\ retries (plugin w') = retries (plugin w).
Proof.
  intros Hd H Hd'. run_setOptions H; by destruct Hd'.
Qed.

(** What a first [setOptions] that succeeds leaves in the instance. *)
Lemma setOptions_ok_state (o : Options) (w w' : World) (a : AuthResult) :
  directus (plugin w) = None ->
  setOptions env o w = (Ok a, w') ->
  options (plugin w') = Some o
  /\ concurrency (plugin w') = opt_concurrency o
  /\ retries (plugin w') = opt_retries o
  /\ Number_isNaN (refreshInterval (plugin w')) = false
  /\ cache w' = cache w /\ nodes w' = nodes w
  /\ unusable_auth o = false
  /\ exists d, directus (plugin w') = Some d /\ base d = url (plugin w').
Proof.
  intros Hd H. unfold unusable_auth, has_token, has_credentials.
  run_setOptions H; rewrite ?H0, ?H1, ?H2; cbn; repeat split; eauto.
Qed.

End Establish.
End EstablishSpec.
Module ResolvedSpec.
Import Source SourceMore.

Ltac step_m :=
  unfold error, warning, Log_error, Log_warning, Log_log,
    cache_get, cache_set, getNode, touchNode, createNode,
    emit, update, when, call, gets, try_catch, bind, ret, throw, get, modify in *.

Section Establish.
Context (env : Env).

(** [setOptions] run with the endpoint resolution kept as one step. *)
Ltac run_setOptions_resolved H :=
  unfold setOptions, authenticate, auth_static, auth_login, refresh_seconds in H;
  step_m; cbn in H;
  repeat (case_match; simplify_eq; cbn in *; try done);
  repeat match goal with
    | Hres : resolve_endpoints ?e ?s ?w0 = _ |- _ =>
        let Hnew := fresh "Hnew" in
        destruct (Url.new_URL (platform e) s) as [?h|] eqn:Hnew;
        [ rewrite (SourceSpec.resolve_endpoints_ok e s _ w0 Hnew) in Hres
        | rewrite (SourceSpec.resolve_endpoints_fail e s w0 Hnew) in Hres ];
        simplify_eq; cbn in *
    end.

Lemma setOptions_ok_endpoints (o : Options) (w w' : World) (a : AuthResult) :
  directus (plugin w) = None ->
  setOptions env o w = (Ok a, w') ->
  exists h d,
    Url.new_URL (platform env) (str (opt_url o)) = Some h
    /\ endpoints w' = Url.resolved (platform env) h
    /\ directus (plugin w') = Some d
    /\ base d = (Url.resolved (platform env) h).1.1.
Proof.
  intros Hd H. run_setOptions_resolved H; try done.
  all: eexists _, _; (split; [done|]); unfold endpoints; cbn.
  all: by repeat split.
Qed.

(** On a platform that follows the URL Standard, the session of a plain
    root URL holds its three derived URLs. *)
Lemma setOptions_ok_plain (o : Options) (w w' : World) (a : AuthResult) :
  directus (plugin w) = None ->
  setOptions env o w = (Ok a, w') ->
  Url.conforming (platform env) -> Url.plain (str (opt_url o)) = true ->
  exists u, Url.parse (str (opt_url o)) = Some u /\ endpoints w' = Url.derived u.
Proof.
  intros Hd H Hconf Hplain.
  destruct (setOptions_ok_endpoints o w w' a Hd H) as (h & d & Hnew & Hend & _).
  destruct (UrlSpec.plain_inv _ Hplain) as (u & Hparse & _).
  destruct (UrlSpec.resolved_derived _ _ u Hconf Hplain Hparse) as [Hnew' Hres].
  exists u. split; [done|]. rewrite Hend. congruence.
Qed.

(** The [auth] calls of a first [setOptions] that succeeds, and the token
    the client holds afterwards. *)
Lemma setOptions_ok_auth (o : Options) (w w' : World) (a : AuthResult) :
  directus (plugin w) = None ->
  setOptions env o w = (Ok a, w') ->
  auth_calls (trace w') = auth_calls (trace w) ++ auth_calls_for o
  /\ exists d,
      directus (plugin w') = Some d
      /\ if has_credentials o
         then exists access,
             remote_login env (base d) (str (auth_field email (opt_auth o)))
               (str (auth_field password (opt_auth o))) = Ok access
             /\ auth_token d = Some access /\ a = LoggedIn access
         else if has_token o
              then auth_token d = Some (str (auth_field token (opt_auth o)))
                   /\ a = StaticAccepted
              else auth_token d = None /\ a = authPromise (plugin w).
Proof.
  intros Hd H. unfold auth_calls, auth_calls_for, has_credentials, has_token.
  run_setOptions_resolved H; rewrite ?List.filter_app, ?app_nil_r; cbn;
    repeat match goal with
      | Hx : _ = true |- _ => rewrite Hx
      | Hx : _ = false |- _ => rewrite Hx
      end; cbn; rewrite ?app_nil_r, <- ?app_assoc;
    (split; [done|]); eexists; (split; [done|]); eauto.
Qed.

End Establish.
End ResolvedSpec.
Module SessionSpec.
Import Source SourceMore.

Ltac step_m :=
  unfold error, warning, Log_error, Log_warning, Log_log,
    cache_get, cache_set, getNode, touchNode, createNode,
    emit, update, when, call, gets, try_catch, bind, ret, throw, get, modify in *.

Ltac run_setOptions_resolved H :=
  unfold setOptions, authenticate, auth_static, auth_login, refresh_seconds in H;
  step_m; cbn in H;
  repeat (case_match; simplify_eq; cbn in *; try done);
  repeat match goal with
    | Hres : resolve_endpoints ?e ?s ?w0 = _ |- _ =>
        let Hnew := fresh "Hnew" in
        destruct (Url.new_URL (platform e) s) as [?h|] eqn:Hnew;
        [ rewrite (SourceSpec.resolve_endpoints_ok e s _ w0 Hnew) in Hres
        | rewrite (SourceSpec.resolve_endpoints_fail e s w0 Hnew) in Hres ];
        simplify_eq; cbn in *
    end.

Section Rejected.
Context (env : Env).


End Rejected.

(** X5. Configuration errors come before any network activity: on a
    process without a client, options without a [url] string, with an
    [auth] block that holds neither a token nor an email and password pair,
    or with a [url] that the platform's [URL] class rejects, make
    [setOptions] throw a tagged error, with no call to the SDK, and the
    instance, the cache and the node store left as they were. *)
Theorem config_errors_before_network (env : Env) (o : Options) (w : World) :
  directus (plugin w) = None ->
  isEmpty (opt_url o) = true \/ unusable_auth o = true
  \/ Url.new_URL (platform env) (str (opt_url o)) = None ->
  exists e w',
    setOptions env o w = (Throw e, w')
    /\ tagged e = true
    /\ plugin w' = plugin w /\ cache w' = cache w /\ nodes w' = nodes w
    /\ auth_calls (trace w') = auth_calls (trace w).
Proof.
  intros Hd Hbad. destruct (setOptions env o w) as [r w'] eqn:H.
  destruct (EstablishSpec.setOptions_bad_options env o w w' r Hd Hbad H) as [[e ->] Hd'].
  exists e, w'. split; [done|].
  by apply (EstablishSpec.setOptions_throw_early env o w w' e).
Qed.

Lemma config_errors_before_network_witness :
  exists e w',
    setOptions (friendly []) without_url initial = (Throw e, w')
    /\ tagged e = true /\ plugin w' = plugin initial.
Proof.
  destruct (config_errors_before_network (friendly []) without_url initial)
    as (e & w' & Hrun & Htag & Hp & _).
  - reflexivity.
  - left. reflexivity.
  - by exists e, w'.
Defined.



(** X7. What a first [setOptions] that succeeds leaves in the instance: the
    options it was given, their [concurrency] and [retries], the three URLs
    the platform computes from their [url], a client on the root URL, and a
    refresh interval that is not [NaN]; the cache and the node store are
    not touched.  For a plain [url], on a platform that follows the URL
    Standard, the three URLs are the derived ones. *)
Theorem established_session_holds (env : Env) (o : Options) (w w' : World)
    (a : AuthResult) :
  directus (plugin w) = None ->
  setOptions env o w = (Ok a, w') ->
  options (plugin w') = Some o
  /\ concurrency (plugin w') = opt_concurrency o
  /\ retries (plugin w') = opt_retries o
  /\ Number_isNaN (refreshInterval (plugin w')) = false
  /\ cache w' = cache w /\ nodes w' = nodes w
  /\ (exists h d,
        Url.new_URL (platform env) (str (opt_url o)) = Some h
        /\ endpoints w' = Url.resolved (platform env) h
        /\ directus (plugin w') = Some d /\ base d = url (plugin w'))
  /\ (Url.conforming (platform env) -> Url.plain (str (opt_url o)) = true ->
      exists u, Url.parse (str (opt_url o)) = Some u /\ endpoints w' = Url.derived u).
Proof.
  intros Hd H.
  destruct (EstablishSpec.setOptions_ok_state env o w w' a Hd H)
    as (Ho & Hc & Hr & Hnan & Hcache & Hnodes & _ & _).
  destruct (ResolvedSpec.setOptions_ok_endpoints env o w w' a Hd H)
    as (h & d & Hnew & Hend & Hd' & Hbase).
  repeat (split; [done|]). split.
  - exists h, d. repeat (split; [done|]).
    rewrite Hbase. unfold endpoints in Hend. by rewrite <- Hend.
  - by apply (ResolvedSpec.setOptions_ok_plain env o w w' a).
Qed.

Lemma established_session_holds_witness :
  exists w',
    setOptions (friendly []) with_password initial = (Ok (LoggedIn "session-token"), w')
    /\ options (plugin w') = Some with_password
    /\ concurrency (plugin w') = 10
    /\ endpoints w' = ("https://other.example/api", "https://other.example/api/graphql",
                       "https://other.example/api/graphql/system").
Proof.
  exists (setOptions (friendly []) with_password initial).2.
  split; [by vm_compute|].
  destruct (established_session_holds (friendly []) with_password initial
              (setOptions (friendly []) with_password initial).2
              (LoggedIn "session-token"))
    as (Ho & Hc & _ & _ & _ & _ & _ & Hplain); [reflexivity | by vm_compute |].
  split; [exact Ho|]. split; [exact Hc|].
  destruct (Hplain UrlSpec.standard_conforming eq_refl) as (u & Hparse & ->).
  by injection Hparse as <-.
Defined.

(** X8. A first [setOptions] that succeeds authenticates once: it calls
    [auth.static] with the token when there is one, then [auth.login] with
    the email and password when there is a pair, and nothing else of the
    SDK's [auth].  The client then holds the access token of the login when
    there was one, else the static token, else no token. *)
Theorem setOptions_authenticates_once (env : Env) (o : Options) (w w' : World)
    (a : AuthResult) :
  directus (plugin w) = None ->
  setOptions env o w = (Ok a, w') ->
  auth_calls (trace w') = auth_calls (trace w) ++ auth_calls_for o
  /\ (length (auth_calls_for o) <= 2)%nat
  /\ exists d,
      directus (plugin w') = Some d
      /\ if has_credentials o
         then exists access,
             remote_login env (base d) (str (auth_field email (opt_auth o)))
               (str (auth_field password (opt_auth o))) = Ok access
             /\ auth_token d = Some access /\ a = LoggedIn access
         else if has_token o
              then auth_token d = Some (str (auth_field token (opt_auth o)))
                   /\ a = StaticAccepted
              else auth_token d = None /\ a = authPromise (plugin w).
Proof.
  intros Hd H.
  destruct (ResolvedSpec.setOptions_ok_auth env o w w' a Hd H) as (Hcalls & Htoken).
  split; [done|]. split; [|done].
  unfold auth_calls_for. destruct (has_token o), (has_credentials o); cbn; lia.
Qed.

Lemma setOptions_authenticates_once_witness :
  exists w',
    setOptions (friendly []) with_password initial = (Ok (LoggedIn "session-token"), w')
    /\ auth_calls (trace w') = [SdkLogin "a@b.c" "secret"].
Proof.
  exists (setOptions (friendly []) with_password initial).2.
  split; [by vm_compute|].
  destruct (setOptions_authenticates_once (friendly []) with_password initial
              (setOptions (friendly []) with_password initial).2
              (LoggedIn "session-token"))
    as (Hcalls & _); [reflexivity | by vm_compute |].
  exact Hcalls.
Defined.

End SessionSpec.
Module HeadersSpec.
Import Source SourceMore.

Ltac step_m :=
  unfold error, warning, Log_error, Log_warning, Log_log,
    cache_get, cache_set, getNode, touchNode, createNode,
    emit, update, when, call, gets, try_catch, bind, ret, throw, get, modify in *.

Lemma headers_eval (w : World) (d : Directus) (extra : gmap string string) :
  directus (plugin w) = Some d ->
  supplied_headers w = Ok extra ->
  headers w
  = (Ok (match auth_token d with
         | Some tok => if String.eqb tok EmptyString then extra
                       else <[ "Authorization" := "Bearer " +:+ tok ]> extra
         | None => extra
         end), w).
Proof.
  intros Hd Hextra. unfold headers, supplied_headers in *. step_m.
  rewrite Hd. unfold Object_assign.
  destruct (options (plugin w)) as [o|]; [destruct (opt_headers o) as [|h|f]|];
    try destruct (f tt) as [h|e]; simplify_eq;
    destruct (auth_token d) as [tok|]; try destruct (String.eqb tok EmptyString);
    by rewrite ?(right_id_L ∅ (∪)), ?insert_union_singleton_l.
Qed.

Lemma headers_supplied_throw (w : World) (d : Directus) (e : Exn) :
  directus (plugin w) = Some d ->
  supplied_headers w = Throw e ->
  headers w = (Throw e, w).
Proof.
  intros Hd Hextra. unfold headers, supplied_headers in *. step_m. rewrite Hd.
  destruct (options (plugin w)) as [o|]; [destruct (opt_headers o) as [|h|f]|];
    try done.
  by destruct (f tt) as [h|e']; simplify_eq.
Qed.

Lemma has_token_str (o : Options) :
  has_token o = true -> str (auth_field token (opt_auth o)) <> EmptyString.
Proof.
  unfold has_token. destruct (auth_field token (opt_auth o)) as [| | | |s]; try done.
  by destruct s.
Qed.

(** X9. With a client that holds no token (or an empty one), [headers()]
    is exactly what the user supplies: no [Authorization] is added, one the
    user supplies is kept, and an exception of the user's function is the
    exception of the call.  The process is left as it was. *)
Theorem headers_without_token (w : World) (d : Directus) :
  directus (plugin w) = Some d ->
  auth_token d = None \/ auth_token d = Some EmptyString ->
  headers w = (supplied_headers w, w).
Proof.
  intros Hd Htok. destruct (supplied_headers w) as [extra|e] eqn:Hextra.
  - rewrite (headers_eval w d extra Hd Hextra). by destruct Htok as [->| ->].
  - by apply (headers_supplied_throw w d).
Qed.

Lemma headers_without_token_witness :
  headers (setOptions (friendly []) public initial).2
  = (Ok {[ "X-Build" := "1" ]}, (setOptions (friendly []) public initial).2).
Proof.
  rewrite (headers_without_token (setOptions (friendly []) public initial).2
             {| base := "https://cms.example/"; auth_token := None |}).
  - by vm_compute.
  - by vm_compute.
  - by left.
Defined.

(** X10. An exception of the user's headers function is the exception of
    [headers()], whatever token the client holds: the bearer is not
    computed, and the process is left as it was. *)
Theorem headers_function_throws (w : World) (d : Directus) (o : Options)
    (f : unit -> Result (option (gmap string string))) (e : Exn) :
  directus (plugin w) = Some d ->
  options (plugin w) = Some o ->
  opt_headers o = HeadersFunction f ->
  f tt = Throw e ->
  headers w = (Throw e, w).
Proof.
  intros Hd Ho Hf He. apply (headers_supplied_throw w d); [done|].
  unfold supplied_headers. by rewrite Ho, Hf, He.
Qed.

Lemma headers_function_throws_witness :
  let o := {| opt_url := VStr "https://cms.example/"; opt_dev := None;
              opt_auth := Some {| token := VStr "static-token"; email := VUndefined;
                                  password := VUndefined |};
              opt_type := None; opt_concurrency := 2; opt_retries := 5;
              opt_headers := HeadersFunction (fun _ => Throw (JsError "no vault")) |} in
  let w := (setOptions (friendly []) o initial).2 in
  headers w = (Throw (JsError "no vault"), w).
Proof.
  intros o w.
  apply (headers_function_throws w
           {| base := "https://cms.example/"; auth_token := Some "static-token" |}
           o (fun _ => Throw (JsError "no vault")) (JsError "no vault"));
    by vm_compute.
Defined.

(** X11. The headers of a session.  After a first [setOptions] that
    succeeds, [headers()] returns the user's headers with, on top, the
    bearer of the access token of the login when the options have an email
    and password pair (also when they have a token as well), else of the
    static token; without [auth] the user's headers are returned as they
    are. *)
Theorem session_headers (env : Env) (o : Options) (w w' : World) (a : AuthResult)
    (extra : gmap string string) :
  directus (plugin w) = None ->
  setOptions env o w = (Ok a, w') ->
  supplied_headers w' = Ok extra ->
  exists hs,
    headers w' = (Ok hs, w')
    /\ (forall k, k <> "Authorization" -> hs !! k = extra !! k)
    /\ (has_credentials o = true ->
        exists access,
          a = LoggedIn access
          /\ hs !! "Authorization"
             = if String.eqb access EmptyString then extra !! "Authorization"
               else Some ("Bearer " +:+ access))
    /\ (has_credentials o = false -> has_token o = true ->
        hs !! "Authorization"
        = Some ("Bearer " +:+ str (auth_field token (opt_auth o))))
    /\ (has_credentials o = false -> has_token o = false -> hs = extra).
Proof.
  intros Hd H Hextra.
  destruct (ResolvedSpec.setOptions_ok_auth env o w w' a Hd H) as (_ & d & Hd' & Hauth).
  eexists. split; [by apply (headers_eval w' d extra)|].
  split.
  - intros k Hk. destruct (auth_token d) as [tok|]; [|done].
    destruct (String.eqb tok EmptyString); [done|]. by rewrite lookup_insert_ne.
  - destruct (has_credentials o).
    + destruct Hauth as (access & _ & -> & ->).
      split; [|by split]. intros _. exists access. split; [done|].
      destruct (String.eqb access EmptyString); [done|]. by rewrite lookup_insert_eq.
    + split; [done|]. pose proof (has_token_str o) as Hne.
      destruct (has_token o).
      * destruct Hauth as [-> _]. split; [|done]. intros _ _.
        apply String.eqb_neq in Hne; [|done]. by rewrite Hne, lookup_insert_eq.
      * destruct Hauth as [-> _]. by split.
Qed.

Lemma session_headers_witness :
  exists w',
    setOptions (friendly []) with_password initial = (Ok (LoggedIn "session-token"), w')
    /\ headers w' = (Ok {[ "Authorization" := "Bearer session-token" ]}, w').
Proof.
  exists (setOptions (friendly []) with_password initial).2.
  split; [by vm_compute|].
  destruct (session_headers (friendly []) with_password initial
              (setOptions (friendly []) with_password initial).2
              (LoggedIn "session-token") ∅)
    as (hs & Hrun & _); [reflexivity | by vm_compute | by vm_compute |].
  rewrite Hrun. by vm_compute.
Defined.

End HeadersSpec.
Module BundleSpec.
Import Source SourceMore.

Ltac step_m :=
  unfold error, warning, Log_error, Log_warning, Log_log,
    cache_get, cache_set, getNode, touchNode, createNode,
    emit, update, when, call, gets, try_catch, bind, ret, throw, get, modify in *.

Lemma or_else_nonempty (a : option string) (b : string) :
  b <> EmptyString -> or_else a b <> EmptyString.
Proof.
  intros Hb. unfold or_else. destruct a as [s|]; [|done].
  destruct (String.eqb_spec s EmptyString); done.
Qed.

Lemma or_else_given (s b : string) : s <> EmptyString -> or_else (Some s) b = s.
Proof. intros Hs. unfold or_else. by destruct (String.eqb_spec s EmptyString). Qed.

(** X12. The option bundles of a session.  After a first [setOptions]
    that succeeds, [getOptions()] and [getOptionsSystem()] succeed and
    leave the process as it is; their URLs are the second and the third of
    the URLs the platform computes from the [url] option (for a plain [url],
    on a platform that follows the URL Standard: the derived GraphQL and
    system GraphQL endpoints); their type and field names are never empty:
    a name the user leaves out or gives as the empty string is replaced by
    its default, and any other name is taken as it is. *)
Theorem session_bundles (env : Env) (o : Options) (w w' : World) (a : AuthResult) :
  directus (plugin w) = None ->
  setOptions env o w = (Ok a, w') ->
  exists h b bs,
    Url.new_URL (platform env) (str (opt_url o)) = Some h
    /\ getOptions w' = (Ok b, w') /\ getOptionsSystem w' = (Ok bs, w')
    /\ bundle_url b = (Url.resolved (platform env) h).1.2
    /\ bundle_url bs = (Url.resolved (platform env) h).2
    /\ (Url.conforming (platform env) -> Url.plain (str (opt_url o)) = true ->
        exists u, Url.parse (str (opt_url o)) = Some u
                  /\ bundle_url b = (Url.derived u).1.2
                  /\ bundle_url bs = (Url.derived u).2)
    /\ typeName b <> EmptyString /\ fieldName b <> EmptyString
    /\ typeName bs <> EmptyString /\ fieldName bs <> EmptyString
    /\ (opt_type o = None ->
        (typeName b, fieldName b, typeName bs, fieldName bs)
        = ("DirectusData", "directus", "DirectusSystemData", "directus_system"))
    /\ (forall t, opt_type o = Some t ->
        (forall s, name t = Some s -> s <> EmptyString -> typeName b = s)
        /\ (forall s, field t = Some s -> s <> EmptyString -> fieldName b = s)
        /\ (forall s, system_name t = Some s -> s <> EmptyString -> typeName bs = s)
        /\ (forall s, system_field t = Some s -> s <> EmptyString -> fieldName bs = s)).
Proof.
  intros Hd H.
  destruct (EstablishSpec.setOptions_ok_state env o w w' a Hd H) as (Ho & _).
  destruct (ResolvedSpec.setOptions_ok_endpoints env o w w' a Hd H)
    as (h & d & Hnew & Hend & _).
  pose proof (ResolvedSpec.setOptions_ok_plain env o w w' a Hd H) as Hplain.
  unfold endpoints in Hend, Hplain.
  exists h. eexists. eexists. split; [done|].
  split; [unfold getOptions; step_m; by rewrite Ho|].
  split; [unfold getOptionsSystem, getOptions; step_m; by rewrite Ho|].
  cbn [bundle_url typeName fieldName fst snd]. rewrite ?Ho.
  split; [by rewrite <- Hend|]. split; [by rewrite <- Hend|].
  split.
  { intros Hconf Hp. destruct (Hplain Hconf Hp) as (u & Hparse & Hu).
    exists u. split; [done|]. by rewrite <- Hu. }
  split; [by apply or_else_nonempty|]. split; [by apply or_else_nonempty|].
  split; [by apply or_else_nonempty|]. split; [by apply or_else_nonempty|].
  split.
  - by intros ->.
  - intros t ->. repeat split; intros s -> Hs; by apply or_else_given.
Qed.

Lemma session_bundles_witness :
  exists w' b bs,
    setOptions (friendly []) with_password initial = (Ok (LoggedIn "session-token"), w')
    /\ getOptions w' = (Ok b, w') /\ getOptionsSystem w' = (Ok bs, w')
    /\ bundle_url b = "https://other.example/api/graphql"
    /\ bundle_url bs = "https://other.example/api/graphql/system"
    /\ typeName b = "DirectusData" /\ typeName bs = "DirectusSystemData".
Proof.
  destruct (session_bundles (friendly []) with_password initial
              (setOptions (friendly []) with_password initial).2
              (LoggedIn "session-token"))
    as (h & b & bs & _ & Hb & Hbs & _ & _ & Hplain & _ & _ & _ & _ & Hdef & _);
    [reflexivity | by vm_compute |].
  exists (setOptions (friendly []) with_password initial).2, b, bs.
  split; [by vm_compute|]. split; [exact Hb|]. split; [exact Hbs|].
  destruct (Hplain UrlSpec.standard_conforming eq_refl) as (u & Hparse & Hub & Hubs).
  injection Hparse as <-. specialize (Hdef eq_refl). injection Hdef as Hn Hf Hsn Hsf.
  rewrite Hub, Hubs, Hn, Hsn. by vm_compute.
Defined.

(** X13. The [createNode] that [sourceNodes] hands to the delegate passes
    every node on to the host's [createNode], with its id and type name as
    they are and at most its internal type changed: a node of internal type
    [GraphQLSource] whose type name is the primary bundle's becomes a
    [DirectusGraphQLSource] (also when both bundles have the same type
    name), one whose type name is only the system bundle's becomes a
    [DirectusSystemGraphQLSource]; any other node keeps its type.  So no
    node of either bundle is registered as a [GraphQLSource]. *)
Theorem createNode_retyped_spec (optionsSystem options_ : Bundle) (n : Node) (w : World) :
  exists ty,
    createNode_retyped optionsSystem options_ n w
    = createNode {| node_id := node_id n; internal_type := ty;
                    node_typeName := node_typeName n |} w
    /\ (internal_type n <> "GraphQLSource" -> ty = internal_type n)
    /\ (internal_type n = "GraphQLSource" ->
        (node_typeName n = Some (typeName options_) -> ty = "DirectusGraphQLSource")
        /\ (node_typeName n <> Some (typeName options_) ->
            node_typeName n = Some (typeName optionsSystem) ->
            ty = "DirectusSystemGraphQLSource")
        /\ (node_typeName n <> Some (typeName options_) ->
            node_typeName n <> Some (typeName optionsSystem) ->
            ty = "GraphQLSource")).
Proof.
  unfold createNode_retyped.
  destruct (String.eqb_spec (internal_type n) "GraphQLSource") as [Hty|Hty].
  - destruct (decide (node_typeName n = Some (typeName optionsSystem))) as [Hs|Hs];
      destruct (decide (node_typeName n = Some (typeName options_))) as [Hp|Hp].
    + rewrite (bool_decide_eq_true_2 _ Hs). cbn [node_typeName].
      rewrite (bool_decide_eq_true_2 _ Hp). eexists. split; [reflexivity|].
      split; [done|]. intros _. by repeat split.
    + rewrite (bool_decide_eq_true_2 _ Hs). cbn [node_typeName].
      rewrite (bool_decide_eq_false_2 _ Hp). eexists. split; [reflexivity|].
      split; [done|]. intros _. by repeat split.
    + rewrite (bool_decide_eq_false_2 _ Hs), (bool_decide_eq_true_2 _ Hp).
      eexists. split; [reflexivity|]. split; [done|]. intros _. by repeat split.
    + rewrite (bool_decide_eq_false_2 _ Hs), (bool_decide_eq_false_2 _ Hp).
      exists (internal_type n). split; [by destruct n|].
      split; [done|]. intros _. by repeat split.
  - exists (internal_type n). split; [by destruct n|]. split; [done|]. done.
Qed.

End BundleSpec.
Module EnumeratorSpec.
Import Source SourceMore.

Ltac step_m :=
  unfold error, warning, Log_error, Log_warning, Log_log,
    cache_get, cache_set, getNode, touchNode, createNode,
    emit, update, when, call, gets, try_catch, bind, ret, throw, get, modify in *.

Section Enumerate.
Context (env : Env).

(** A generator that is not done, with a page size that no batch is
    shorter than, yields again. *)
Lemma next_unbounded (g : Generator) (w : World) (d : Directus)
    (r : option (list FileRecord)) (p : Z) :
  directus (plugin w) = Some d -> concurrency (plugin w) <= 0 ->
  hasMore g = true -> at_ g <> Returned ->
  p = match at_ g with AtYield _ => page g + 1 | _ => page g end ->
  remote_files env (concurrency (plugin w)) p = Ok r ->
  exists files,
    next env g w
    = (Ok (Some files, {| at_ := AtYield files; hasMore := true; page := p |}),
       with_trace (fun t => t ++ [SdkReadFiles (concurrency (plugin w)) p]) w).
Proof.
  intros Hd Hc Hmore Hat -> Hr. unfold next, to_next_yield. step_m.
  destruct g as [[|prev|] more pg]; cbn in *; [| |done]; subst more.
  - rewrite Hd. cbn. rewrite Hd, Hr. by eexists.
  - assert ((Z.of_nat (length prev) <? concurrency (plugin w)) = false) as ->
        by (apply Z.ltb_ge; lia).
    cbn. rewrite Hd, Hr. by eexists.
Qed.

Lemma for_await_unbounded (fuel : nat) :
  (forall limit page_, exists r, remote_files env limit page_ = Ok r) ->
  forall (g : Generator) (acc : list (list FileRecord)) (w : World),
    is_Some (directus (plugin w)) -> concurrency (plugin w) <= 0 ->
    hasMore g = true -> at_ g <> Returned ->
    for_await env fuel (fun files batches => ret (Continue (batches ++ [files]))) g acc w
    = None.
Proof.
  intros Hfiles. induction fuel as [|fuel IH]; intros g acc w [d Hd] Hc Hmore Hat; [done|].
  cbn [for_await].
  destruct (Hfiles (concurrency (plugin w))
              (match at_ g with AtYield _ => page g + 1 | _ => page g end)) as [r Hr].
  destruct (next_unbounded g w d r _ Hd Hc Hmore Hat eq_refl Hr) as [files ->].
  unfold ret at 1. apply IH; cbn; try done; by exists d.
Qed.

End Enumerate.

(** X14. With a page size of zero or less the enumeration has no end:
    no batch is shorter than the page size, so as long as the remote API
    answers, the generator asks for the next page.  A loop that does not
    [break] never returns. *)
Theorem enumeration_without_limit (env : Env) (w : World) (fuel : nat) :
  is_Some (directus (plugin w)) ->
  concurrency (plugin w) <= 0 ->
  (forall limit page_, exists r, remote_files env limit page_ = Ok r) ->
  drain env fuel w = None.
Proof.
  intros Hd Hc Hfiles. unfold drain. by apply for_await_unbounded.
Qed.

Lemma enumeration_without_limit_witness :
  let o := {| opt_url := VStr "https://cms.example/"; opt_dev := None; opt_auth := None;
              opt_type := None; opt_concurrency := 0; opt_retries := 5;
              opt_headers := NoHeaders |} in
  drain (friendly [photo "a"]) 1000 (setOptions (friendly [photo "a"]) o initial).2 = None.
Proof.
  intros o. apply enumeration_without_limit.
  - by eexists.
  - by vm_compute.
  - intros limit page_. by eexists.
Defined.

(** X15. A reply of the file listing without [data], or with no record,
    on the first page ends the enumeration after one empty batch, and the
    sync stops at that batch: one page is read, nothing is downloaded,
    touched or written. *)
Theorem listing_without_data (env : Env) (Authorization : option string) (w : World)
    (r : option (list FileRecord)) (fuel : nat) :
  is_Some (directus (plugin w)) ->
  1 <= concurrency (plugin w) ->
  remote_files env (concurrency (plugin w)) 1 = Ok r ->
  r = None \/ r = Some [] ->
  (2 <= fuel)%nat ->
  drain env fuel w
  = Some (Ok [[]], with_trace (fun t => t ++ [SdkReadFiles (concurrency (plugin w)) 1]) w)
  /\ sync_files env fuel Authorization w
     = Some (Ok tt, with_trace (fun t => t ++ [SdkReadFiles (concurrency (plugin w)) 1]) w).
Proof.
  intros [d Hd] Hc Hr Hempty Hfuel.
  destruct fuel as [|[|fuel]]; [lia | lia |].
  unfold drain, sync_files. cbn [for_await].
  assert (next env iterateFiles w
          = (Ok (Some [], {| at_ := AtYield []; hasMore := true; page := 1 |}),
             with_trace (fun t => t ++ [SdkReadFiles (concurrency (plugin w)) 1]) w))
    as ->.
  { unfold next, to_next_yield. step_m. cbn. rewrite Hd. cbn. rewrite Hd, Hr.
    by destruct Hempty as [-> | ->]. }
  split; [|done].
  unfold ret at 1. unfold next, to_next_yield. step_m. cbn.
  by assert ((Z.of_nat 0 <? concurrency (plugin w)) = true) as ->
      by (apply Z.ltb_lt; lia).
Qed.

Lemma listing_without_data_witness :
  let w := (setOptions (friendly []) with_token initial).2 in
  drain (friendly []) 2 w
  = Some (Ok [[]], with_trace (fun t => t ++ [SdkReadFiles 2 1]) w).
Proof.
  intros w.
  destruct (listing_without_data (friendly []) None w (Some []) 2) as [Hrun _].
  - by eexists.
  - by vm_compute.
  - by vm_compute.
  - by right.
  - lia.
  - exact Hrun.
Defined.

(** X16. A failure of the file listing on the first page is the failure
    of the sync: the SDK's exception is passed on as it is, after one page
    request, with nothing downloaded, touched or written. *)
Theorem listing_failure (env : Env) (Authorization : option string) (w : World)
    (e : Exn) (fuel : nat) :
  is_Some (directus (plugin w)) ->
  remote_files env (concurrency (plugin w)) 1 = Throw e ->
  (1 <= fuel)%nat ->
  sync_files env fuel Authorization w
  = Some (Throw e,
          with_trace (fun t => t ++ [SdkReadFiles (concurrency (plugin w)) 1]) w).
Proof.
  intros [d Hd] Hr Hfuel. destruct fuel as [|fuel]; [lia|].
  unfold sync_files. cbn [for_await]. unfold next, to_next_yield. step_m. cbn.
  rewrite Hd. cbn. by rewrite Hd, Hr.
Qed.

Lemma listing_failure_witness :
  let env := {| platform := platform rejecting; ms := ms rejecting;
                remote_static := remote_static (friendly []);
                remote_login := remote_login (friendly []);
                remote_files := fun _ _ => Throw (Rejected "FORBIDDEN");
                remote_download := remote_download rejecting;
                graphql_sourceNodes := graphql_sourceNodes rejecting;
                graphql_createSchemaCustomization :=
                  graphql_createSchemaCustomization rejecting |} in
  let w := (setOptions env with_token initial).2 in
  sync_files env 1 None w
  = Some (Throw (Rejected "FORBIDDEN"),
          with_trace (fun t => t ++ [SdkReadFiles 2 1]) w).
Proof.
  intros env w.
  apply (listing_failure env None w (Rejected "FORBIDDEN") 1); [by eexists | done | lia].
Defined.

(** X17. A generator that has reported its end stays at its end: the
    [next()] that returns no batch reads no page and changes nothing, and
    so does every [next()] after it. *)
Theorem generator_end_is_final (env : Env) (g g' : Generator) (w w' : World) :
  next env g w = (Ok (None, g'), w') ->
  w' = w /\ at_ g' = Returned /\ next env g' w' = (Ok (None, g'), w').
Proof.
  unfold next, to_next_yield. step_m.
  destruct g as [[|prev|] more pg]; cbn.
  - destruct (directus (plugin w)); [|done]. destruct more; cbn.
    + destruct (directus (plugin w)); [|done]. by destruct (remote_files env _ _).
    + by intros [= <- <-].
  - destruct (Z.of_nat (length prev) <? concurrency (plugin w)); cbn.
    + by intros [= <- <-].
    + destruct more; cbn.
      * destruct (directus (plugin w)); [|done]. by destruct (remote_files env _ _).
      * by intros [= <- <-].
  - by intros [= <- <-].
Qed.

Lemma generator_end_is_final_witness :
  let w := (setOptions (friendly []) with_token initial).2 in
  let g := {| at_ := AtYield []; hasMore := true; page := 1 |} in
  let g' := {| at_ := Returned; hasMore := false; page := 1 |} in
  next (friendly []) g w = (Ok (None, g'), w)
  /\ next (friendly []) g' w = (Ok (None, g'), w).
Proof.
  intros w g g'.
  destruct (generator_end_is_final (friendly []) g g' w w) as (_ & _ & Hagain);
    [by vm_compute|].
  split; [by vm_compute | exact Hagain].
Defined.

End EnumeratorSpec.
Module SyncMoreSpec.
Import Source SourceMore SyncMore.

Ltac step_m :=
  unfold error, warning, Log_error, Log_warning, Log_log,
    cache_get, cache_set, getNode, touchNode, createNode,
    emit, update, when, call, gets, try_catch, bind, ret, throw, get, modify in *.

Lemma grows_refl (w : World) : grows w w.
Proof. by repeat split. Qed.

Lemma grows_trans (w1 w2 w3 : World) : grows w1 w2 -> grows w2 w3 -> grows w1 w3.
Proof.
  intros (Hp & Hc & Hn & Ht) (Hp' & Hc' & Hn' & Ht'). repeat split.
  - congruence.
  - set_solver.
  - set_solver.
  - by etrans.
Qed.

Lemma grows_emit (es : list Event) (w : World) :
  grows w (with_trace (fun t => t ++ es) w).
Proof. repeat split; try done. by apply prefix_app_r. Qed.

Section Sync.
Context (env : Env) (Authorization : option string).

Lemma sync_file_grows (file : FileRecord) (w : World) :
  grows w (sync_file env Authorization file w).2.
Proof.
  destruct (cached_node w file) as [nd|] eqn:Hc.
  - rewrite (SourceSpec.sync_file_hit env Authorization file w nd Hc). apply grows_emit.
  - rewrite SourceSpec.sync_file_run_miss by done.
    destruct (remote_download env _) as [fileNode|e]; [|apply grows_emit].
    repeat split; cbn.
    + rewrite dom_insert. set_solver.
    + rewrite dom_insert. set_solver.
    + by apply prefix_app_r.
Qed.

Lemma Promise_all_grows (files : list FileRecord) (w : World) :
  grows w (Promise_all (map (sync_file env Authorization) files) w).2.
Proof.
  revert w. induction files as [|file files IH]; intros w; [apply grows_refl|].
  cbn [map Promise_all].
  pose proof (sync_file_grows file w) as Hfile.
  destruct (sync_file env Authorization file w) as [[[]|e] w1]; cbn [snd] in Hfile.
  - specialize (IH w1).
    destruct (Promise_all (map (sync_file env Authorization) files) w1) as [[r|e] w2];
      cbn [snd] in *; by eapply grows_trans.
  - cbn [snd]. by eapply grows_trans.
Qed.

Lemma sync_batch_grows (files : list FileRecord) (acc : unit) (w : World) :
  grows w (sync_batch env Authorization files acc w).2.
Proof.
  unfold sync_batch. destruct (length files =? 0)%nat; [apply grows_refl|]. step_m.
  pose proof (Promise_all_grows files w) as Hall.
  by destruct (Promise_all _ w) as [[r|e] w1].
Qed.

Lemma next_grows (g : Generator) (w : World) : grows w (next env g w).2.
Proof.
  unfold next, to_next_yield. step_m.
  destruct g as [[|prev|] more pg]; cbn.
  - destruct (directus (plugin w)); [|apply grows_refl].
    destruct more; cbn; [|apply grows_refl].
    destruct (directus (plugin w)); [|apply grows_refl].
    destruct (remote_files env _ _); apply grows_emit.
  - destruct (Z.of_nat (length prev) <? concurrency (plugin w)); cbn;
      [apply grows_refl|].
    destruct more; cbn; [|apply grows_refl].
    destruct (directus (plugin w)); [|apply grows_refl].
    destruct (remote_files env _ _); apply grows_emit.
  - apply grows_refl.
Qed.

Lemma for_await_grows {A} (body : list FileRecord -> A -> M World (Step A)) :
  (forall files acc w, grows w (body files acc w).2) ->
  forall (fuel : nat) (g : Generator) (acc : A) (w w' : World) (r : Result A),
    for_await env fuel body g acc w = Some (r, w') -> grows w w'.
Proof.
  intros Hbody. induction fuel as [|fuel IH]; intros g acc w w' r; [done|].
  cbn [for_await]. pose proof (next_grows g w) as Hnext.
  destruct (next env g w) as [[[[files|] g']|e] w1]; cbn [snd] in Hnext.
  - pose proof (Hbody files acc w1) as Hb.
    destruct (body files acc w1) as [[[a|a]|e] w2]; cbn [snd] in Hb.
    + intros Hrest%IH. eapply grows_trans; [done|]. by eapply grows_trans.
    + intros [= <- <-]. by eapply grows_trans.
    + intros [= <- <-]. by eapply grows_trans.
  - by intros [= <- <-].
  - by intros [= <- <-].
Qed.

End Sync.

(** X18. The sync only adds.  Whatever the remote API and the host
    answer, and whether the sync ends well, fails or is cut short, it leaves
    the plugin instance as it is, loses no cache key and no node id, and
    only appends to what the process has done. *)
Theorem sync_only_adds (env : Env) (Authorization : option string) (fuel : nat)
    (w w' : World) (r : Result unit) :
  sync_files env fuel Authorization w = Some (r, w') ->
  grows w w'.
Proof.
  unfold sync_files. apply for_await_grows. apply sync_batch_grows.
Qed.

Lemma sync_only_adds_witness :
  let env := friendly [photo "a"; photo "b"; photo "c"] in
  let w := (setOptions env with_token initial).2 in
  exists w', sync_files env 3 None w = Some (Ok tt, w') /\ grows w w'.
Proof.
  intros env w.
  assert (exists w', sync_files env 3 None w = Some (Ok tt, w')) as [w' Hrun].
  { vm_compute. by eexists. }
  exists w'. split; [exact Hrun|].
  exact (sync_only_adds env None 3 w w' (Ok tt) Hrun).
Defined.

(** X19. A failed download leaves nothing behind.  For a file without a
    live cache entry whose download the host rejects, the task fails with
    the host's exception as it is, after the one download request: no node
    is registered and no cache entry is written, so the file is still
    without a live entry and is asked for again when it is processed the
    next time. *)
Theorem failed_download_leaves_no_entry (env : Env) (Authorization : option string)
    (file : FileRecord) (w : World) (e : Exn) :
  cached_node w file = None ->
  remote_download env (download_request w Authorization file) = Throw e ->
  exists w',
    sync_file env Authorization file w = (Throw e, w')
    /\ trace w' = trace w ++ [HostDownload (download_request w Authorization file)]
    /\ plugin w' = plugin w /\ cache w' = cache w /\ nodes w' = nodes w
    /\ cached_node w' file = None
    /\ forall Authorization',
        downloads (trace (sync_file env Authorization' file w').2)
        = downloads (trace w')
          ++ [HostDownload (download_request w Authorization' file)].
Proof.
  intros Hmiss Hdl. eexists. split.
  { by rewrite (SourceSpec.sync_file_run_miss env Authorization file w Hmiss), Hdl. }
  repeat (split; [done|]). intros Authorization'.
  match goal with |- context [sync_file _ _ _ ?w0] => set (w1 := w0) end.
  assert (cached_node w1 file = None) as Hmiss1 by done.
  rewrite (SourceSpec.sync_file_run_miss env Authorization' file w1 Hmiss1).
  change (download_request w1 Authorization' file)
    with (download_request w Authorization' file).
  destruct (remote_download env (download_request w Authorization' file))
    as [fileNode|e']; cbn [snd trace with_trace];
    by rewrite SourceSpec.downloads_app.
Qed.

Lemma failed_download_leaves_no_entry_witness :
  let w := (setOptions rejecting with_password initial).2 in
  exists w',
    sync_file rejecting None (photo "a") w = (Throw (Rejected "ENOTFOUND"), w')
    /\ cache w' = cache w /\ nodes w' = nodes w.
Proof.
  intros w.
  destruct (failed_download_leaves_no_entry rejecting None (photo "a") w
              (Rejected "ENOTFOUND"))
    as (w' & Hrun & _ & _ & Hc & Hn & _); [reflexivity | reflexivity |].
  by exists w'.
Defined.

End SyncMoreSpec.
Module HooksSpec.
Import Source SourceMore SyncMore.

Ltac step_m :=
  unfold error, warning, Log_error, Log_warning, Log_log,
    cache_get, cache_set, getNode, touchNode, createNode,
    emit, update, when, call, gets, try_catch, bind, ret, throw, get, modify in *.

Lemma resolve_live (source_id : string) (w : World) (file : FileRecord) (nd : Node) :
  file_id file = source_id -> cached_node w file = Some nd ->
  imageFile_resolve source_id w = (Ok (Some nd), w).
Proof.
  intros <- Hnd. unfold imageFile_resolve, cached_node in *. step_m.
  destruct (cache w !! file_id file); [by rewrite Hnd | done].
Qed.

(** X20. Where the assets are downloaded from.  On a session that a first
    [setOptions] has established, the download of a file without a cache
    entry asks for the root URL of the session followed directly by
    [assets/<id>].  For a plain [url] option, on a platform that follows the
    URL Standard: under a root with a base path, which has no trailing
    slash, no slash separates the two; under a host-only root the root's
    own slash does. *)
Theorem asset_url_of_session (env : Env) (o : Options) (w w' : World) (a : AuthResult)
    (Authorization : option string) (file : FileRecord) :
  directus (plugin w) = None ->
  setOptions env o w = (Ok a, w') ->
  cached_node w file = None ->
  exists h req,
    Url.new_URL (platform env) (str (opt_url o)) = Some h
    /\ downloads (trace (sync_file env Authorization file w').2)
       = downloads (trace w') ++ [HostDownload req]
    /\ rf_url req = url (plugin w') +:+ "assets/" +:+ file_id file
    /\ url (plugin w') = (Url.resolved (platform env) h).1.1
    /\ (Url.conforming (platform env) -> Url.plain (str (opt_url o)) = true ->
        exists u,
          Url.parse (str (opt_url o)) = Some u
          /\ (Url.base_path u <> EmptyString ->
              Url.endsWith_slash (Url.base_path u) = false ->
              exists root,
                Url.endsWith_slash root = false
                /\ urlGraphql (plugin w') = root +:+ "/graphql"
                /\ rf_url req = root +:+ "assets/" +:+ file_id file)
          /\ (Url.base_path u = EmptyString ->
              rf_url req
              = Url.scheme u +:+ "://" +:+ Url.authority u +:+ "/assets/"
                +:+ file_id file)).
Proof.
  intros Hd H Hmiss.
  destruct (EstablishSpec.setOptions_ok_state env o w w' a Hd H)
    as (_ & _ & _ & _ & Hcache & Hnodes & _).
  destruct (ResolvedSpec.setOptions_ok_endpoints env o w w' a Hd H)
    as (h & d & Hnew & Hend & _).
  pose proof (ResolvedSpec.setOptions_ok_plain env o w w' a Hd H) as Hplain.
  assert (cached_node w' file = None) as Hmiss'
      by (unfold cached_node in *; by rewrite Hcache, Hnodes).
  exists h, (download_request w' Authorization file).
  split; [done|]. split.
  { rewrite (SourceSpec.sync_file_run_miss env Authorization file w' Hmiss').
    destruct (remote_download env _) as [fileNode|e]; cbn [snd trace with_trace];
      by rewrite SourceSpec.downloads_app. }
  unfold endpoints in Hend, Hplain. cbn [download_request rf_url].
  split; [done|]. split; [by rewrite <- Hend|].
  intros Hconf Hp. destruct (Hplain Hconf Hp) as (u & Hparse & Hu).
  destruct (UrlSpec.plain_derived _ u Hp Hparse) as [Hunder Hhost].
  exists u. split; [done|]. split.
  - intros Hbp Hslash. destruct (Hunder Hbp) as (root & Hroot & Hends).
    rewrite Hroot in Hu. injection Hu as -> -> _.
    exists root. by rewrite Hends.
  - intros Hbp. rewrite (Hhost Hbp) in Hu.
    injection Hu as -> _ _. by repeat (rewrite UrlSpec.append_assoc; cbn).
Qed.

Lemma asset_url_of_session_witness :
  exists w' req,
    setOptions (friendly []) with_password initial = (Ok (LoggedIn "session-token"), w')
    /\ downloads (trace (sync_file (friendly []) None (photo "a") w').2)
       = downloads (trace w') ++ [HostDownload req]
    /\ rf_url req = "https://other.example/apiassets/a".
Proof.
  destruct (asset_url_of_session (friendly []) with_password initial
              (setOptions (friendly []) with_password initial).2
              (LoggedIn "session-token") None (photo "a"))
    as (h & req & _ & Hdl & Hurl & _); [reflexivity | by vm_compute | reflexivity |].
  exists (setOptions (friendly []) with_password initial).2, req.
  split; [by vm_compute|]. split; [exact Hdl|].
  rewrite Hurl. by vm_compute.
Defined.

(** X21. After a sync that went through, the file resolver finds a node
    for every file of the remote store, and leaves the process as it
    is. *)
Theorem resolver_after_sync (env : Env) (store : list FileRecord) (n : nat)
    (Authorization : option string) (w w1 : World) (fuel : nat) :
  (1 <= n)%nat ->
  (forall limit page_, remote_files env limit page_ = paged store limit page_) ->
  ready n w ->
  (length store / n + 2 <= fuel)%nat ->
  sync_files env fuel Authorization w = Some (Ok tt, w1) ->
  Forall (fun file => exists nd,
              imageFile_resolve (file_id file) w1 = (Ok (Some nd), w1)) store.
Proof.
  intros Hn Hfiles Hready Hfuel.
  pose proof (SourceSpec.batches_of_length n Hn (S (length store)) store ltac:(lia))
    as Hlen.
  unfold sync_files.
  rewrite (SourceSpec.for_await_paged env store n Hn Hfiles);
    [| apply SourceSpec.sync_batch_plugin | done | lia].
  intros Hfirst%(inj Some).
  apply (SourceSpec.run_sync_ok env n Hn) in Hfirst as (_ & Hall & _); [|lia].
  eapply Forall_impl; [exact Hall|].
  intros file [nd Hnd]. exists nd. by apply (resolve_live _ _ file).
Qed.

Lemma resolver_after_sync_witness :
  let env := friendly [photo "a"; photo "b"; photo "c"] in
  let w := (setOptions env with_token initial).2 in
  exists w1 nd,
    sync_files env 3 None w = Some (Ok tt, w1)
    /\ imageFile_resolve "c" w1 = (Ok (Some nd), w1).
Proof.
  intros env w.
  assert (exists w1, sync_files env 3 None w = Some (Ok tt, w1)) as [w1 Hrun].
  { vm_compute. by eexists. }
  pose proof (resolver_after_sync env [photo "a"; photo "b"; photo "c"] 2 None w w1 3
                ltac:(lia) ltac:(reflexivity)
                ltac:(split; [by eexists | reflexivity]) ltac:(cbn; lia) Hrun) as Hall.
  apply Forall_cons in Hall as [_ Hall]. apply Forall_cons in Hall as [_ Hall].
  apply Forall_cons in Hall as [[nd Hc] _].
  by exists w1, nd.
Defined.

(** X22. A cache entry whose node the host no longer holds.  The file
    resolver then returns no node, without an exception; the sync treats the
    file as new, and once its download has succeeded the entry points to
    the new node, which the resolver returns. *)
Theorem stale_entry_is_replaced (env : Env) (Authorization : option string)
    (file : FileRecord) (w : World) (nodeId : string) (fileNode : Node) :
  cache w !! file_id file = Some nodeId ->
  nodes w !! nodeId = None ->
  remote_download env (download_request w Authorization file) = Ok fileNode ->
  imageFile_resolve (file_id file) w = (Ok None, w)
  /\ exists w',
      sync_file env Authorization file w = (Ok tt, w')
      /\ downloads (trace w')
         = downloads (trace w) ++ [HostDownload (download_request w Authorization file)]
      /\ cache w' !! file_id file = Some (node_id fileNode)
      /\ imageFile_resolve (file_id file) w' = (Ok (Some fileNode), w').
Proof.
  intros Hc Hn Hdl. split.
  - unfold imageFile_resolve. step_m. rewrite Hc. cbn. by rewrite Hn.
  - assert (cached_node w file = None) as Hmiss by (unfold cached_node; by rewrite Hc).
    rewrite (SourceSpec.sync_file_miss env Authorization file w fileNode Hmiss Hdl).
    eexists. split; [done|]. cbn [trace cache].
    split; [by rewrite SourceSpec.downloads_app|].
    split; [by rewrite lookup_insert_eq|].
    apply (resolve_live _ _ file); [done|]. unfold cached_node. cbn.
    by rewrite !lookup_insert_eq.
Qed.

Lemma stale_entry_is_replaced_witness :
  let w := with_cache (insert "a" "gone") (setOptions (friendly []) with_token initial).2 in
  imageFile_resolve "a" w = (Ok None, w)
  /\ exists w', sync_file (friendly []) None (photo "a") w = (Ok tt, w')
                /\ cache w' !! "a" = Some "file-a".
Proof.
  intros w.
  destruct (stale_entry_is_replaced (friendly []) None (photo "a") w "gone"
              {| node_id := "file-a"; internal_type := "File"; node_typeName := None |})
    as (Hres & w' & Hrun & _ & Hc & _); [by vm_compute | by vm_compute | reflexivity |].
  split; [exact Hres|]. by exists w'.
Defined.

Section Prelude.
Context (env : Env).


(** The result of a computation that ends in [ret a]. *)
Lemma bind_ret_result {A B} (m : M World A) (b r : B) (w w' : World) :
  (m ;;; ret b) w = (Ok r, w') -> r = b.
Proof. unfold bind, ret. destruct (m w) as [[x|e] w1]; by intros [= <-]. Qed.

End Prelude.



(** X24. On a session the hooks do not look at their options.  Once a
    client exists, [sourceNodes] and [createSchemaCustomization] do the
    same whatever options they are given, as long as these carry a [url]:
    the bundles they hand to the delegate are those of the options the
    session was established with. *)
Theorem hooks_ignore_options (env : Env) (fuel : nat) (o o' : Options) (w : World) :
  is_Some (directus (plugin w)) ->
  isEmpty (opt_url o) = false -> isEmpty (opt_url o') = false ->
  sourceNodes env fuel o w = sourceNodes env fuel o' w
  /\ createSchemaCustomization env o w = createSchemaCustomization env o' w.
Proof.
  intros Hd Ho Ho'. split.
  - unfold sourceNodes, sourceNodes_prelude, bind.
    destruct (getOptions w) as [[b|e] w1] eqn:Hb; [|done].
    assert (w1 = w) as ->.
    { revert Hb. unfold getOptions. step_m. destruct (options (plugin w)); by intros [= <-]. }
    destruct (headers w) as [[hs|e] w1] eqn:Hhs; [|done].
    apply SourceSpec.headers_unchanged in Hhs as ->.
    by rewrite !(SourceSpec.setOptions_established env _ w Hd).
  - unfold createSchemaCustomization, bind.
    by rewrite !(SourceSpec.setOptions_established env _ w Hd).
Qed.

Lemma hooks_ignore_options_witness :
  let env := friendly [photo "a"] in
  let w := (setOptions env with_token initial).2 in
  sourceNodes env 3 with_token w = sourceNodes env 3 with_password w.
Proof.
  intros env w.
  apply (hooks_ignore_options env 3 with_token with_password w);
    [by eexists | reflexivity | reflexivity].
Defined.

End HooksSpec.
Module RefreshSpec.
Import Source SourceMore.

Ltac step_m :=
  unfold error, warning, Log_error, Log_warning, Log_log,
    cache_get, cache_set, getNode, touchNode, createNode,
    emit, update, when, call, gets, try_catch, bind, ret, throw, get, modify in *.

Ltac run_setOptions_resolved H :=
  unfold setOptions, authenticate, auth_static, auth_login, refresh_seconds in H;
  step_m; cbn in H;
  repeat (case_match; simplify_eq; cbn in *; try done);
  repeat match goal with
    | Hres : resolve_endpoints ?e ?s ?w0 = _ |- _ =>
        let Hnew := fresh "Hnew" in
        destruct (Url.new_URL (platform e) s) as [?h|] eqn:Hnew;
        [ rewrite (SourceSpec.resolve_endpoints_ok e s _ w0 Hnew) in Hres
        | rewrite (SourceSpec.resolve_endpoints_fail e s w0 Hnew) in Hres ];
        simplify_eq; cbn in *
    end.

(** X25. What a first [setOptions] that succeeds prints: nothing, except
    for options without [auth], for which it prints the public-role
    warning, once, in the colour of errors. *)
Theorem setOptions_console (env : Env) (o : Options) (w w' : World) (a : AuthResult) :
  directus (plugin w) = None ->
  setOptions env o w = (Ok a, w') ->
  console_lines (trace w')
  = console_lines (trace w)
    ++ match opt_auth o with
       | Some _ => []
       | None => [Console "red"
                    ("no " +:+ dq +:+ "auth" +:+ dq
                     +:+ " option were defined. Resources will be fetched with public role")]
       end.
Proof.
  intros Hd H. unfold console_lines.
  run_setOptions_resolved H; rewrite ?List.filter_app, ?app_nil_r; try done.
Qed.

Lemma setOptions_console_witness :
  exists w',
    setOptions (friendly []) public initial = (Ok NoAuthResult, w')
    /\ length (console_lines (trace w')) = 1%nat.
Proof.
  exists (setOptions (friendly []) public initial).2.
  split; [by vm_compute|].
  by rewrite (setOptions_console (friendly []) public initial
                (setOptions (friendly []) public initial).2 NoAuthResult eq_refl
                ltac:(by vm_compute)).
Defined.

(** X26. The refresh interval is checked last.  When a first
    [setOptions] fails with the [dev.refresh] error, the credentials of the
    options have all been sent already and the client is kept, with the
    options still unset: a second call returns without a check. *)
Theorem refresh_is_checked_last (env : Env) (o : Options) (w w' : World) :
  directus (plugin w) = None ->
  setOptions env o w
  = (Throw (JsError ("gatsby-source-directus: " +:+ dq +:+ "dev.refresh" +:+ dq
       +:+ " should be a number in seconds or a string with ms format, i.e. 5s, 5m, 5h, ...")),
     w') ->
  auth_calls (trace w') = auth_calls (trace w) ++ auth_calls_for o
  /\ options (plugin w') = options (plugin w)
  /\ setOptions env o w' = (Ok (authPromise (plugin w')), w').
Proof.
  intros Hd H.
  assert (is_Some (directus (plugin w')) /\ isEmpty (opt_url o) = false
          /\ auth_calls (trace w') = auth_calls (trace w) ++ auth_calls_for o
          /\ options (plugin w') = options (plugin w)) as (Hd' & Hurl & Hrest).
  { unfold auth_calls, auth_calls_for, has_token, has_credentials.
    run_setOptions_resolved H; rewrite ?List.filter_app; cbn;
      rewrite ?app_nil_r, <- ?app_assoc; by repeat split. }
  destruct Hrest as (? & ?). repeat (split; [done|]).
  by apply SourceSpec.setOptions_established.
Qed.

Lemma refresh_is_checked_last_witness :
  let env := {| platform := platform (friendly []); ms := fun _ => Ok None;
                remote_static := remote_static (friendly []);
                remote_login := remote_login (friendly []);
                remote_files := remote_files (friendly []);
                remote_download := remote_download (friendly []);
                graphql_sourceNodes := graphql_sourceNodes (friendly []);
                graphql_createSchemaCustomization :=
                  graphql_createSchemaCustomization (friendly []) |} in
  let o := {| opt_url := VStr "https://cms.example/";
              opt_dev := Some {| refresh := VStr "soon" |};
              opt_auth := Some {| token := VStr "static-token"; email := VUndefined;
                                  password := VUndefined |};
              opt_type := None; opt_concurrency := 2; opt_retries := 5;
              opt_headers := NoHeaders |} in
  let w' := (setOptions env o initial).2 in
  auth_calls (trace w') = [SdkStatic "static-token"]
  /\ setOptions env o w' = (Ok StaticAccepted, w').
Proof.
  intros env o w'.
  destruct (refresh_is_checked_last env o initial w' eq_refl ltac:(by vm_compute))
    as (Hcalls & _ & Hagain).
  split; [exact Hcalls | rewrite Hagain; by vm_compute].
Defined.

End RefreshSpec.

